(** * Flow-map dashboard: the CSV ingestion, selection and coordinate pipeline

    A shallow embedding of the data-transform code of [src/App - Copy1.tsx]
    ([parseCSV], [toNum], [fixLon], the [filteredData] and [mapData] memos and
    the stroke-weight computation of [USAMapVisualization]), with the
    ECMAScript primitives it calls; then the markers ([points]), the total
    ([totalStats]), the bars of the chart, the state of the component
    ([App]: the fetch on mount and [handleFileUpload]) and the selector and
    map subset of the first version of the dashboard.

    - JavaScript numbers are IEEE-754 binary64 values, [spec_float] with
      [prec = 53] and [emax = 1024]; arithmetic is the Standard Library's
      [SpecFloat] (round to nearest, ties to even).
    - JavaScript strings are sequences of code units; the model keeps the
      code units below 256 ([ascii]).
    - A JavaScript object used as a record is a [gmap string JsVal]; a
      missing property ([undefined]) is a lookup that returns [None]. *)

Set Warnings "-inexact-float".
From Stdlib Require Import ZArith Bool List Ascii String Lia Sorted Permutation.
From Stdlib Require Import Floats.SpecFloat Floats.PrimFloat Floats.FloatOps.
From Stdlib Require DecimalString.
From stdpp Require Import base option list strings gmap.

Local Open Scope string_scope.
Local Open Scope Z_scope.

(** ** Code units and strings *)

Module Str.

Definition code (c : ascii) : Z := Z.of_N (N_of_ascii c).

Definition dquote : ascii := "034"%char.
Definition comma : ascii := ","%char.
Definition LF : ascii := "010"%char.
Definition CR : ascii := "013"%char.

Definition DQ : string := String dquote "".
Definition NL : string := String LF "".

Definition ascii_eqb (a b : ascii) : bool := Ascii.eqb a b.
Global Arguments ascii_eqb : simpl never.

(** WhiteSpace and LineTerminator code units below 256: TAB, LF, VT, FF,
    CR, SP and NBSP.  [String.prototype.trim] and [StringToNumber] strip
    the same set. *)
Definition isSpace (c : ascii) : bool :=
  let n := code c in
  ((9 <=? n) && (n <=? 13)) || (n =? 32) || (n =? 160).

Fixpoint trimStart (s : string) : string :=
  match s with
  | String c r => if isSpace c then trimStart r else s
  | EmptyString => EmptyString
  end.

Fixpoint trimEnd (s : string) : string :=
  match s with
  | String c r =>
      match trimEnd r with
      | EmptyString => if isSpace c then EmptyString else String c EmptyString
      | r' => String c r'
      end
  | EmptyString => EmptyString
  end.

Definition trim (s : string) : string := trimEnd (trimStart s).

Definition isEmpty (s : string) : bool :=
  match s with EmptyString => true | _ => false end.

(** [s.replaceAll(c, '')] for a one-unit pattern. *)
Fixpoint removeAll (c : ascii) (s : string) : string :=
  match s with
  | String a r => if ascii_eqb a c then removeAll c r else String a (removeAll c r)
  | EmptyString => EmptyString
  end.

(** [s.split(c)] for a one-unit separator: never the empty list. *)
Fixpoint split (c : ascii) (s : string) : list string :=
  match s with
  | EmptyString => [EmptyString]
  | String a r =>
      if ascii_eqb a c then EmptyString :: split c r
      else match split c r with
           | l :: ls => String a l :: ls
           | [] => [String a EmptyString]
           end
  end.

(** [s.split(/\r?\n/)]: a line ends at LF, and a CR right before that LF
    belongs to the separator. *)
Fixpoint splitLines (s : string) : list string :=
  match s with
  | EmptyString => [EmptyString]
  | String a r =>
      if ascii_eqb a LF then EmptyString :: splitLines r
      else
        match r with
        | String b r' =>
            if ascii_eqb a CR && ascii_eqb b LF then EmptyString :: splitLines r'
            else match splitLines r with
                 | l :: ls => String a l :: ls
                 | [] => [String a EmptyString]
                 end
        | EmptyString => [String a EmptyString]
        end
  end.

Fixpoint startsWith (p s : string) : bool :=
  match p, s with
  | EmptyString, _ => true
  | String a p', String b s' => ascii_eqb a b && startsWith p' s'
  | String _ _, EmptyString => false
  end.

Fixpoint includes (s t : string) : bool :=
  startsWith t s ||
  match s with
  | String _ r => includes r t
  | EmptyString => false
  end.

Fixpoint lastIs (c : ascii) (s : string) : bool :=
  match s with
  | EmptyString => false
  | String a EmptyString => ascii_eqb a c
  | String _ r => lastIs c r
  end.

Fixpoint dropLast (s : string) : string :=
  match s with
  | EmptyString => EmptyString
  | String _ EmptyString => EmptyString
  | String a r => String a (dropLast r)
  end.

(** [s.slice(1, -1)] *)
Definition slice1m1 (s : string) : string :=
  match s with
  | EmptyString => EmptyString
  | String _ r => dropLast r
  end.

(** [toLowerCase] on code units below 256: A-Z, and the Latin-1 capitals
    U+00C0-U+00DE except the multiplication sign U+00D7. *)
Definition lowerChar (c : ascii) : ascii :=
  let n := code c in
  if ((65 <=? n) && (n <=? 90))
     || ((192 <=? n) && (n <=? 222) && negb (n =? 215))
  then ascii_of_N (Z.to_N (n + 32)) else c.

Fixpoint toLowerCase (s : string) : string :=
  match s with
  | String c r => String (lowerChar c) (toLowerCase r)
  | EmptyString => EmptyString
  end.

Fixpoint has (c : ascii) (s : string) : bool :=
  match s with
  | String a r => ascii_eqb a c || has c r
  | EmptyString => false
  end.

Fixpoint repeat0 (n : nat) : string :=
  match n with O => EmptyString | S k => String "0"%char (repeat0 k) end.

Fixpoint take (n : nat) (s : string) : string :=
  match n, s with
  | S k, String a r => String a (take k r)
  | _, _ => EmptyString
  end.

Fixpoint drop (n : nat) (s : string) : string :=
  match n, s with
  | S k, String _ r => drop k r
  | _, _ => s
  end.

End Str.

(** ** Numbers: binary64 *)

Module Num.

Abbreviation num := spec_float.

Definition prec : Z := 53.
Definition emax : Z := 1024.

Definition add : num -> num -> num := SFadd prec emax.
Definition sub : num -> num -> num := SFsub prec emax.
Definition mul : num -> num -> num := SFmul prec emax.
Definition div : num -> num -> num := SFdiv prec emax.
Definition neg : num -> num := SFopp.
Definition ltb : num -> num -> bool := SFltb.
Definition leb : num -> num -> bool := SFleb.
Definition eqb : num -> num -> bool := SFeqb.

Definition zero : num := S754_zero false.
Definition NaN : num := S754_nan.
Definition Infinity : num := S754_infinity false.

(** [x > y] *)
Definition gtb (x y : num) : bool := ltb y x.

Definition isNaN (x : num) : bool :=
  match x with S754_nan => true | _ => false end.

(** [Number.isFinite(x)] *)
Definition isFinite (x : num) : bool :=
  match x with S754_zero _ | S754_finite _ _ _ => true | _ => false end.

(** ToBoolean on a number: NaN, +0 and -0 are falsy. *)
Definition truthy (x : num) : bool :=
  match x with S754_nan | S754_zero _ => false | _ => true end.

(** The Number value of the integer [z], correctly rounded. *)
Definition ofZ (z : Z) : num := binary_normalize prec emax z 0 false.

(** The Number value of [m * 10^e] for a mathematical integer [m >= 0],
    correctly rounded: a non-negative exponent gives an integer to round,
    a negative one a quotient of two integers to round once. *)
Definition ofDecimal (s : bool) (m e : Z) : num :=
  match m with
  | Zpos p =>
      match e with
      | Zneg q => SFdiv prec emax (S754_finite s p 0) (S754_finite false (Pos.pow 10 q) 0)
      | _ => binary_normalize prec emax (if s then - (m * 10 ^ e) else m * 10 ^ e) 0 false
      end
  | _ => S754_zero s
  end.

Definition emin : Z := SpecFloat.emin prec emax.

(** A well-formed binary64 value: a finite one has its canonical mantissa
    and exponent. *)
Definition valid (x : num) : bool := valid_binary prec emax x.

(** Strictly positive values: the finite ones and [+Infinity]. *)
Definition isPositive (x : num) : bool :=
  match x with
  | S754_finite false _ _ | S754_infinity false => true
  | _ => false
  end.

(** The position of a positive value on the grid of the multiples of
    [2^emin], with [+Infinity] at [2^(emax - emin)]. *)
Definition ord (x : num) : Z :=
  match x with
  | S754_finite false m e => Zpos m * 2 ^ (e - emin)
  | S754_infinity false => 2 ^ (emax - emin)
  | _ => 0
  end.

(** *** StringToNumber *)

Definition digitIn (radix : Z) (c : ascii) : option Z :=
  let n := Str.code c in
  let d :=
    if (48 <=? n) && (n <=? 57) then n - 48
    else if (97 <=? n) && (n <=? 102) then n - 87
    else if (65 <=? n) && (n <=? 70) then n - 55
    else radix in
  if d <? radix then Some d else None.

(** The leading digits of [s] in [radix], most significant first, and what
    follows them. *)
Fixpoint spanDigits (radix : Z) (s : string) : list Z * string :=
  match s with
  | String c r =>
      match digitIn radix c with
      | Some d => let '(ds, rest) := spanDigits radix r in (d :: ds, rest)
      | None => ([], s)
      end
  | EmptyString => ([], s)
  end.

Definition valueOf (radix : Z) (ds : list Z) : Z :=
  fold_left (fun acc d => radix * acc + d) ds 0.

(** NonDecimalIntegerLiteral: [0x], [0o] or [0b] (either case) and at least
    one digit of that radix, up to the end.  [None]: not of this form. *)
Definition nonDecimal (s : string) : option (option Z) :=
  match s with
  | String "0" (String p r) =>
      let radix :=
        if Str.ascii_eqb p "x" || Str.ascii_eqb p "X" then Some 16
        else if Str.ascii_eqb p "o" || Str.ascii_eqb p "O" then Some 8
        else if Str.ascii_eqb p "b" || Str.ascii_eqb p "B" then Some 2
        else None in
      match radix with
      | Some b =>
          match spanDigits b r with
          | ((_ :: _) as ds, EmptyString) => Some (Some (valueOf b ds))
          | _ => Some None
          end
      | None => None
      end
  | _ => None
  end.

(** ExponentPart, or nothing, up to the end of the string. *)
Definition exponentPart (s : string) : option Z :=
  match s with
  | EmptyString => Some 0
  | String c r =>
      if Str.ascii_eqb c "e" || Str.ascii_eqb c "E" then
        let '(sg, r') :=
          match r with
          | String "+" t => (false, t)
          | String "-" t => (true, t)
          | _ => (false, r)
          end in
        match spanDigits 10 r' with
        | ((_ :: _) as ds, EmptyString) =>
            Some (if sg then - valueOf 10 ds else valueOf 10 ds)
        | _ => None
        end
      else None
  end.

(** StrUnsignedDecimalLiteral other than [Infinity]: the integer made of
    all its digits and the power of ten it is scaled by. *)
Definition unsignedDecimal (s : string) : option (Z * Z) :=
  let '(ip, r1) := spanDigits 10 s in
  let '(fp, r2, dot) :=
    match r1 with
    | String "." t => let '(fp, r2) := spanDigits 10 t in (fp, r2, true)
    | _ => ([], r1, false)
    end in
  match ip, fp with
  | [], [] => None
  | _, _ =>
      match exponentPart r2 with
      | Some e => Some (valueOf 10 (ip ++ fp), e - Z.of_nat (length fp))
      | None => None
      end
  end.

(** [Number(s)] on a string (StringToNumber). *)
Definition ofString (s : string) : num :=
  let t := Str.trim s in
  match t with
  | EmptyString => zero
  | _ =>
      match nonDecimal t with
      | Some (Some z) => ofZ z
      | Some None => NaN
      | None =>
          let '(sg, u) :=
            match t with
            | String "+" r => (false, r)
            | String "-" r => (true, r)
            | _ => (false, t)
            end in
          if String.eqb u "Infinity" then S754_infinity sg
          else match unsignedDecimal u with
               | Some (m, e) => ofDecimal sg m e
               | None => NaN
               end
      end
  end.

(** *** Number::toString, radix 10 *)

Definition same (x y : num) : bool :=
  match x, y with
  | S754_zero a, S754_zero b => Bool.eqb a b
  | S754_infinity a, S754_infinity b => Bool.eqb a b
  | S754_nan, S754_nan => true
  | S754_finite a m e, S754_finite b m' e' => Bool.eqb a b && Pos.eqb m m' && Z.eqb e e'
  | _, _ => false
  end.

Definition decimalOf (z : Z) : string :=
  DecimalString.NilZero.string_of_uint (N.to_uint (Z.to_N z)).

(** The value [m * 2^e] as a quotient of two positive integers. *)
Definition ratio (m : positive) (e : Z) : Z * Z :=
  match e with
  | Zneg q => (Zpos m, 2 ^ Zpos q)
  | _ => (Zpos m * 2 ^ e, 1)
  end.

(** [N / D < 10^n] *)
Definition belowPow10 (N D n : Z) : bool :=
  if 0 <=? n then N <? D * 10 ^ n else N * 10 ^ (- n) <? D.

Fixpoint raise (fuel : nat) (N D n : Z) : Z :=
  match fuel with
  | O => n
  | S f => if belowPow10 N D n then n else raise f N D (n + 1)
  end.

Fixpoint lower (fuel : nat) (N D n : Z) : Z :=
  match fuel with
  | O => n
  | S f => if belowPow10 N D (n - 1) then lower f N D (n - 1) else n
  end.

(** The [n] with [10^(n-1) <= N / D < 10^n], found from the estimate that
    the bit lengths give (off by a few units at most). *)
Definition decimalExponent (N D : Z) : Z :=
  let n0 := ((Z.log2 N - Z.log2 D) * 30103) / 100000 in
  lower 8 N D (raise 8 N D n0).

(** The [k]-digit integers on either side of [N / D * 10^(k-n)], nearest
    first, each with the [n] and [k] it is read with; a carry to [10^k] is
    the single digit 1 one decade up. *)
Definition candidates (N D n k : Z) : list (Z * Z * Z) :=
  let '(A, B) :=
    if 0 <=? k - n then (N * 10 ^ (k - n), D) else (N, D * 10 ^ (n - k)) in
  let lo := A / B in
  let hi := lo + 1 in
  let clo := (lo, n, k) in
  let chi := if hi =? 10 ^ k then (1, n + 1, 1) else (hi, n, k) in
  if 2 * (A mod B) <=? B then [clo; chi] else [chi; clo].

(** Step 5 of Number::toString: the least [k] for which some [k]-digit [s]
    has [s * 10^(n-k)] round to [x], and the [s] nearest to [x]. *)
Fixpoint shortest (fuel : nat) (x : num) (N D n k : Z) : Z * Z * Z :=
  match fuel with
  | O => (N / D, n, k)
  | S f =>
      match List.filter (fun '(s, n', k') => same (ofDecimal false s (n' - k')) x)
                        (candidates N D n k) with
      | c :: _ => c
      | [] => shortest f x N D n (k + 1)
      end
  end.

Definition formatDecimal (s n k : Z) : string :=
  let ds := decimalOf s in
  if (-5 <=? n) && (n <=? 21) then
    if k <=? n then ds ++ Str.repeat0 (Z.to_nat (n - k))
    else if 0 <? n then Str.take (Z.to_nat n) ds ++ "." ++ Str.drop (Z.to_nat n) ds
    else "0." ++ Str.repeat0 (Z.to_nat (- n)) ++ ds
  else
    let c := n - 1 in
    let ex := (if 0 <=? c then "e+" else "e-") ++ decimalOf (Z.abs c) in
    if k =? 1 then ds ++ ex
    else Str.take 1 ds ++ "." ++ Str.drop 1 ds ++ ex.

Definition toString (x : num) : string :=
  match x with
  | S754_nan => "NaN"
  | S754_zero _ => "0"
  | S754_infinity s => if s then "-Infinity" else "Infinity"
  | S754_finite sg m e =>
      let '(N, D) := ratio m e in
      let '(s, n, k) :=
        shortest 17 (S754_finite false m e) N D (decimalExponent N D) 1 in
      (if sg then "-" else "") ++ formatDecimal s n k
  end.

End Num.

(** ** Values and objects *)

(** The values a row holds: a number, a string, or the two-number array of
    a coordinate pair.  [undefined] is the absence of a value. *)
Inductive JsVal :=
| JNum (x : Num.num)
| JStr (s : string)
| JPair (a b : Num.num).

Abbreviation Obj := (gmap string JsVal).

(** [String(v)] *)
Definition toStr (v : option JsVal) : string :=
  match v with
  | None => "undefined"
  | Some (JStr s) => s
  | Some (JNum x) => Num.toString x
  | Some (JPair a b) => Num.toString a ++ "," ++ Num.toString b
  end.

(** [Number(v)] *)
Definition toNumber (v : option JsVal) : Num.num :=
  match v with
  | Some (JNum x) => x
  | Some (JStr _) | Some (JPair _ _) => Num.ofString (toStr v)
  | None => Num.NaN
  end.

(** ToBoolean *)
Definition truthy (v : option JsVal) : bool :=
  match v with
  | None => false
  | Some (JStr s) => negb (Str.isEmpty s)
  | Some (JNum x) => Num.truthy x
  | Some (JPair _ _) => true
  end.

(** [v === x] for a number [x] *)
Definition strictEqNum (v : option JsVal) (x : Num.num) : bool :=
  match v with
  | Some (JNum y) => Num.eqb y x
  | _ => false
  end.

(** [obj[key] = v] on a plain object and a primitive [v]: an own data
    property, except for the key [__proto__], whose inherited setter ignores
    a value that is neither an object nor null. *)
Definition setProp (key : string) (v : JsVal) (obj : Obj) : Obj :=
  if String.eqb key "__proto__" then obj else <[key := v]> obj.

(** ** The CSV parser *)

(** The three statements applied to every finished field:
[[
  let val: any = currentVal.trim();
  if (!isNaN(val) && val !== '') val = Number(val);
  if (typeof val === 'string' && val.startsWith('"') && val.endsWith('"')) val = val.slice(1, -1);
]] *)
Definition coerce (currentVal : string) : JsVal :=
  let val := Str.trim currentVal in
  if negb (Num.isNaN (Num.ofString val)) && negb (Str.isEmpty val)
  then JNum (Num.ofString val)
  else if Str.startsWith Str.DQ val && Str.lastIs Str.dquote val
       then JStr (Str.slice1m1 val)
       else JStr val.

(** The same without the last statement. *)
Definition coerceNoStrip (currentVal : string) : JsVal :=
  let val := Str.trim currentVal in
  if negb (Num.isNaN (Num.ofString val)) && negb (Str.isEmpty val)
  then JNum (Num.ofString val)
  else JStr val.

Record Scan := mkScan {
  row : Obj;
  currentVal : string;
  inQuote : bool;
  colIndex : nat
}.

(** The state of the loop when a line starts. *)
Definition scanStart : Scan := mkScan ∅ "" false 0.

Section Parser.

(** The field coercion, a parameter so that the parser can be compared with
    a variant of itself. *)
Variable fieldValue : string -> JsVal.

Definition assign (headers : list string) (st : Scan) : Obj :=
  if (colIndex st <? length headers)%nat
  then setProp (nth (colIndex st) headers "") (fieldValue (currentVal st)) (row st)
  else row st.

(** One turn of the loop over the characters of a line. *)
Definition scanChar (headers : list string) (st : Scan) (char : ascii) : Scan :=
  if Str.ascii_eqb char Str.dquote then
    mkScan (row st) (currentVal st) (negb (inQuote st)) (colIndex st)
  else if Str.ascii_eqb char Str.comma && negb (inQuote st) then
    mkScan (assign headers st) "" (inQuote st) (S (colIndex st))
  else
    mkScan (row st) (currentVal st ++ String char "") (inQuote st) (colIndex st).

Fixpoint scanLine (headers : list string) (st : Scan) (line : string) : Scan :=
  match line with
  | String char rest => scanLine headers (scanChar headers st char) rest
  | EmptyString => st
  end.

Definition parseLine (headers : list string) (line : string) : Obj :=
  assign headers (scanLine headers scanStart line).

Definition parseCSVWith (csvText : string) : list Obj :=
  let lines :=
    List.filter (fun line => negb (Str.isEmpty (Str.trim line)))
                (Str.splitLines csvText) in
  match lines with
  | [] => []
  | header :: rest =>
      let headers := List.map Str.trim (Str.split Str.comma header) in
      List.map (parseLine headers) rest
  end.

End Parser.

Definition parseCSV : string -> list Obj := parseCSVWith coerce.

(** ** Coordinate helpers *)

(** [toNum]: [v ?? ''] turns a missing value into the empty string. *)
Definition toNum (v : option JsVal) : Num.num :=
  let s := Str.removeAll Str.dquote
             (Str.trim (toStr (match v with None => Some (JStr "") | _ => v end))) in
  let x := Num.ofString s in
  if Num.isFinite x then x else Num.NaN.

Definition fixLon (lon : Num.num) : Num.num :=
  if Num.gtb lon Num.zero then Num.neg lon else lon.

(** [parseInt(s)] with no radix argument. *)
Definition parseInt (s : string) : Num.num :=
  let t := Str.trimStart s in
  let '(sg, u) :=
    match t with
    | String "+" r => (false, r)
    | String "-" r => (true, r)
    | _ => (false, t)
    end in
  let '(radix, d) :=
    match u with
    | String "0" (String p r) =>
        if Str.ascii_eqb p "x" || Str.ascii_eqb p "X" then (16, r) else (10, u)
    | _ => (10, u)
    end in
  match Num.spanDigits radix d with
  | ([], _) => Num.NaN
  | (ds, _) =>
      let z := Num.valueOf radix ds in
      if z =? 0 then S754_zero sg else Num.ofZ (if sg then - z else z)
  end.

(** ** Filter configuration *)

(** The state [selectedYear], of type ['All' | '2020' | '2021' | '2022']. *)
Inductive Year := All | Y2020 | Y2021 | Y2022.

Definition yearText (y : Year) : string :=
  match y with
  | All => "All"
  | Y2020 => "2020"
  | Y2021 => "2021"
  | Y2022 => "2022"
  end.

(** The state [selectedType], of type ['total' | 'leisure' | 'business']. *)
Inductive Purpose := total | leisure | business.

Definition purposeText (p : Purpose) : string :=
  match p with
  | total => "total"
  | leisure => "leisure"
  | business => "business"
  end.

(** The state [topN], of type [50 | 100 | 200]. *)
Inductive TopN := Top50 | Top100 | Top200.

Definition topCount (n : TopN) : nat :=
  match n with
  | Top50 => 50
  | Top100 => 100
  | Top200 => 200
  end.

Record Config := mkConfig {
  selectedYear : Year;
  selectedType : Purpose;
  searchOrigin : string;
  searchDest : string
}.

(** ** [Array.prototype.sort] *)

(** The sort is stable, and [comparefn(a, b) > 0] is what puts [b] before
    [a]; a result that is negative, zero or NaN leaves [a] first.  For a
    consistent comparison function the sorted array is determined by these
    two facts; insertion from the right computes it. *)
Section Sort.

Context {A : Type}.
Variable comparefn : A -> A -> Num.num.

Fixpoint insertSorted (a : A) (l : list A) : list A :=
  match l with
  | [] => [a]
  | b :: l' =>
      if Num.gtb (comparefn a b) Num.zero then b :: insertSorted a l'
      else a :: l
  end.

Definition sort (l : list A) : list A := foldr insertSorted [] l.

End Sort.

(** ** The selector: [filteredData] *)

Definition yearOk (cfg : Config) (r : Obj) : bool :=
  negb (match selectedYear cfg with All => false | _ => true end
        && negb (strictEqNum (r !! "year") (parseInt (yearText (selectedYear cfg))))).

(** One of the two text tests: [false] is the [return false] of the source. *)
Definition nameOk (query : string) (name : option JsVal) : bool :=
  negb (negb (Str.isEmpty query)
        && truthy name
        && negb (Str.includes (Str.toLowerCase (toStr name)) (Str.toLowerCase query))).

Definition originOk (cfg : Config) (r : Obj) : bool :=
  nameOk (searchOrigin cfg) (r !! "origin_name").

Definition destOk (cfg : Config) (r : Obj) : bool :=
  nameOk (searchDest cfg) (r !! "destination_name").

(** The first [filter] callback. *)
Definition passes (cfg : Config) (r : Obj) : bool :=
  if negb (yearOk cfg r) then false
  else if negb (originOk cfg r) then false
  else if negb (destOk cfg r) then false
  else true.

(** The magnitude cell that the purpose selects. *)
Definition purposeCell (cfg : Config) (r : Obj) : option JsVal :=
  match selectedType cfg with
  | leisure => r !! "total_wt_l_all"
  | business => r !! "total_wt_b_all"
  | total => r !! "total_wt_t_all"
  end.

(** [Number(displayValue) || 0] *)
Definition displayValueOf (cfg : Config) (r : Obj) : Num.num :=
  let x := toNumber (purposeCell cfg r) in
  if Num.truthy x then x else Num.zero.

(** The [map] callback: [{ ...row, displayValue, displayType }]. *)
Definition withDisplay (cfg : Config) (r : Obj) : Obj :=
  <["displayType" := JStr (purposeText (selectedType cfg))]>
    (<["displayValue" := JNum (displayValueOf cfg r)]> r).

(** [row.displayValue] as the number the operators [>] and [-] see. *)
Definition displayValue (r : Obj) : Num.num := toNumber (r !! "displayValue").

(** The second [filter] callback: [row.displayValue > 0]. *)
Definition valuePositive (r : Obj) : bool := Num.gtb (displayValue r) Num.zero.

(** The comparison function: [b.displayValue - a.displayValue]. *)
Definition byValueDesc (a b : Obj) : Num.num :=
  Num.sub (displayValue b) (displayValue a).

Definition filteredData (data : list Obj) (cfg : Config) : list Obj :=
  sort byValueDesc
    (List.filter valuePositive
       (List.map (withDisplay cfg)
          (List.filter (passes cfg) data))).

(** ** The map subset: [mapData] *)

(** The [map] callback: the row with its two coordinate pairs, or [null]. *)
Definition repair (r : Obj) : option Obj :=
  let lonO := fixLon (toNum (r !! "lon_o")) in
  let latO := toNum (r !! "lat_o") in
  let lonD := fixLon (toNum (r !! "lon_d")) in
  let latD := toNum (r !! "lat_d") in
  if Num.isFinite lonO && Num.isFinite latO && Num.isFinite lonD && Num.isFinite latD
  then Some (<["dCoords" := JPair latD lonD]> (<["oCoords" := JPair latO lonO]> r))
  else None.

(** [filter(Boolean)] on an array of objects and nulls. *)
Fixpoint compact {A : Type} (l : list (option A)) : list A :=
  match l with
  | [] => []
  | Some a :: l' => a :: compact l'
  | None :: l' => compact l'
  end.

Definition mapData (data : list Obj) (cfg : Config) (topN : TopN) : list Obj :=
  compact (List.map repair (take (topCount topN) (filteredData data cfg))).

(** The binary64 value of a numeric literal. *)
Definition lit (f : float) : Num.num := Prim2SF f.

(** ** [Math] *)

Module Math.

Definition isPosZero (x : Num.num) : bool :=
  match x with S754_zero false => true | _ => false end.

Definition isNegZero (x : Num.num) : bool :=
  match x with S754_zero true => true | _ => false end.

(** [Math.max(...l)]: NaN if some argument is NaN; otherwise the greatest,
    starting from [-Infinity], with [+0] above [-0]. *)
Definition max (l : list Num.num) : Num.num :=
  if existsb Num.isNaN l then Num.NaN
  else fold_left
         (fun highest x =>
            if (isPosZero x && isNegZero highest) || Num.gtb x highest
            then x else highest)
         l (S754_infinity true).

(** [Math.min(...l)] *)
Definition min (l : list Num.num) : Num.num :=
  if existsb Num.isNaN l then Num.NaN
  else fold_left
         (fun lowest x =>
            if (isNegZero x && isPosZero lowest) || Num.ltb x lowest
            then x else lowest)
         l (S754_infinity false).

(** An integral Number that is odd. *)
Definition isOddInteger (x : Num.num) : bool :=
  match x with
  | S754_finite _ m e =>
      match e with
      | Z0 => Z.odd (Zpos m)
      | Zpos _ => false
      | Zneg q => (Zpos m mod 2 ^ Zpos q =? 0) && Z.odd (Zpos m / 2 ^ Zpos q)
      end
  | _ => false
  end.

Definition isIntegral (x : Num.num) : bool :=
  match x with
  | S754_zero _ => true
  | S754_finite _ m e =>
      match e with
      | Zneg q => Zpos m mod 2 ^ Zpos q =? 0
      | _ => true
      end
  | _ => false
  end.

Definition one : Num.num := Num.ofZ 1.

Section Approximated.

(** ECMAScript fixes [Math.log1p] and [Math.pow] on their special cases and
    leaves the other values "implementation-approximated": these are the
    two functions that an engine supplies. *)
Variable log1pImpl : Num.num -> Num.num.
Variable powImpl : Num.num -> Num.num -> Num.num.

(** [Math.log1p(x)] *)
Definition log1p (x : Num.num) : Num.num :=
  match x with
  | S754_nan | S754_zero _ | S754_infinity false => x
  | _ =>
      if Num.eqb x (Num.neg one) then S754_infinity true
      else if Num.ltb x (Num.neg one) then Num.NaN
      else log1pImpl x
  end.

(** [Math.pow(base, exponent)], that is Number::exponentiate. *)
Definition pow (base exponent : Num.num) : Num.num :=
  let positiveExp := Num.gtb exponent Num.zero in
  let absBase := SFabs base in
  match exponent with
  | S754_nan => Num.NaN
  | S754_zero _ => one
  | _ =>
      match base with
      | S754_nan => Num.NaN
      | S754_infinity false => if positiveExp then Num.Infinity else Num.zero
      | S754_infinity true =>
          if positiveExp
          then (if isOddInteger exponent then S754_infinity true else Num.Infinity)
          else (if isOddInteger exponent then S754_zero true else Num.zero)
      | S754_zero false => if positiveExp then Num.zero else Num.Infinity
      | S754_zero true =>
          if positiveExp
          then (if isOddInteger exponent then S754_zero true else Num.zero)
          else (if isOddInteger exponent then S754_infinity true else Num.Infinity)
      | S754_finite sb _ _ =>
          match exponent with
          | S754_infinity se =>
              if Num.gtb absBase one then (if se then Num.zero else Num.Infinity)
              else if Num.eqb absBase one then Num.NaN
              else (if se then Num.Infinity else Num.zero)
          | _ =>
              if sb && negb (isIntegral exponent) then Num.NaN
              else powImpl base exponent
          end
      end
  end.

End Approximated.

End Math.

(** ** Stroke weights: [USAMapVisualization] *)

Section Weights.

Variable log1pImpl : Num.num -> Num.num.
Variable powImpl : Num.num -> Num.num -> Num.num.

(** [Number(f.displayValue) || 0] *)
Definition valueOrZero (f : Obj) : Num.num :=
  let x := toNumber (f !! "displayValue") in
  if Num.truthy x then x else Num.zero.

(** The memo [{ minLog, maxLog }]. *)
Definition logRange (flows : list Obj) : Num.num * Num.num :=
  match flows with
  | [] => (Num.zero, Math.one)
  | _ =>
      let logs :=
        List.map (fun f => Math.log1p log1pImpl (Math.max [Num.zero; valueOrZero f])) flows in
      let minL := Math.min logs in
      let maxL := Math.max logs in
      (minL, Math.max [maxL; Num.add minL (lit 1e-6)])
  end.

Definition minW : Num.num := lit 0.8.
Definition maxW : Num.num := lit 14.0.

(** [maxLog - minLog], the divisor of the normalisation. *)
Definition logSpan (flows : list Obj) : Num.num :=
  let '(minLog, maxLog) := logRange flows in Num.sub maxLog minLog.

Definition strokeFor (flows : list Obj) (vRaw : Num.num) : Num.num :=
  let '(minLog, maxLog) := logRange flows in
  let v := Math.max [Num.zero; vRaw] in
  let logv := Math.log1p log1pImpl v in
  let t := Num.div (Num.sub logv minLog) (Num.sub maxLog minLog) in
  let t2 := Math.pow powImpl (Math.min [Math.one; Math.max [Num.zero; t]]) (lit 1.15) in
  Num.add minW (Num.mul t2 (Num.sub maxW minW)).

(** The weight of the polyline drawn for each flow, [null] for a flow
    without its two coordinate pairs. *)
Definition polylineWeights (flows : list Obj) : list (option Num.num) :=
  List.map
    (fun f =>
       if negb (truthy (f !! "oCoords")) || negb (truthy (f !! "dCoords")) then None
       else
         let v := Math.max [Num.zero; valueOrZero f] in
         Some (strokeFor flows v))
    flows.

End Weights.

(** ** Inputs used in the statements below *)

Definition flowHeader : string :=
  "year,origin_name,destination_name,lat_o,lon_o,lat_d,lon_d,total_wt_l_all,total_wt_b_all,total_wt_t_all".

(** [s] between two double quotes. *)
Definition quoted (s : string) : string := Str.DQ ++ s ++ Str.DQ.

(** A header line and the data lines after it. *)
Definition csv (header : string) (lines : list string) : string :=
  String.concat Str.NL (header :: lines).

Definition bostonAustin : string :=
  csv flowHeader
    ["2021," ++ quoted "Boston, MA" ++ "," ++ quoted "Austin, TX"
       ++ ",42.36,71.06,30.27,97.74,100,50,150"].

Definition noFilter : Config := mkConfig All total "" "".

(** A value holds no double-quote character. *)
Definition quoteFree (v : JsVal) : Prop :=
  match v with
  | JStr s => Str.has Str.dquote s = false
  | _ => True
  end.


(** What the loop keeps true: the field buffer and the cells assigned so far
    hold no double quote. *)
Definition scanOk (st : Scan) : Prop :=
  Str.has Str.dquote (currentVal st) = false
  /\ map_Forall (fun _ v => quoteFree v) (row st).

(** One column [h] and one data line, the cell written ["007"] with its
    double quotes. *)
Definition quoted007 : string := csv "h" [quoted "007"].

(** A flow whose origin cell is empty. *)
Definition namelessOrigin : string :=
  csv "origin_name,destination_name,total_wt_t_all" [",Austin,5"].

(** The scenario of [bostonAustin] with an origin latitude of 95 degrees. *)
Definition latitude95 : string :=
  csv flowHeader ["2021,Boston,Austin,95,71.06,30.27,97.74,100,50,150"].

(** The scenario of [bostonAustin] with an empty origin longitude cell. *)
Definition emptyLongitude : string :=
  csv flowHeader ["2021,Boston,Austin,42.36,,30.27,97.74,100,50,150"].

(** Three rows: one whose destination latitude cell is empty, one whose
    origin longitude cell is a text, and one with its four coordinates. *)
Definition emptyAndTextCells : string :=
  csv flowHeader
    ["2021,Boston,Austin,42.36,71.06,30.27,97.74,0,0,100";
     "2021,Denver,Miami,39.74,104.99,,80.19,0,0,300";
     "2021,Seattle,Chicago,47.61,n/a,41.88,87.63,0,0,200"].

(** [t] occurs in [s]. *)
Definition occursIn (t s : string) : Prop :=
  exists a b : string, s = a ++ t ++ b.

(** The four coordinate cells of a row parse as finite numbers. *)
Definition coordsValid (r : Obj) : bool :=
  Num.isFinite (toNum (r !! "lon_o")) && Num.isFinite (toNum (r !! "lat_o"))
  && Num.isFinite (toNum (r !! "lon_d")) && Num.isFinite (toNum (r !! "lat_d")).

(** The row with the two coordinate pairs that [repair] computes. *)
Definition withCoords (r : Obj) : Obj :=
  <["dCoords" := JPair (toNum (r !! "lat_d")) (fixLon (toNum (r !! "lon_d")))]>
    (<["oCoords" := JPair (toNum (r !! "lat_o")) (fixLon (toNum (r !! "lon_o")))]> r).

(** A row without its four coordinate cells. *)
Definition stripCoords (r : Obj) : Obj :=
  delete "lat_o" (delete "lon_o" (delete "lat_d" (delete "lon_d" r))).

(** What holds of the coordinates of an emitted record: both pairs are
    there, the four numbers are finite and the two longitudes are at most
    zero. *)
Definition coordsOk (r : Obj) : Prop :=
  exists latO lonO latD lonD : Num.num,
    r !! "oCoords" = Some (JPair latO lonO)
    /\ r !! "dCoords" = Some (JPair latD lonD)
    /\ Num.isFinite latO = true /\ Num.isFinite lonO = true
    /\ Num.isFinite latD = true /\ Num.isFinite lonD = true
    /\ Num.leb lonO Num.zero = true /\ Num.leb lonD Num.zero = true.

(** ** Well-formed rows *)

(** The numbers of a value are well-formed binary64 values. *)
Definition validVal (v : JsVal) : bool :=
  match v with
  | JNum x => Num.valid x
  | JStr _ => true
  | JPair a b => Num.valid a && Num.valid b
  end.

Definition rowsValid (data : list Obj) : bool :=
  forallb (fun r : Obj => forallb (fun kv => validVal (snd kv)) (map_to_list r)) data.

(** The rows that reach the sort, in the order of the data. *)
Definition candidates (data : list Obj) (cfg : Config) : list Obj :=
  List.filter valuePositive
    (List.map (withDisplay cfg) (List.filter (passes cfg) data)).

(** Three flows, the first and the last with the same total. *)
Definition threeFlows : string :=
  csv flowHeader
    ["2021,Boston,Austin,42.36,71.06,30.27,97.74,100,50,150";
     "2021,Denver,Miami,39.74,104.99,25.76,80.19,200,100,300";
     "2021,Seattle,Chicago,47.61,122.33,41.88,87.63,90,60,150"].

(** The records that are sorted: a strictly positive, well-formed
    displayValue. *)
Definition sortable (r : Obj) : Prop :=
  Num.isPositive (displayValue r) = true /\ Num.valid (displayValue r) = true.

(** No element is followed by one of greater key. *)
Definition descending {A : Type} (key : A -> Z) : list A -> Prop :=
  StronglySorted (fun a b : A => key b <= key a).

(** Not negative and not NaN: [+0], a positive finite value, [+Infinity]. *)
Definition nonneg (x : Num.num) : bool :=
  match x with
  | S754_zero false | S754_finite false _ _ | S754_infinity false => true
  | _ => false
  end.

(** ** Statements about the stroke weights *)

(** The flow is drawn: it has its two coordinate pairs. *)
Definition drawn (f : Obj) : bool :=
  truthy (f !! "oCoords") && truthy (f !! "dCoords").

(** What is asked of an engine's [Math.log1p] at 10, 100 and 1000: a
    well-formed result in [2, 2.5], in [4.5, 5] and in [6.5, 7] (the
    logarithms of 11, 101 and 1001 are 2.39..., 4.61... and 6.90...). *)
Definition logsBracketed (log1pImpl : Num.num -> Num.num) : Prop :=
  let L10 := log1pImpl (lit 10) in
  let L100 := log1pImpl (lit 100) in
  let L1000 := log1pImpl (lit 1000) in
  Num.valid L10 = true /\ Num.valid L100 = true /\ Num.valid L1000 = true
  /\ Num.leb (lit 2) L10 = true /\ Num.leb L10 (lit 2.5) = true
  /\ Num.leb (lit 4.5) L100 = true /\ Num.leb L100 (lit 5) = true
  /\ Num.leb (lit 6.5) L1000 = true /\ Num.leb L1000 (lit 7) = true.

(** A [Math.log1p] that is right at 10, 100 and 1000. *)
Definition tableLog1p (x : Num.num) : Num.num :=
  if Num.same x (lit 10) then lit 2.3978952727983707
  else if Num.same x (lit 100) then lit 4.61512051684126
  else if Num.same x (lit 1000) then lit 6.90875477931522
  else x.

(** A [Math.pow] that returns its base. *)
Definition basePow (base exponent : Num.num) : Num.num := base.

(** A [Math.pow] that is right at the one power that the flows of totals
    10, 100 and 1000 need, 0.49153054774586935 to the 1.15, and returns its
    base elsewhere. *)
Definition tablePow (base exponent : Num.num) : Num.num :=
  if Num.same base (lit 0.49153054774586935) && Num.same exponent (lit 1.15)
  then lit 0.4418583746309846
  else base.

(** Three flows with the totals 10, 100 and 1000. *)
Definition tenHundredThousand : string :=
  csv flowHeader
    ["2021,Boston,Austin,42.36,71.06,30.27,97.74,0,0,10";
     "2021,Denver,Miami,39.74,104.99,25.76,80.19,0,0,100";
     "2021,Seattle,Chicago,47.61,122.33,41.88,87.63,0,0,1000"].

(** A flow whose total is written [Infinity]. *)
Definition infiniteTotal : string :=
  csv flowHeader
    ["2021,Boston,Austin,42.36,71.06,30.27,97.74,100,50,Infinity"].

(** A log that the weights can take: well-formed, not negative and below
    1024 (the logarithm of a finite binary64 value is below 710). *)
Definition smallLog (x : Num.num) : bool :=
  nonneg x && Num.valid x && Num.ltb x (lit 1024).

(** [Math.log1p(Math.max(0, Number(f.displayValue) || 0))] *)
Definition logOf (log1pImpl : Num.num -> Num.num) (f : Obj) : Num.num :=
  Math.log1p log1pImpl (Math.max [Num.zero; valueOrZero f]).

(** ** Devices of the proofs about rounding *)

Abbreviation fexp := (SpecFloat.fexp Num.prec Num.emax).

(** The end of [binary_round_aux]: the second shift and the result. *)
Definition finish (s : bool) (m1 e1 : Z) : spec_float :=
  let '(mrs'', e'') := shr_fexp Num.prec Num.emax m1 e1 loc_Exact in
  match shr_m mrs'' with
  | Z0 => S754_zero s
  | Zpos m => if e'' <=? Num.emax - Num.prec then S754_finite s m e'' else S754_infinity s
  | Zneg _ => S754_nan
  end.

(** ** Statements about the parser *)

(** A line of text: no LF and no CR in it. *)
Definition lineFree (s : string) : bool :=
  negb (Str.has Str.LF s) && negb (Str.has Str.CR s).

(** The test of the [filter] on the lines: [line.trim() !== '']. *)
Definition nonBlank (line : string) : bool := negb (Str.isEmpty (Str.trim line)).

(** The lines joined with CR LF. *)
Definition csvCRLF (header : string) (lines : list string) : string :=
  String.concat (String Str.CR Str.NL) (header :: lines).

(** What holds of every cell of a parsed row: a number that is not NaN, or
    a string without surrounding white space and without double quotes that
    is empty or does not read as a number. *)
Definition cellOk (v : JsVal) : Prop :=
  match v with
  | JNum x => Num.isNaN x = false
  | JStr s =>
      Str.trim s = s /\ Str.has Str.dquote s = false
      /\ (s = "" \/ Num.isNaN (Num.ofString s) = true)
  | JPair _ _ => False
  end.

(** What the loop over the characters keeps true: the field buffer holds no
    double quote and the cells assigned so far are as above. *)
Definition cellsOk (st : Scan) : Prop :=
  Str.has Str.dquote (currentVal st) = false
  /\ map_Forall (fun _ v => cellOk v) (row st).

(** The keys that a row can have: the header names other than [__proto__]. *)
Definition keysOk (headers : list string) (o : Obj) : Prop :=
  forall k : string, is_Some (o !! k) -> In k headers /\ k <> "__proto__".

(** The assignments of the cells [cells] to the columns from [i] on. *)
Fixpoint assignCells (fieldValue : string -> JsVal) (headers : list string)
    (i : nat) (o : Obj) (cells : list string) : Obj :=
  match cells with
  | [] => o
  | c :: cs =>
      assignCells fieldValue headers (S i)
        (assign fieldValue headers (mkScan o c false i)) cs
  end.

(** The first piece of a line continues the field that is being read. *)
Definition continueField (cur : string) (cells : list string) : list string :=
  match cells with
  | c :: cs => (cur ++ c) :: cs
  | [] => [cur]
  end.

(** ** Statements about the selector and the map subset *)

(** A coordinate cell that is missing, or holds white space only. *)
Definition blankCell (v : option JsVal) : Prop :=
  v = None \/ exists s : string, v = Some (JStr s) /\ Str.trim s = "".

(** No record is followed by one of greater displayValue. *)
Definition ranked (l : list Obj) : Prop :=
  StronglySorted (fun a b : Obj => Num.ltb (displayValue a) (displayValue b) = false) l.

(** The configuration with the purpose of [cfg] and no other filter. *)
Definition purposeOnly (cfg : Config) : Config :=
  mkConfig All (selectedType cfg) "" "".

(** The number that [parseInt] reads from the text of a year. *)
Definition yearNumber (y : Year) : option Num.num :=
  match y with
  | All => None
  | Y2020 => Some (lit 2020)
  | Y2021 => Some (lit 2021)
  | Y2022 => Some (lit 2022)
  end.

(** What holds of every record that the selector returns. *)
Definition selected (cfg : Config) (r : Obj) : Prop :=
  (forall y : Num.num, yearNumber (selectedYear cfg) = Some y -> r !! "year" = Some (JNum y))
  /\ r !! "displayType" = Some (JStr (purposeText (selectedType cfg)))
  /\ exists x : Num.num, r !! "displayValue" = Some (JNum x) /\ Num.isPositive x = true.

(** ** The total: [totalStats] *)

(** [v || 0] *)
Definition orZero (v : option JsVal) : JsVal :=
  match v with
  | Some x => if truthy v then x else JNum Num.zero
  | None => JNum Num.zero
  end.

(** [a + b]: the sum of two numbers; with a string or an array on either
    side, the concatenation of the two texts. *)
Definition addValues (a b : JsVal) : JsVal :=
  match a, b with
  | JNum x, JNum y => JNum (Num.add x y)
  | _, _ => JStr (toStr (Some a) ++ toStr (Some b))
  end.

(** [filteredData.reduce((acc, c) => acc + (c.displayValue || 0), 0)] *)
Definition totalStats (filtered : list Obj) : JsVal :=
  fold_left (fun acc c => addValues acc (orZero (c !! "displayValue"))) filtered (JNum Num.zero).

(** ** The colour of a polyline *)

(** [v === s] for a string [s] *)
Definition strictEqStr (v : option JsVal) (s : string) : bool :=
  match v with
  | Some (JStr t) => String.eqb t s
  | _ => false
  end.

(** [f.displayType === 'business' ? '#8b5cf6' : '#3b82f6'] *)
Definition strokeColor (f : Obj) : string :=
  if strictEqStr (f !! "displayType") "business" then "#8b5cf6" else "#3b82f6".

(** ** The markers of the map: [points] *)

(** A marker: [{ name, coords }]. *)
Record Point := mkPoint {
  name : option JsVal;
  coords : JsVal
}.

(** [m.set(k, v)] on a [Map], kept as the list of its entries in insertion
    order: a key that is there keeps its place and takes the new value, a
    new key goes last. *)
Fixpoint mapSet (k : string) (v : Point) (m : list (string * Point)) : list (string * Point) :=
  match m with
  | [] => [(k, v)]
  | (k', v') :: m' =>
      if String.eqb k' k then (k, v) :: m' else (k', v') :: mapSet k v m'
  end.

(** The key [`o:${f.origin_name}`]. *)
Definition originKey (f : Obj) : string := "o:" ++ toStr (f !! "origin_name").

(** The key [`d:${f.destination_name}`]. *)
Definition destKey (f : Obj) : string := "d:" ++ toStr (f !! "destination_name").

(** The callback of [flows.forEach]. *)
Definition addPoints (m : list (string * Point)) (f : Obj) : list (string * Point) :=
  let m1 :=
    match f !! "oCoords" with
    | Some c => if truthy (Some c) then mapSet (originKey f) (mkPoint (f !! "origin_name") c) m else m
    | None => m
    end in
  match f !! "dCoords" with
  | Some c => if truthy (Some c) then mapSet (destKey f) (mkPoint (f !! "destination_name") c) m1 else m1
  | None => m1
  end.

(** The [Map] after the loop. *)
Definition pointEntries (flows : list Obj) : list (string * Point) :=
  fold_left addPoints flows [].

(** [Array.from(m.values())] *)
Definition points (flows : list Obj) : list Point :=
  List.map snd (pointEntries flows).

(** The keys that the loop sets, in the order it sets them. *)
Definition pointKeys (flows : list Obj) : list string :=
  flat_map
    (fun f : Obj =>
       ((if truthy (f !! "oCoords") then [originKey f] else [])
        ++ (if truthy (f !! "dCoords") then [destKey f] else []))%list)
    flows.

(** The marker [p] under the key [k] is the origin, or the destination, of
    the flow [f]. *)
Definition markerOf (f : Obj) (k : string) (p : Point) : Prop :=
  (k = originKey f /\ name p = f !! "origin_name" /\ f !! "oCoords" = Some (coords p)
   /\ truthy (f !! "oCoords") = true)
  \/ (k = destKey f /\ name p = f !! "destination_name" /\ f !! "dCoords" = Some (coords p)
      /\ truthy (f !! "dCoords") = true).

(** ** The bars of the chart *)

(** [String(v).split(',')[0]] *)
Definition firstPiece (v : option JsVal) : string :=
  hd "" (Str.split Str.comma (toStr v)).

Module Chart.

(** A bar: the two names of the label, which is the first, an arrow and
    the second, and the value. *)
Record Bar := mkBar {
  labelFrom : string;
  labelTo : string;
  value : option JsVal
}.

End Chart.

(** [filteredData.slice(0, 15).map(d => ({ name, value: d.displayValue }))] *)
Definition chartData (filtered : list Obj) : list Chart.Bar :=
  List.map
    (fun d : Obj =>
       Chart.mkBar (firstPiece (d !! "origin_name")) (firstPiece (d !! "destination_name"))
             (d !! "displayValue"))
    (take 15 filtered).

(** The part [p] of a label made from the text [s] of a name: [s] up to its
    first comma. *)
Definition labelOf (s p : string) : Prop :=
  Str.has Str.comma p = false /\ (s = p \/ exists t : string, s = p ++ "," ++ t).

(** What the loop of [points] keeps true of the [Map], for the flows seen
    so far. *)
Definition entriesOk (flows : list Obj) (m : list (string * Point)) : Prop :=
  NoDup (List.map fst m)
  /\ (forall k : string, In k (List.map fst m) <-> In k (pointKeys flows))
  /\ (forall (k : string) (p : Point), In (k, p) m -> exists f : Obj, In f flows /\ markerOf f k p).

(** ** The state of the component: [App] *)

Module App.

(** The type [FileStatus]. *)
Inductive FileStatus := connected | not_found.

(** The state variables [data], [loading], [error], [parsedCount] and
    [fileStatus]. *)
Record State := mkState {
  data : list Obj;
  loading : bool;
  error : option string;
  parsedCount : nat;
  fileStatus : FileStatus
}.

(** The label of [FileBadge]. *)
Definition label (status : FileStatus) : string :=
  match status with
  | connected => "File connected"
  | not_found => "File not found"
  end.

(** The values given to [useState]. *)
Definition initial : State := mkState [] false None 0 not_found.

(** What [fetch('/yy1.csv')] and [res.text()] give: nothing (the fetch or
    the read is rejected, or [res.ok] is false), or the text of the body. *)
Inductive Response := unavailable | body (text : string).

(** [fetchData] up to its first [await]. *)
Definition fetchStart (st : State) : State :=
  mkState (data st) true None (parsedCount st) not_found.

(** The first guard of [fetchData]: the trimmed text starts like an HTML
    page. *)
Definition looksLikeHtml (text : string) : bool :=
  Str.startsWith "<!DOCTYPE" (Str.trim text) || Str.startsWith "<html" (Str.trim text).

(** The [catch] and [finally] blocks of [fetchData]. *)
Definition fetchFailed (st : State) : State :=
  mkState [] false (error st) 0 not_found.

(** The rest of [fetchData], once the response is there. *)
Definition fetchEnd (r : Response) (st : State) : State :=
  match r with
  | unavailable => fetchFailed st
  | body text =>
      if looksLikeHtml text then fetchFailed st
      else match parseCSV text with
           | [] => fetchFailed st
           | parsed => mkState parsed false (error st) (length parsed) connected
           end
  end.

(** [handleFileUpload] up to its [await], for an event that has a file. *)
Definition uploadStart (st : State) : State :=
  mkState (data st) true (error st) (parsedCount st) (fileStatus st).

(** The [catch] and [finally] blocks of [handleFileUpload]. *)
Definition uploadFailed (st : State) : State :=
  mkState (data st) false (Some "File parsing failed. Please check the CSV format.")
          (parsedCount st) not_found.

(** The rest of [handleFileUpload]: [text] is the text of the file, [None]
    when [file.text()] is rejected. *)
Definition uploadEnd (text : option string) (st : State) : State :=
  match text with
  | None => uploadFailed st
  | Some text =>
      match parseCSV text with
      | [] => uploadFailed st
      | parsed => mkState parsed false None (length parsed) connected
      end
  end.

(** What happens to the component: it is mounted (the effect runs), the
    response of the fetch arrives, the file input changes with or without a
    file, the text of the chosen file arrives. *)
Inductive Event :=
| mounted
| fetched (r : Response)
| chosen (file : bool)
| uploaded (text : option string).

Definition handle (st : State) (e : Event) : State :=
  match e with
  | mounted => fetchStart st
  | fetched r => fetchEnd r st
  | chosen false => st
  | chosen true => uploadStart st
  | uploaded text => uploadEnd text st
  end.

(** The state after the events [events], in any order. *)
Definition run (events : list Event) : State := fold_left handle events initial.

(** The panel with the file input is rendered:
    [data.length === 0 && !loading]. *)
Definition showsUploadPanel (st : State) : bool :=
  match data st with
  | [] => negb (loading st)
  | _ => false
  end.

(** The filters, the map, the chart and the table are rendered:
    [data.length > 0]. *)
Definition showsDashboard (st : State) : bool :=
  match data st with
  | [] => false
  | _ => true
  end.

(** Where the two asynchronous functions stand. *)
Inductive Phase := starting | fetching | idle | uploading.

(** One step of a session: the effect runs once, after the first render;
    the file input can change only while the panel that holds it is
    rendered. *)
Inductive step : Phase * State -> Phase * State -> Prop :=
| step_mounted (st : State) :
    step (starting, st) (fetching, fetchStart st)
| step_fetched (r : Response) (st : State) :
    step (fetching, st) (idle, fetchEnd r st)
| step_no_file (st : State) :
    showsUploadPanel st = true -> step (idle, st) (idle, st)
| step_chosen (st : State) :
    showsUploadPanel st = true -> step (idle, st) (uploading, uploadStart st)
| step_uploaded (text : option string) (st : State) :
    step (uploading, st) (idle, uploadEnd text st).

(** The states of a session. *)
Definition reachable (s : Phase * State) : Prop := rtc step (starting, initial) s.

(** What holds after any events. *)
Definition consistent (st : State) : Prop :=
  parsedCount st = length (data st)
  /\ (fileStatus st = connected -> data st <> [])
  /\ (error st = None
      \/ error st = Some "File parsing failed. Please check the CSV format.").

(** What holds in a session. *)
Definition sessionOk (s : Phase * State) : Prop :=
  let '(ph, st) := s in
  parsedCount st = length (data st)
  /\ (fileStatus st = connected <-> data st <> [])
  /\ (loading st = true <-> ph = fetching \/ ph = uploading)
  /\ (data st <> [] -> ph = idle).

End App.

(** ** The first version of the dashboard: [TravelUSADashboard] *)

Module V1.

(** The [map] callback of the first version's selector:
    [{ ...row, displayValue: displayValue || 0, displayType }], without the
    [Number(...)] of the second version. *)
Definition withDisplay (cfg : Config) (r : Obj) : Obj :=
  <["displayType" := JStr (purposeText (selectedType cfg))]>
    (<["displayValue" := orZero (purposeCell cfg r)]> r).

Definition filteredData (data : list Obj) (cfg : Config) : list Obj :=
  sort byValueDesc
    (List.filter valuePositive
       (List.map (withDisplay cfg)
          (List.filter (passes cfg) data))).

(** The longest ExponentPart at the start of [s], as the exponent it
    denotes; 0 when there is none. *)
Definition exponentPrefix (s : string) : Z :=
  match s with
  | String c r =>
      if Str.ascii_eqb c "e" || Str.ascii_eqb c "E" then
        let '(sg, r') :=
          match r with
          | String "+" t => (false, t)
          | String "-" t => (true, t)
          | _ => (false, r)
          end in
        match Num.spanDigits 10 r' with
        | ((_ :: _) as ds, _) => if sg then - Num.valueOf 10 ds else Num.valueOf 10 ds
        | _ => 0
        end
      else 0
  | EmptyString => 0
  end.

(** The longest StrUnsignedDecimalLiteral other than [Infinity] at the start
    of [s]: the integer made of its digits and the power of ten it is scaled
    by. *)
Definition decimalPrefix (s : string) : option (Z * Z) :=
  let '(ip, r1) := Num.spanDigits 10 s in
  let '(fp, r2) :=
    match r1 with
    | String "." t => Num.spanDigits 10 t
    | _ => ([], r1)
    end in
  match ip, fp with
  | [], [] => None
  | _, _ => Some (Num.valueOf 10 (ip ++ fp), exponentPrefix r2 - Z.of_nat (length fp))
  end.

(** [parseFloat(v)] *)
Definition parseFloat (v : option JsVal) : Num.num :=
  let t := Str.trimStart (toStr v) in
  let '(sg, u) :=
    match t with
    | String "+" r => (false, r)
    | String "-" r => (true, r)
    | _ => (false, t)
    end in
  if Str.startsWith "Infinity" u then S754_infinity sg
  else match decimalPrefix u with
       | Some (m, e) => Num.ofDecimal sg m e
       | None => Num.NaN
       end.

(** The [map] callback of the first version's map subset. *)
Definition repair (r : Obj) : option Obj :=
  let lonO := parseFloat (r !! "lon_o") in
  let latO := parseFloat (r !! "lat_o") in
  let lonD := parseFloat (r !! "lon_d") in
  let latD := parseFloat (r !! "lat_d") in
  if negb (Num.isNaN lonO) && negb (Num.isNaN latO)
     && negb (Num.isNaN lonD) && negb (Num.isNaN latD)
  then Some (<["dCoords" := JPair latD lonD]> (<["oCoords" := JPair latO lonO]> r))
  else None.

Definition mapData (data : list Obj) (cfg : Config) : list Obj :=
  compact (List.map repair (take 200 (filteredData data cfg))).

End V1.

(** What is asked of an engine's [Math.pow] at the exponent 1.15: the power
    of a base in (0, 1] is a well-formed number in [0, 1]. *)
Definition powBounded (powImpl : Num.num -> Num.num -> Num.num) : Prop :=
  forall c : Num.num,
    Num.isPositive c = true -> Num.valid c = true -> Num.leb c Math.one = true ->
    nonneg (powImpl c (lit 1.15)) = true
    /\ Num.valid (powImpl c (lit 1.15)) = true
    /\ Num.leb (powImpl c (lit 1.15)) Math.one = true.

(** What is asked of an engine's [Math.pow] at the exponent 1.15: the
    power of 1 is 1, and the power of a base in (0, 1] is a well-formed
    number in [0, 1]. *)
Definition powUnit (powImpl : Num.num -> Num.num -> Num.num) : Prop :=
  powImpl Math.one (lit 1.15) = Math.one /\ powBounded powImpl.

(** The weight of a polyline, when there is one, is between [minW] and
    [maxW]. *)
Definition inRange (w : option Num.num) : Prop :=
  match w with
  | Some x => Num.leb minW x = true /\ Num.leb x maxW = true
  | None => True
  end.

(** ** Fields as they are written in a line *)

(** A field, written between double quotes ([true]) or bare ([false]). *)
Definition written (field : bool * string) : string :=
  if fst field then quoted (snd field) else snd field.

(** A field that can be written so: it holds no double quote, and no comma
    when it is bare. *)
Definition writable (field : bool * string) : bool :=
  negb (Str.has Str.dquote (snd field))
  && (fst field || negb (Str.has Str.comma (snd field))).

(** The line made of the fields, with commas between them. *)
Definition joinFields (fields : list (bool * string)) : string :=
  String.concat "," (List.map written fields).

(** The four coordinate cells of a row hold no text: each is a number, an
    empty string, or missing. *)
Definition noTextCoords (r : Obj) : Prop :=
  forall (k s : string),
    In k ["lon_o"; "lat_o"; "lon_d"; "lat_d"] -> r !! k = Some (JStr s) -> s = "".

(* ================================================================== *)
(** * Properties *)
(* ================================================================== *)

(** ** End-to-end scenario *)

(** Closed equations are checked by evaluation in the kernel's virtual
    machine. *)
Ltac by_vm :=
  lazymatch goal with |- ?l = ?r => vm_cast_no_check (@eq_refl _ r) end.

(** C1. For the header line and the single data line
    [2021,"Boston, MA","Austin, TX",42.36,71.06,30.27,97.74,100,50,150],
    with purpose total, year All and empty queries, parsing, selecting and
    repairing the top N (whichever N is chosen) gives exactly one flow
    record: the ten parsed cells, displayValue 150, displayType total,
    origin coordinates [42.36, -71.06] and destination coordinates
    [30.27, -97.74]. *)
Theorem C1_boston_austin :
  forall topN : TopN,
    mapData (parseCSV bostonAustin) noFilter topN =
    [ <["year" := JNum (lit 2021)]>
      (<["origin_name" := JStr "Boston, MA"]>
      (<["destination_name" := JStr "Austin, TX"]>
      (<["lat_o" := JNum (lit 42.36)]>
      (<["lon_o" := JNum (lit 71.06)]>
      (<["lat_d" := JNum (lit 30.27)]>
      (<["lon_d" := JNum (lit 97.74)]>
      (<["total_wt_l_all" := JNum (lit 100)]>
      (<["total_wt_b_all" := JNum (lit 50)]>
      (<["total_wt_t_all" := JNum (lit 150)]>
      (<["displayValue" := JNum (lit 150)]>
      (<["displayType" := JStr "total"]>
      (<["oCoords" := JPair (lit 42.36) (lit (-71.06))]>
      (<["dCoords" := JPair (lit 30.27) (lit (-97.74))]> ∅))))))))))))) ].
Proof. intros []; by_vm. Qed.

(** ** Strings *)

Lemma trimEnd_snoc (s : string) (c : ascii) :
  Str.isSpace c = false ->
  Str.trimEnd (s ++ String c "") = s ++ String c "".
Proof.
  intros Hc. induction s as [|a s IH]; simpl.
  - now rewrite Hc.
  - rewrite IH. destruct s; reflexivity.
Qed.

Lemma quoted_snoc (v : string) :
  quoted v = String Str.dquote v ++ String Str.dquote "".
Proof. reflexivity. Qed.

Lemma trim_quoted (v : string) : Str.trim (quoted v) = quoted v.
Proof.
  rewrite quoted_snoc. unfold Str.trim.
  change (Str.trimStart (String Str.dquote v ++ String Str.dquote ""))
    with (String Str.dquote v ++ String Str.dquote "").
  now apply trimEnd_snoc.
Qed.

Lemma lastIs_snoc (s : string) (c : ascii) :
  Str.lastIs c (s ++ String c "") = true.
Proof.
  induction s as [|a s IH]; simpl.
  - apply Ascii.eqb_refl.
  - destruct s; simpl in *; [apply Ascii.eqb_refl | exact IH].
Qed.

Lemma dropLast_snoc (s : string) (c : ascii) :
  Str.dropLast (s ++ String c "") = s.
Proof.
  induction s as [|a s IH]; simpl; [reflexivity|].
  rewrite IH. destruct s; reflexivity.
Qed.

Lemma ofString_quoted (v : string) : Num.ofString (quoted v) = Num.NaN.
Proof.
  unfold Num.ofString. rewrite trim_quoted. reflexivity.
Qed.

Lemma append_cons (x : ascii) (a b : string) :
  String x a ++ b = String x (a ++ b).
Proof. reflexivity. Qed.

Lemma append_snoc (a : string) (c : ascii) (b : string) :
  (a ++ String c "") ++ b = a ++ String c b.
Proof.
  induction a as [|x a IH]; [reflexivity|].
  rewrite !append_cons. now f_equal.
Qed.

Lemma append_empty_r (a : string) : a ++ "" = a.
Proof.
  induction a as [|x a IH]; [reflexivity|].
  rewrite append_cons. now f_equal.
Qed.

Lemma has_app (c : ascii) (a b : string) :
  Str.has c (a ++ b) = Str.has c a || Str.has c b.
Proof.
  induction a as [|x a IH]; [reflexivity|].
  rewrite append_cons. simpl. rewrite IH. now rewrite orb_assoc.
Qed.

Lemma has_trimStart (c : ascii) (s : string) :
  Str.has c s = false -> Str.has c (Str.trimStart s) = false.
Proof.
  induction s as [|x s IH]; simpl; [trivial|].
  intros H. apply orb_false_iff in H as [Hx Hs].
  destruct (Str.isSpace x); [auto | simpl; now rewrite Hx, Hs].
Qed.

Lemma has_trimEnd (c : ascii) (s : string) :
  Str.has c s = false -> Str.has c (Str.trimEnd s) = false.
Proof.
  induction s as [|x s IH]; simpl; [trivial|].
  intros H. apply orb_false_iff in H as [Hx Hs].
  specialize (IH Hs).
  destruct (Str.trimEnd s) as [|y t].
  - destruct (Str.isSpace x); simpl; [reflexivity | now rewrite Hx].
  - simpl in *. now rewrite Hx, IH.
Qed.

Lemma has_trim (c : ascii) (s : string) :
  Str.has c s = false -> Str.has c (Str.trim s) = false.
Proof. intros H. apply has_trimEnd, has_trimStart, H. Qed.

Lemma startsWith_DQ_has (s : string) :
  Str.startsWith Str.DQ s = true -> Str.has Str.dquote s = true.
Proof.
  destruct s as [|x s]; simpl; [discriminate|].
  unfold Str.ascii_eqb. rewrite (Ascii.eqb_sym x).
  intros H. apply andb_true_iff in H as [H _]. now rewrite H.
Qed.

(** ** The parser and double quotes *)

(** On a field without a double quote the last statement of the coercion
    does nothing. *)
Lemma coerce_quote_free (s : string) :
  Str.has Str.dquote s = false ->
  coerce s = coerceNoStrip s /\ quoteFree (coerce s).
Proof.
  intros H. pose proof (has_trim _ _ H) as Ht.
  unfold coerce, coerceNoStrip.
  destruct (negb (Num.isNaN _) && negb (Str.isEmpty _)); [split; simpl; trivial|].
  destruct (Str.startsWith Str.DQ (Str.trim s)) eqn:E.
  - apply startsWith_DQ_has in E. congruence.
  - simpl. split; [reflexivity | exact Ht].
Qed.

Section ScanInvariant.

Variable headers : list string.

Lemma setProp_quoteFree (k : string) (v : JsVal) (o : Obj) :
  quoteFree v ->
  map_Forall (fun _ v => quoteFree v) o ->
  map_Forall (fun _ v => quoteFree v) (setProp k v o).
Proof.
  intros Hv Ho. unfold setProp.
  destruct (String.eqb k "__proto__"); [exact Ho|].
  now apply map_Forall_insert_2.
Qed.

Lemma assign_ok (st : Scan) :
  scanOk st ->
  assign coerce headers st = assign coerceNoStrip headers st
  /\ map_Forall (fun _ v => quoteFree v) (assign coerce headers st).
Proof.
  intros [Hc Hr]. unfold assign.
  destruct (coerce_quote_free _ Hc) as [E Q].
  destruct (colIndex st <? length headers)%nat; [|split; [reflexivity|exact Hr]].
  rewrite <- E. split; [reflexivity|]. now apply setProp_quoteFree.
Qed.

Lemma scanChar_ok (st : Scan) (c : ascii) :
  scanOk st ->
  scanChar coerce headers st c = scanChar coerceNoStrip headers st c
  /\ scanOk (scanChar coerce headers st c).
Proof.
  intros Hst. destruct (assign_ok st Hst) as [E Q]. destruct Hst as [Hc Hr].
  unfold scanChar.
  destruct (Str.ascii_eqb c Str.dquote) eqn:Eq; [split; [reflexivity|split; assumption]|].
  destruct (Str.ascii_eqb c Str.comma && negb (inQuote st)).
  - rewrite E. split; [reflexivity|]. split; simpl; [reflexivity|]. now rewrite <- E.
  - split; [reflexivity|]. split; simpl; [|exact Hr].
    rewrite has_app, Hc. simpl. now rewrite Eq.
Qed.

Lemma scanLine_ok (line : string) (st : Scan) :
  scanOk st ->
  scanLine coerce headers st line = scanLine coerceNoStrip headers st line
  /\ scanOk (scanLine coerce headers st line).
Proof.
  revert st. induction line as [|c line IH]; intros st Hst; simpl.
  - split; [reflexivity | exact Hst].
  - destruct (scanChar_ok st c Hst) as [E Q].
    rewrite <- E. now apply IH.
Qed.

Lemma parseLine_ok (line : string) :
  parseLine coerce headers line = parseLine coerceNoStrip headers line
  /\ map_Forall (fun _ v => quoteFree v) (parseLine coerce headers line).
Proof.
  unfold parseLine.
  assert (Hs : scanOk scanStart) by (split; [reflexivity | apply map_Forall_empty]).
  destruct (scanLine_ok line scanStart Hs) as [E Q].
  rewrite <- E. now apply assign_ok.
Qed.

End ScanInvariant.

(** C10. For every input text, no cell value produced by the parser holds a
    double-quote character (the scan toggles its flag on a double quote and
    never appends it to the field buffer), and so the quote-stripping
    statement of the coercion is never reached: the parser without that
    statement returns the same rows. *)
Theorem C10_no_quote_in_cells :
  forall csvText : string,
    Forall (fun r : Obj => map_Forall (fun _ v => quoteFree v) r) (parseCSV csvText)
    /\ parseCSV csvText = parseCSVWith coerceNoStrip csvText.
Proof.
  intros csvText. unfold parseCSV, parseCSVWith.
  destruct (List.filter _ _) as [|header rest]; [split; [constructor | reflexivity]|].
  set (headers := List.map Str.trim (Str.split Str.comma header)).
  split.
  - apply List.Forall_forall. intros r Hr.
    apply in_map_iff in Hr as [line [<- _]]. apply parseLine_ok.
  - apply map_ext. intros line. apply parseLine_ok.
Qed.

(** ** Quoted fields *)

Lemma scanLine_app (f : string -> JsVal) (hs : list string) (a b : string) (st : Scan) :
  scanLine f hs st (a ++ b) = scanLine f hs (scanLine f hs st a) b.
Proof.
  revert st. induction a as [|c a IH]; intros st; [reflexivity|].
  rewrite append_cons. simpl. apply IH.
Qed.

(** Between two double quotes every character, a comma too, goes to the
    field buffer. *)
Lemma scanLine_in_quotes (f : string -> JsVal) (hs : list string) (s : string) :
  Str.has Str.dquote s = false ->
  forall st : Scan,
    inQuote st = true ->
    scanLine f hs st s = mkScan (row st) (currentVal st ++ s) true (colIndex st).
Proof.
  induction s as [|c s IH]; intros Hs st Hq.
  - simpl. rewrite append_empty_r. destruct st; simpl in *; now subst.
  - simpl in Hs. apply orb_false_iff in Hs as [Hc Hs].
    simpl. unfold scanChar. rewrite Hc, Hq, andb_false_r.
    rewrite (IH Hs); [|reflexivity]. simpl. now rewrite append_snoc.
Qed.

Lemma coerce_quoted (v : string) : coerce (quoted v) = JStr v.
Proof.
  unfold coerce. rewrite trim_quoted, ofString_quoted. simpl negb.
  rewrite andb_false_l.
  assert (Hs : Str.startsWith Str.DQ (quoted v) = true).
  { rewrite quoted_snoc, append_cons. reflexivity. }
  rewrite Hs, quoted_snoc, lastIs_snoc. simpl andb. cbv iota.
  rewrite append_cons. unfold Str.slice1m1. now rewrite dropLast_snoc.
Qed.

(** C2 (amended). The numeric check does come before the quote strip: the
    coercion applied to a text that still carries its surrounding double
    quotes returns the inner text as a string, whatever it is.  But the
    parser never hands it such a text: for a field [v] without double-quote
    characters, the cell written as [v] between double quotes gets the
    value that the coercion gives to [v] itself (for 007, the number 7). *)
Theorem C2_quoted_field :
  forall (h : string) (hs : list string) (v : string),
    Str.has Str.dquote v = false ->
    coerce (quoted v) = JStr v
    /\ parseLine coerce (h :: hs) (quoted v) = setProp h (coerce v) ∅.
Proof.
  intros h hs v Hv. split; [apply coerce_quoted|].
  unfold parseLine. rewrite quoted_snoc, append_cons. simpl scanLine.
  rewrite scanLine_app.
  change (scanChar coerce (h :: hs) scanStart Str.dquote)
    with (mkScan ∅ "" true 0).
  rewrite (scanLine_in_quotes _ _ v Hv); [|reflexivity].
  reflexivity.
Qed.

Lemma C2_quoted_field_witness :
  coerce (quoted "007") = JStr "007"
  /\ parseLine coerce ["h"] (quoted "007") = setProp "h" (coerce "007") ∅.
Proof. exact (C2_quoted_field "h" [] "007" eq_refl). Defined.

(** C2 (counterexample). The data cell written as ["007"], double quotes
    included, is parsed to the number 7, not to a string. *)
Lemma C2_quoted_007_is_number :
  parseCSV quoted007 = [ {[ "h" := JNum (lit 7) ]} ].
Proof. by_vm. Qed.

(** A comma between double quotes does not end the field. *)
Example quoted_comma_cell :
  parseCSV (csv "name,value" [quoted "A, B" ++ ",5"])
  = [ <["name" := JStr "A, B"]> (<["value" := JNum (lit 5)]> ∅) ].
Proof. by_vm. Qed.

(** ** Text filters *)

Lemma startsWith_spec (p s : string) :
  Str.startsWith p s = true <-> exists b : string, s = p ++ b.
Proof.
  revert s. induction p as [|a p IH]; intros s.
  - split; [intros _; now exists s | reflexivity].
  - destruct s as [|c s]; simpl.
    + split; [discriminate | intros [b Hb]; discriminate].
    + unfold Str.ascii_eqb. rewrite andb_true_iff, Ascii.eqb_eq, IH. split.
      * intros [-> [b ->]]. now exists b.
      * intros [b Hb]. rewrite append_cons in Hb. injection Hb as -> ->. eauto.
Qed.

Lemma includes_spec (s t : string) :
  Str.includes s t = true <-> occursIn t s.
Proof.
  unfold occursIn. induction s as [|c s IH]; simpl.
  - rewrite orb_false_r, startsWith_spec. split.
    + intros [b Hb]. now exists "", b.
    + intros [a [b Hb]]. destruct a; [now exists b | discriminate].
  - rewrite orb_true_iff, startsWith_spec, IH. split.
    + intros [[b Hb] | [a [b Hb]]].
      * now exists "", b.
      * exists (String c a), b. rewrite append_cons. now f_equal.
    + intros [a [b Hb]]. destruct a as [|x a].
      * left. now exists b.
      * right. rewrite append_cons in Hb. injection Hb as _ ->. now exists a, b.
Qed.

Lemma isEmpty_spec (s : string) : Str.isEmpty s = true <-> s = "".
Proof. destruct s; simpl; split; congruence. Qed.

Lemma nameOk_spec (query : string) (name : option JsVal) :
  nameOk query name = true <->
  query = ""
  \/ truthy name = false
  \/ occursIn (Str.toLowerCase query) (Str.toLowerCase (toStr name)).
Proof.
  unfold nameOk. rewrite <- includes_spec, <- isEmpty_spec.
  destruct (Str.isEmpty query), (truthy name), (Str.includes _ _); simpl;
    intuition congruence.
Qed.

(** C8 (amended). A row passes the origin (respectively destination) text
    filter if and only if the query is empty, or the row's origin
    (destination) name is missing or falsy (the empty string, zero), or the
    lowercased name contains the lowercased query as a substring; an empty
    query always matches.  A row passes the first filter exactly when it
    passes the year test and both text filters. *)
Theorem C8_text_filters :
  forall (cfg : Config) (r : Obj),
    (originOk cfg r = true <->
       searchOrigin cfg = ""
       \/ truthy (r !! "origin_name") = false
       \/ occursIn (Str.toLowerCase (searchOrigin cfg))
                   (Str.toLowerCase (toStr (r !! "origin_name"))))
    /\ (destOk cfg r = true <->
       searchDest cfg = ""
       \/ truthy (r !! "destination_name") = false
       \/ occursIn (Str.toLowerCase (searchDest cfg))
                   (Str.toLowerCase (toStr (r !! "destination_name"))))
    /\ passes cfg r = yearOk cfg r && originOk cfg r && destOk cfg r.
Proof.
  intros cfg r. split; [apply nameOk_spec | split; [apply nameOk_spec|]].
  unfold passes. now destruct (yearOk cfg r), (originOk cfg r), (destOk cfg r).
Qed.

(** C8 (counterexample). With the origin query [bos], a row whose origin
    cell is empty passes the origin filter and is listed, although the
    empty name does not contain the query. *)
Lemma C8_empty_name_passes :
  List.map (fun r : Obj => (r !! "origin_name", originOk (mkConfig All total "bos" "") r))
           (parseCSV namelessOrigin)
    = [(Some (JStr ""), true)]
  /\ length (filteredData (parseCSV namelessOrigin) (mkConfig All total "bos" "")) = 1%nat
  /\ Str.includes (Str.toLowerCase "") (Str.toLowerCase "bos") = false
  /\ Str.isEmpty "bos" = false.
Proof. repeat split; by_vm. Qed.

(** ** Coordinate repair *)

Lemma isFinite_fixLon (x : Num.num) : Num.isFinite (fixLon x) = Num.isFinite x.
Proof. destruct x as [s|s| |s m e]; try reflexivity; now destruct s. Qed.

Lemma fixLon_nonpos (x : Num.num) :
  Num.isFinite x = true -> Num.leb (fixLon x) Num.zero = true.
Proof. destruct x as [s|s| |s m e]; try discriminate; now destruct s. Qed.

Lemma toNum_finite_or_NaN (v : option JsVal) :
  Num.isFinite (toNum v) = true \/ toNum v = Num.NaN.
Proof. unfold toNum. destruct (Num.isFinite (Num.ofString _)) eqn:E; auto. Qed.

Lemma repair_spec (r : Obj) :
  repair r = if coordsValid r then Some (withCoords r) else None.
Proof.
  unfold repair, coordsValid. rewrite !isFinite_fixLon.
  now destruct (_ && _).
Qed.

Lemma compact_map_repair (l : list Obj) :
  compact (List.map repair l) = List.map withCoords (List.filter coordsValid l).
Proof.
  induction l as [|r l IH]; [reflexivity|].
  simpl. rewrite repair_spec. destruct (coordsValid r); simpl; now rewrite IH.
Qed.

Lemma withCoords_ok (r : Obj) : coordsValid r = true -> coordsOk (withCoords r).
Proof.
  unfold coordsValid. rewrite !andb_true_iff. intros [[[HlonO HlatO] HlonD] HlatD].
  exists (toNum (r !! "lat_o")), (fixLon (toNum (r !! "lon_o"))),
         (toNum (r !! "lat_d")), (fixLon (toNum (r !! "lon_d"))).
  rewrite !isFinite_fixLon. unfold withCoords.
  split; [rewrite lookup_insert_ne by discriminate; apply lookup_insert_eq|].
  split; [apply lookup_insert_eq|].
  repeat split; auto using fixLon_nonpos.
Qed.

(** C5 (amended). Every record emitted with coordinates carries both pairs,
    its two latitudes and two longitudes are finite numbers, and both
    longitudes, after repair, are at most zero.  (The latitudes are not
    tested against any range.) *)
Theorem C5_coordinate_invariant :
  forall (data : list Obj) (cfg : Config) (topN : TopN),
    Forall coordsOk (mapData data cfg topN).
Proof.
  intros data cfg topN. unfold mapData. rewrite compact_map_repair.
  apply List.Forall_forall. intros r Hr.
  apply in_map_iff in Hr as [r0 [<- Hr0]].
  apply filter_In in Hr0 as [_ Hv]. now apply withCoords_ok.
Qed.

(** C5 (counterexample). A row whose origin latitude cell is 95 is emitted
    with the origin coordinates [95, -71.06]: a latitude above 90. *)
Lemma C5_latitude_95_emitted :
  List.map (fun r : Obj => r !! "oCoords") (mapData (parseCSV latitude95) noFilter Top50)
    = [Some (JPair (lit 95) (lit (-71.06)))]
  /\ Num.leb (lit 95) (lit 90) = false.
Proof. split; by_vm. Qed.

(** C4 (the code at the failing input). A row whose origin longitude cell is
    empty is emitted with coordinates all the same: [toNum] reads the empty
    cell as the number 0, so its origin is [42.36, 0]. *)
Theorem C4_empty_longitude_emitted :
  List.map (fun r : Obj => (r !! "lon_o", r !! "oCoords", r !! "dCoords"))
           (mapData (parseCSV emptyLongitude) noFilter Top50)
    = [(Some (JStr ""),
        Some (JPair (lit 42.36) (lit 0)),
        Some (JPair (lit 30.27) (lit (-97.74))))].
Proof. by_vm. Qed.

(** ** Ranking does not look at the coordinate cells *)

Section SortMap.

Context {A B : Type}.
Variables (f : A -> B) (cmpA : A -> A -> Num.num) (cmpB : B -> B -> Num.num).
Hypothesis cmp_f : forall a b : A, cmpB (f a) (f b) = cmpA a b.

Lemma insertSorted_map (a : A) (l : list A) :
  insertSorted cmpB (f a) (List.map f l) = List.map f (insertSorted cmpA a l).
Proof.
  induction l as [|b l IH]; [reflexivity|].
  simpl. rewrite cmp_f. destruct (Num.gtb _ _); simpl; [now rewrite IH | reflexivity].
Qed.

Lemma sort_map (l : list A) :
  sort cmpB (List.map f l) = List.map f (sort cmpA l).
Proof.
  induction l as [|a l IH]; [reflexivity|].
  simpl. rewrite IH. apply insertSorted_map.
Qed.

End SortMap.

Lemma filter_map_comm {A B : Type} (f : A -> B) (p : A -> bool) (q : B -> bool) (l : list A) :
  (forall a : A, q (f a) = p a) ->
  List.filter q (List.map f l) = List.map f (List.filter p l).
Proof.
  intros H. induction l as [|a l IH]; [reflexivity|].
  simpl. rewrite H. destruct (p a); simpl; now rewrite IH.
Qed.

Lemma lookup_stripCoords (r : Obj) (k : string) :
  k <> "lat_o" -> k <> "lon_o" -> k <> "lat_d" -> k <> "lon_d" ->
  stripCoords r !! k = r !! k.
Proof.
  intros H1 H2 H3 H4. unfold stripCoords.
  now rewrite !lookup_delete_ne by congruence.
Qed.

Ltac strip_lookup := rewrite !lookup_stripCoords by discriminate.

Lemma passes_stripCoords (cfg : Config) (r : Obj) :
  passes cfg (stripCoords r) = passes cfg r.
Proof.
  unfold passes, yearOk, originOk, destOk. now strip_lookup.
Qed.

Lemma displayValueOf_stripCoords (cfg : Config) (r : Obj) :
  displayValueOf cfg (stripCoords r) = displayValueOf cfg r.
Proof.
  unfold displayValueOf, purposeCell.
  destruct (selectedType cfg); now strip_lookup.
Qed.

Lemma withDisplay_stripCoords (cfg : Config) (r : Obj) :
  withDisplay cfg (stripCoords r) = stripCoords (withDisplay cfg r).
Proof.
  unfold withDisplay. rewrite displayValueOf_stripCoords.
  unfold stripCoords. now rewrite !delete_insert_ne by discriminate.
Qed.

Lemma displayValue_stripCoords (r : Obj) :
  displayValue (stripCoords r) = displayValue r.
Proof. unfold displayValue. now strip_lookup. Qed.

Lemma filteredData_stripCoords (data : list Obj) (cfg : Config) :
  filteredData (List.map stripCoords data) cfg
  = List.map stripCoords (filteredData data cfg).
Proof.
  unfold filteredData.
  rewrite (filter_map_comm stripCoords (passes cfg) (passes cfg))
    by apply passes_stripCoords.
  rewrite !List.map_map.
  rewrite (List.map_ext _ _ (withDisplay_stripCoords cfg)).
  rewrite <- (List.map_map (withDisplay cfg) stripCoords).
  rewrite (filter_map_comm stripCoords valuePositive valuePositive)
    by (intros a; unfold valuePositive; now rewrite displayValue_stripCoords).
  apply sort_map. intros a b. unfold byValueDesc.
  now rewrite !displayValue_stripCoords.
Qed.

(** C9 (the code at the failing input). Three rows pass the selector and
    are ranked by their totals: Denver (300), whose destination latitude
    cell is empty, Seattle (200), whose origin longitude cell is the text
    [n/a], and Boston (100).  The row with the text is left out of the map
    subset and keeps its rank in the ranked sequence.  The row with the
    empty cell is not left out: [toNum] reads the empty cell as the number
    0, and the row is in the map subset with the destination
    [0, -80.19]. *)
Theorem C9_empty_cell_on_map :
  let rows := parseCSV emptyAndTextCells in
  List.map (fun r : Obj => (r !! "origin_name", r !! "lon_o", r !! "lat_d", r !! "displayValue"))
           (filteredData rows noFilter)
    = [(Some (JStr "Denver"), Some (JNum (lit 104.99)), Some (JStr ""), Some (JNum (lit 300)));
       (Some (JStr "Seattle"), Some (JStr "n/a"), Some (JNum (lit 41.88)), Some (JNum (lit 200)));
       (Some (JStr "Boston"), Some (JNum (lit 71.06)), Some (JNum (lit 30.27)), Some (JNum (lit 100)))]
  /\ List.map (fun r : Obj => (r !! "origin_name", r !! "oCoords", r !! "dCoords"))
              (mapData rows noFilter Top50)
    = [(Some (JStr "Denver"),
        Some (JPair (lit 39.74) (lit (-104.99))),
        Some (JPair (lit 0) (lit (-80.19))));
       (Some (JStr "Boston"),
        Some (JPair (lit 42.36) (lit (-71.06))),
        Some (JPair (lit 30.27) (lit (-97.74))))].
Proof. split; by_vm. Qed.

(** ** Binary64 facts: rounding, sign and order *)

Lemma digits2_size (p : positive) : digits2_pos p = Pos.size p.
Proof. induction p; simpl; congruence. Qed.

Lemma digits_bounds (p : positive) :
  2 ^ (Zpos (digits2_pos p) - 1) <= Zpos p < 2 ^ Zpos (digits2_pos p).
Proof.
  rewrite digits2_size.
  pose proof (Pos.size_gt p) as Hgt. pose proof (Pos.size_le p) as Hle.
  apply Pos2Z.pos_lt_pos in Hgt. apply Pos2Z.pos_le_pos in Hle.
  rewrite Pos2Z.inj_pow in Hgt, Hle.
  replace (Z.pos (Pos.size p)) with (Z.succ (Z.pos (Pos.size p) - 1)) in Hle by lia.
  rewrite Z.pow_succ_r in Hle by lia.
  change (Z.pos p~0) with (2 * Z.pos p) in Hle. lia.
Qed.

Lemma iter_xO (m d : positive) : Zpos (Pos.iter xO m d) = Zpos m * 2 ^ Zpos d.
Proof.
  induction d using Pos.peano_ind.
  - simpl. lia.
  - rewrite Pos.iter_succ, Pos2Z.inj_succ, Z.pow_succ_r by lia.
    rewrite Pos2Z.inj_xO, IHd. lia.
Qed.

Lemma shl_align_fst (m : positive) (e ez : Z) :
  ez <= e -> Zpos (fst (shl_align m e ez)) = Zpos m * 2 ^ (e - ez).
Proof.
  intros H. unfold shl_align. destruct (ez - e) as [|p|p] eqn:E; cbn [fst].
  - replace (e - ez) with 0 by lia. rewrite Z.pow_0_r. lia.
  - lia.
  - rewrite iter_xO. replace (e - ez) with (Z.pos p) by lia. reflexivity.
Qed.

Lemma shr_1_m (mrs : shr_record) :
  0 <= shr_m mrs -> shr_m (shr_1 mrs) = shr_m mrs / 2.
Proof.
  destruct mrs as [m r s]. simpl. intros H.
  destruct m as [|p|p]; [reflexivity| |lia].
  destruct p; simpl shr_m.
  - rewrite Pos2Z.inj_xI. apply Z.div_unique with 1; lia.
  - rewrite Pos2Z.inj_xO. apply Z.div_unique with 0; lia.
  - reflexivity.
Qed.

Lemma pow2_xO (n : positive) : 2 ^ Z.pos n~0 = 2 ^ Z.pos n * 2 ^ Z.pos n.
Proof. rewrite <- Z.pow_add_r by lia. f_equal. lia. Qed.

Lemma pow2_xI (n : positive) : 2 ^ Z.pos n~1 = 2 * (2 ^ Z.pos n * 2 ^ Z.pos n).
Proof.
  rewrite <- Z.pow_add_r by lia.
  replace (Z.pos n~1) with (Z.succ (Z.pos n + Z.pos n)) by lia.
  now rewrite Z.pow_succ_r by lia.
Qed.

Lemma iter_shr_m (n : positive) :
  forall mrs : shr_record,
    0 <= shr_m mrs -> shr_m (SpecFloat.iter_pos shr_1 n mrs) = shr_m mrs / 2 ^ Zpos n.
Proof.
  assert (Hnn : forall mrs, 0 <= shr_m mrs -> 0 <= shr_m (shr_1 mrs)).
  { intros mrs H. rewrite shr_1_m by exact H. apply Z.div_pos; lia. }
  induction n as [n IH|n IH|]; intros mrs H; simpl SpecFloat.iter_pos.
  - assert (H1 := Hnn _ H).
    assert (H2 : 0 <= shr_m (SpecFloat.iter_pos shr_1 n (shr_1 mrs))).
    { rewrite IH by exact H1. apply Z.div_pos; lia. }
    rewrite IH by exact H2. rewrite IH by exact H1. rewrite shr_1_m by exact H.
    rewrite !Z.div_div by lia. now rewrite pow2_xI, Z.mul_assoc.
  - assert (H2 : 0 <= shr_m (SpecFloat.iter_pos shr_1 n mrs)).
    { rewrite IH by exact H. apply Z.div_pos; lia. }
    rewrite IH by exact H2. rewrite IH by exact H.
    rewrite !Z.div_div by lia. now rewrite pow2_xO.
  - rewrite shr_1_m by exact H. reflexivity.
Qed.

Lemma shr_record_of_loc_m (m : Z) (l : location) : shr_m (shr_record_of_loc m l) = m.
Proof. destruct l as [|[]]; reflexivity. Qed.

Lemma shr_fexp_pos (m : positive) (e : Z) (l : location) :
  Num.emin <= e ->
  0 < shr_m (fst (shr_fexp Num.prec Num.emax (Zpos m) e l))
  /\ Num.emin <= snd (shr_fexp Num.prec Num.emax (Zpos m) e l).
Proof.
  intros He. unfold shr_fexp, shr.
  pose proof (digits_bounds m) as Hd.
  set (d := Z.pos (digits2_pos m)) in *.
  change (Zdigits2 (Z.pos m)) with d.
  destruct (SpecFloat.fexp Num.prec Num.emax (d + e) - e) as [|p|p] eqn:En; cbn [fst snd];
    rewrite ?shr_record_of_loc_m; try (split; [reflexivity | exact He]).
  unfold SpecFloat.fexp in En. fold Num.emin in En.
  assert (Hdp : d = Z.pos p + Num.prec) by lia.
  rewrite iter_shr_m by (rewrite shr_record_of_loc_m; lia).
  rewrite shr_record_of_loc_m. split; [|lia].
  apply Z.div_str_pos. split; [apply Z.pow_pos_nonneg; lia|].
  etransitivity; [|apply Hd].
  apply Z.pow_le_mono_r; unfold Num.prec in *; lia.
Qed.

Lemma round_nearest_even_ge (m : Z) (l : location) : m <= round_nearest_even m l.
Proof. destruct l as [|[]]; simpl; try lia. destruct (Z.even m); lia. Qed.

(** A positive integer at an exponent not below [emin] never rounds to a
    zero: the result keeps the sign it was given. *)
Lemma binary_round_aux_sign (s : bool) (m : positive) (e : Z) (l : location) :
  Num.emin <= e ->
  (exists m' e', binary_round_aux Num.prec Num.emax s (Zpos m) e l = S754_finite s m' e')
  \/ binary_round_aux Num.prec Num.emax s (Zpos m) e l = S754_infinity s.
Proof.
  intros He. unfold binary_round_aux.
  destruct (shr_fexp_pos m e l He) as [H1 H2].
  destruct (shr_fexp Num.prec Num.emax (Z.pos m) e l) as [mrs' e']. cbn [fst snd] in H1, H2.
  pose proof (round_nearest_even_ge (shr_m mrs') (loc_of_shr_record mrs')) as Hr.
  destruct (round_nearest_even (shr_m mrs') (loc_of_shr_record mrs')) as [|q|q]; try lia.
  destruct (shr_fexp_pos q e' loc_Exact H2) as [H3 _].
  destruct (shr_fexp Num.prec Num.emax (Z.pos q) e' loc_Exact) as [mrs'' e'']. cbn [fst] in H3.
  destruct (shr_m mrs'') as [|q'|q']; try lia.
  destruct (e'' <=? Num.emax - Num.prec); eauto.
Qed.

Lemma binary_round_sign (s : bool) (m : positive) (e : Z) :
  Num.emin <= e ->
  (exists m' e', binary_round Num.prec Num.emax s m e = S754_finite s m' e')
  \/ binary_round Num.prec Num.emax s m e = S754_infinity s.
Proof.
  intros He. unfold binary_round.
  destruct (shl_align m e _) as [mz ez] eqn:E.
  apply binary_round_aux_sign.
  unfold shl_align in E.
  destruct (SpecFloat.fexp Num.prec Num.emax (Z.pos (digits2_pos m) + e) - e) eqn:En;
    injection E as <- <-; try exact He.
  unfold SpecFloat.fexp. fold Num.emin. lia.
Qed.

Lemma ord_finite (m : positive) (e : Z) :
  Num.ord (S754_finite false m e) = Zpos m * 2 ^ (e - Num.emin).
Proof. reflexivity. Qed.

Lemma ord_inf : Num.ord (S754_infinity false) = 2 ^ (Num.emax - Num.emin).
Proof. reflexivity. Qed.

Lemma bounded_inv (m : positive) (e : Z) :
  bounded Num.prec Num.emax m e = true ->
  Num.emin <= e <= Num.emax - Num.prec
  /\ Zpos (digits2_pos m) <= Num.prec
  /\ (Zpos (digits2_pos m) = Num.prec \/ e = Num.emin).
Proof.
  unfold bounded, canonical_mantissa, SpecFloat.fexp. fold Num.emin.
  rewrite andb_true_iff, Z.eqb_eq, Z.leb_le. lia.
Qed.

Lemma ord_bounds (m : positive) (e : Z) :
  Num.emin <= e ->
  2 ^ (Zpos (digits2_pos m) - 1 + (e - Num.emin)) <= Num.ord (S754_finite false m e)
   < 2 ^ (Zpos (digits2_pos m) + (e - Num.emin)).
Proof.
  intros He. pose proof (digits_bounds m) as [H1 H2]. rewrite ord_finite.
  rewrite !Z.pow_add_r by lia.
  assert (0 < 2 ^ (e - Num.emin)) by (apply Z.pow_pos_nonneg; lia).
  split; [apply Z.mul_le_mono_nonneg_r | apply Z.mul_lt_mono_pos_r]; lia.
Qed.

Lemma ord_lt_exp (m1 m2 : positive) (e1 e2 : Z) :
  bounded Num.prec Num.emax m1 e1 = true -> bounded Num.prec Num.emax m2 e2 = true ->
  e1 < e2 ->
  Num.ord (S754_finite false m1 e1) < Num.ord (S754_finite false m2 e2).
Proof.
  intros B1 B2 Hlt.
  apply bounded_inv in B1 as [[? ?] [? ?]]. apply bounded_inv in B2 as [[? ?] [? ?]].
  pose proof (ord_bounds m1 e1 ltac:(lia)) as [_ Hu].
  pose proof (ord_bounds m2 e2 ltac:(lia)) as [Hl _].
  eapply Z.lt_le_trans; [exact Hu|]. etransitivity; [|exact Hl].
  apply Z.pow_le_mono_r; lia.
Qed.

Lemma ord_lt_inf (m : positive) (e : Z) :
  bounded Num.prec Num.emax m e = true ->
  Num.ord (S754_finite false m e) < Num.ord (S754_infinity false).
Proof.
  intros B. apply bounded_inv in B as [[? ?] [? ?]].
  pose proof (ord_bounds m e ltac:(lia)) as [_ Hu].
  eapply Z.lt_le_trans; [exact Hu|]. rewrite ord_inf.
  apply Z.pow_le_mono_r; lia.
Qed.

Lemma compare_cont_Eq (a b : positive) : Pos.compare_cont Eq a b = (Zpos a ?= Zpos b).
Proof. reflexivity. Qed.

(** On valid positive values, [<] is the order of the positions. *)
Lemma ltb_ord (x y : spec_float) :
  Num.isPositive x = true -> Num.valid x = true ->
  Num.isPositive y = true -> Num.valid y = true ->
  Num.ltb x y = (Num.ord x <? Num.ord y).
Proof.
  unfold Num.ltb, Num.gtb, Num.sub, Num.zero.
  destruct x as [| [|] | | [|] m1 e1], y as [| [|] | | [|] m2 e2]; try discriminate;
    intros _ Vx _ Vy; unfold Num.valid, valid_binary in *.
  - reflexivity.
  - pose proof (ord_lt_inf m2 e2 Vy). unfold SFltb. simpl SFcompare. cbv iota.
    symmetry. apply Z.ltb_ge. lia.
  - pose proof (ord_lt_inf m1 e1 Vx). unfold SFltb. simpl SFcompare. cbv iota.
    symmetry. apply Z.ltb_lt. lia.
  - unfold SFltb. simpl SFcompare.
    destruct (Z.compare_spec e1 e2) as [->|Hlt|Hgt].
    + rewrite compare_cont_Eq, !ord_finite.
      assert (0 < 2 ^ (e2 - Num.emin)).
      { apply bounded_inv in Vy. apply Z.pow_pos_nonneg; lia. }
      destruct (Z.compare_spec (Z.pos m1) (Z.pos m2)) as [E|L|G]; symmetry.
      * apply Z.ltb_ge. rewrite E. lia.
      * apply Z.ltb_lt. apply Z.mul_lt_mono_pos_r; lia.
      * apply Z.ltb_ge. apply Z.mul_le_mono_nonneg_r; lia.
    + pose proof (ord_lt_exp _ _ _ _ Vx Vy Hlt). symmetry. apply Z.ltb_lt. lia.
    + pose proof (ord_lt_exp _ _ _ _ Vy Vx Hgt). symmetry. apply Z.ltb_ge. lia.
Qed.

Lemma SFltb_zero_pos (z : spec_float) :
  SFltb (S754_zero false) z = Num.isPositive z.
Proof. destruct z as [s|[|]| |[|] m e]; reflexivity. Qed.

Lemma gtb_zero_pos (z : Num.num) : Num.gtb z Num.zero = Num.isPositive z.
Proof. apply SFltb_zero_pos. Qed.

(** The sign of a rounded difference is the sign of the exact one. *)
Lemma sub_gtb_ord (x y : spec_float) :
  Num.isPositive x = true -> Num.valid x = true ->
  Num.isPositive y = true -> Num.valid y = true ->
  Num.gtb (Num.sub y x) Num.zero = (Num.ord x <? Num.ord y).
Proof.
  unfold Num.ltb, Num.gtb, Num.sub, Num.zero.
  destruct x as [| [|] | | [|] m1 e1], y as [| [|] | | [|] m2 e2]; try discriminate;
    intros _ Vx _ Vy; unfold Num.valid, valid_binary in *.
  - reflexivity.
  - pose proof (ord_lt_inf m2 e2 Vy). simpl SFsub. symmetry. apply Z.ltb_ge. lia.
  - pose proof (ord_lt_inf m1 e1 Vx). simpl SFsub. symmetry. apply Z.ltb_lt. lia.
  - pose proof (bounded_inv _ _ Vx) as [[? ?] _].
    pose proof (bounded_inv _ _ Vy) as [[? ?] _].
    unfold SFsub. cbv zeta. unfold cond_Zopp.
    set (ez := Z.min e2 e1).
    rewrite !shl_align_fst by lia.
    assert (Ho : forall m e, ez <= e ->
               Num.ord (S754_finite false m e) = (Z.pos m * 2 ^ (e - ez)) * 2 ^ (ez - Num.emin)).
    { intros m e Hle. rewrite ord_finite, <- Z.mul_assoc, <- Z.pow_add_r by lia.
      do 2 f_equal. lia. }
    rewrite (Ho m1 e1), (Ho m2 e2) by lia.
    assert (Hp : 0 < 2 ^ (ez - Num.emin)) by (apply Z.pow_pos_nonneg; lia).
    set (M1 := Z.pos m1 * 2 ^ (e1 - ez)). set (M2 := Z.pos m2 * 2 ^ (e2 - ez)).
    rewrite SFltb_zero_pos.
    destruct (M2 - M1) as [|p|p] eqn:ED; unfold binary_normalize.
    + symmetry. apply Z.ltb_ge. apply Z.mul_le_mono_nonneg_r; lia.
    + destruct (binary_round_sign false p ez ltac:(lia)) as [[m' [e' ->]] | ->];
        symmetry; apply Z.ltb_lt; apply Z.mul_lt_mono_pos_r; lia.
    + destruct (binary_round_sign true p ez ltac:(lia)) as [[m' [e' ->]] | ->];
        symmetry; apply Z.ltb_ge; apply Z.mul_le_mono_nonneg_r; lia.
Qed.

(** ** Binary64 facts: every conversion gives a well-formed value *)

Lemma fexp_eq (x : Z) : fexp x = Z.max (x - Num.prec) Num.emin.
Proof. reflexivity. Qed.

Lemma fexp_mono (x y : Z) : x <= y -> fexp x <= fexp y.
Proof. rewrite !fexp_eq. lia. Qed.

(** The number of binary digits, from bounds. *)
Lemma digits_unique (q : positive) (k : Z) :
  2 ^ (k - 1) <= Zpos q < 2 ^ k -> Zpos (digits2_pos q) = k.
Proof.
  intros [Hl Hu]. pose proof (digits_bounds q) as [Dl Du].
  set (d := Z.pos (digits2_pos q)) in *.
  assert (0 < d) by (subst d; lia).
  assert (0 < k).
  { destruct (Z_lt_le_dec 0 k) as [|Hk]; [assumption|]. exfalso.
    destruct (Z.eq_dec k 0) as [->|]; [simpl in Hu; lia|].
    rewrite Z.pow_neg_r in Hu by lia. lia. }
  assert (d - 1 < k) by (apply (Z.pow_lt_mono_r_iff 2); lia).
  assert (k - 1 < d) by (apply (Z.pow_lt_mono_r_iff 2); lia).
  lia.
Qed.

Lemma digits_le (q : positive) (k : Z) :
  Zpos q < 2 ^ k -> Zpos (digits2_pos q) <= k.
Proof.
  intros Hu. pose proof (digits_bounds q) as [Dl _].
  set (d := Z.pos (digits2_pos q)) in *.
  destruct (Z_lt_le_dec k 0) as [Hk|Hk]; [rewrite Z.pow_neg_r in Hu by lia; lia|].
  assert (d - 1 < k) by (apply (Z.pow_lt_mono_r_iff 2); lia).
  lia.
Qed.

Lemma digits_ge (q : positive) (k : Z) :
  2 ^ (k - 1) <= Zpos q -> k <= Zpos (digits2_pos q).
Proof.
  intros Hl. pose proof (digits_bounds q) as [_ Du].
  set (d := Z.pos (digits2_pos q)) in *.
  assert (0 < d) by (subst d; lia).
  destruct (Z_lt_le_dec k 1) as [Hk|Hk]; [lia|].
  assert (k - 1 < d) by (apply (Z.pow_lt_mono_r_iff 2); lia).
  lia.
Qed.

(** What [shr_fexp] returns on a non-negative mantissa. *)
Lemma shr_fexp_spec (m e : Z) (l : location) :
  0 <= m ->
  let n := fexp (Zdigits2 m + e) - e in
  (n <= 0 -> shr_fexp Num.prec Num.emax m e l = (shr_record_of_loc m l, e))
  /\ (0 < n ->
      shr_m (fst (shr_fexp Num.prec Num.emax m e l)) = m / 2 ^ n
      /\ snd (shr_fexp Num.prec Num.emax m e l) = e + n).
Proof.
  intros Hm n. unfold shr_fexp, shr. fold n.
  destruct n as [|p|p] eqn:En; split; intros Hn; try lia; try reflexivity.
  cbn [fst snd]. split; [|reflexivity].
  rewrite iter_shr_m by (rewrite shr_record_of_loc_m; exact Hm).
  now rewrite shr_record_of_loc_m.
Qed.

Lemma round_nearest_even_le (m : Z) (l : location) : round_nearest_even m l <= m + 1.
Proof. destruct l as [|[]]; simpl; try lia. destruct (Z.even m); lia. Qed.

Lemma pow2_pos (k : Z) : 0 <= k -> 0 < 2 ^ k.
Proof. intros. apply Z.pow_pos_nonneg; lia. Qed.

Lemma pow2_split (a b : Z) : 0 <= a -> 0 <= b -> 2 ^ (a + b) = 2 ^ a * 2 ^ b.
Proof. intros. apply Z.pow_add_r; lia. Qed.

(** After the first shift the mantissa fits in [prec] bits, and it has all
    of them unless the exponent is the least one. *)
Lemma first_shift (m e : Z) (l : location) :
  0 <= m ->
  e <= fexp (Zdigits2 m + e) ->
  let r := shr_fexp Num.prec Num.emax m e l in
  0 <= shr_m (fst r) < 2 ^ Num.prec
  /\ Num.emin <= snd r
  /\ (2 ^ (Num.prec - 1) <= shr_m (fst r) \/ snd r = Num.emin).
Proof.
  intros Hm He r.
  destruct (shr_fexp_spec m e l Hm) as [H0 Hp]. fold r in H0, Hp.
  rewrite fexp_eq in *. unfold Num.emin, SpecFloat.emin, Num.prec, Num.emax in *.
  destruct m as [|q|q]; [| |lia].
  - simpl Zdigits2 in *.
    assert (En : Z.max (0 + e - 53) (3 - 1024 - 53) - e = 0 \/ 0 < Z.max (0 + e - 53) (3 - 1024 - 53) - e) by lia.
    destruct En as [En|En].
    + rewrite H0 by lia. cbn [fst snd]. rewrite shr_record_of_loc_m.
      split; [split; [lia | reflexivity]|]. lia.
    + destruct (Hp En) as [-> ->]. rewrite Z.div_0_l by (apply Z.pow_nonzero; lia).
      split; [split; [lia | reflexivity]|]. lia.
  - pose proof (digits_bounds q) as [Dl Du].
    simpl Zdigits2 in *. set (d := Z.pos (digits2_pos q)) in *.
    assert (0 < d) by (subst d; lia).
    set (n := Z.max (d + e - 53) (3 - 1024 - 53) - e) in *.
    assert (En : n = 0 \/ 0 < n) by lia.
    destruct En as [En|En].
    + rewrite H0 by lia. cbn [fst snd]. rewrite shr_record_of_loc_m.
      assert (d <= 53) by lia.
      assert (2 ^ d <= 2 ^ 53) by (apply Z.pow_le_mono_r; lia).
      split; [lia|]. split; [lia|].
      destruct (Z.eq_dec d 53) as [E53|]; [left; rewrite <- E53; exact Dl | right; lia].
    + destruct (Hp En) as [-> ->].
      assert (Hdn : d <= n + 53) by lia.
      assert (0 < 2 ^ n) by (apply pow2_pos; lia).
      split; [split|split].
      * apply Z.div_pos; lia.
      * apply Z.div_lt_upper_bound; [lia|]. rewrite <- pow2_split by lia.
        eapply Z.lt_le_trans; [exact Du|]. apply Z.pow_le_mono_r; lia.
      * lia.
      * destruct (Z.eq_dec d (n + 53)) as [E53|]; [left | right; lia].
        apply Z.div_le_lower_bound; [lia|]. rewrite <- pow2_split by lia.
        replace (n + (53 - 1)) with (d - 1) by lia. exact Dl.
Qed.

Lemma binary_round_aux_finish (s : bool) (m e : Z) (l : location) :
  binary_round_aux Num.prec Num.emax s m e l =
  let r := shr_fexp Num.prec Num.emax m e l in
  finish s (round_nearest_even (shr_m (fst r)) (loc_of_shr_record (fst r))) (snd r).
Proof.
  unfold binary_round_aux, finish. cbv zeta.
  now destruct (shr_fexp Num.prec Num.emax m e l) as [mrs' e'].
Qed.

Lemma finish_valid (s : bool) (m1 e1 : Z) :
  0 <= m1 <= 2 ^ Num.prec ->
  Num.emin <= e1 ->
  (2 ^ (Num.prec - 1) <= m1 \/ e1 = Num.emin) ->
  Num.valid (finish s m1 e1) = true.
Proof.
  intros Hm He Hn. unfold finish.
  destruct (shr_fexp_spec m1 e1 loc_Exact ltac:(lia)) as [H0 Hp].
  destruct (shr_fexp Num.prec Num.emax m1 e1 loc_Exact) as [mrs'' e''] eqn:Er.
  cbn [fst snd] in Hp.
  unfold Num.valid, valid_binary, bounded, canonical_mantissa.
  rewrite fexp_eq in *. unfold Num.emin, SpecFloat.emin, Num.prec, Num.emax in *.
  destruct m1 as [|q|q]; [| |lia].
  - simpl Zdigits2 in *. injection (H0 ltac:(lia)) as -> ->. reflexivity.
  - simpl Zdigits2 in *. set (d := Z.pos (digits2_pos q)) in *.
    destruct (Z.eq_dec (Z.pos q) (2 ^ 53)) as [Eq|Nq].
    + assert (Hd : d = 54) by (apply digits_unique; rewrite Eq; simpl; lia).
      assert (En : Z.max (d + e1 - 53) (3 - 1024 - 53) - e1 = 1) by lia.
      rewrite En in Hp. destruct (Hp ltac:(lia)) as [Hm' He'].
      rewrite Hm', Eq. subst e''.
      change (2 ^ 53 / 2 ^ 1) with (Z.pos 4503599627370496).
      destruct (e1 + 1 <=? 1024 - 53) eqn:Eb; [|reflexivity].
      rewrite Eb, andb_true_r. apply Z.eqb_eq.
      unfold SpecFloat.fexp, SpecFloat.emin.
      change (Z.pos (digits2_pos 4503599627370496)) with 53. lia.
    + assert (Hlt : Z.pos q < 2 ^ 53) by lia.
      assert (Hd : d <= 53) by (apply digits_le; exact Hlt).
      assert (Hc : Z.max (d + e1 - 53) (3 - 1024 - 53) = e1).
      { destruct Hn as [Hn|Hn]; [|lia].
        assert (53 <= d) by (apply digits_ge; exact Hn). lia. }
      injection (H0 ltac:(lia)) as -> ->. cbn [shr_m shr_record_of_loc].
      destruct (e1 <=? 1024 - 53) eqn:Eb; [|reflexivity].
      rewrite Eb, andb_true_r. apply Z.eqb_eq.
      unfold SpecFloat.fexp, SpecFloat.emin. exact Hc.
Qed.

(** Rounding a mantissa that is not over-shifted gives a valid value. *)
Lemma binary_round_aux_valid (s : bool) (m e : Z) (l : location) :
  0 <= m ->
  e <= fexp (Zdigits2 m + e) ->
  Num.valid (binary_round_aux Num.prec Num.emax s m e l) = true.
Proof.
  intros Hm He. rewrite binary_round_aux_finish. cbv zeta.
  destruct (first_shift m e l Hm He) as [[H1 H2] [H3 H4]].
  set (r := shr_fexp Num.prec Num.emax m e l) in *.
  pose proof (round_nearest_even_ge (shr_m (fst r)) (loc_of_shr_record (fst r))).
  pose proof (round_nearest_even_le (shr_m (fst r)) (loc_of_shr_record (fst r))).
  apply finish_valid; [lia | exact H3 | destruct H4; [left; lia | now right]].
Qed.

Lemma binary_round_valid (s : bool) (m : positive) (e : Z) :
  Num.valid (binary_round Num.prec Num.emax s m e) = true.
Proof.
  unfold binary_round.
  pose proof (digits_bounds m) as [Dl Du].
  set (d := Z.pos (digits2_pos m)) in *.
  assert (0 < d) by (subst d; lia).
  set (e' := fexp (d + e)).
  unfold shl_align.
  destruct (e' - e) as [|p|p] eqn:E;
    apply binary_round_aux_valid; try lia.
  - simpl Zdigits2. fold d. fold e'. lia.
  - simpl Zdigits2. fold d. fold e'. lia.
  - simpl Zdigits2.
    assert (Hd : Z.pos (digits2_pos (Pos.iter xO m p)) = d + Z.pos p).
    { apply digits_unique. rewrite iter_xO. split.
      - replace (d + Z.pos p - 1) with (d - 1 + Z.pos p) by lia.
        rewrite pow2_split by lia. apply Z.mul_le_mono_nonneg_r; [|exact Dl].
        apply Z.lt_le_incl, pow2_pos; lia.
      - rewrite pow2_split by lia. apply Z.mul_lt_mono_pos_r; [|exact Du].
        apply pow2_pos; lia. }
    rewrite Hd. replace (d + Z.pos p + e') with (d + e) by lia. fold e'. lia.
Qed.

Lemma binary_normalize_valid (z e : Z) (s : bool) :
  Num.valid (binary_normalize Num.prec Num.emax z e s) = true.
Proof. destruct z; [reflexivity | apply binary_round_valid ..]. Qed.

Lemma ofZ_valid (z : Z) : Num.valid (Num.ofZ z) = true.
Proof. apply binary_normalize_valid. Qed.

(** The quotient of two positive integers, at the exponent that the
    division picks, is not over-shifted. *)
Lemma SFdiv_core_aligned (m1 m2 : positive) (e1 e2 : Z) :
  let '(q, e', _) := SFdiv_core_binary Num.prec Num.emax (Zpos m1) e1 (Zpos m2) e2 in
  0 <= q /\ e' <= fexp (Zdigits2 q + e').
Proof.
  unfold SFdiv_core_binary. simpl Zdigits2.
  pose proof (digits_bounds m1) as [D1l D1u]. pose proof (digits_bounds m2) as [D2l D2u].
  set (d1 := Z.pos (digits2_pos m1)) in *. set (d2 := Z.pos (digits2_pos m2)) in *.
  assert (0 < d1) by (subst d1; lia). assert (0 < d2) by (subst d2; lia).
  set (delta := d1 + e1 - (d2 + e2)).
  set (e' := Z.min (fexp delta) (e1 - e2)).
  set (s := e1 - e2 - e').
  assert (Hs : 0 <= s) by lia.
  set (m' := match s with Z.pos _ => Z.shiftl (Z.pos m1) s | 0 => Z.pos m1 | Z.neg _ => 0 end).
  assert (Hm' : m' = Z.pos m1 * 2 ^ s).
  { subst m'. destruct s as [|p|p] eqn:Es; [simpl; lia | | lia].
    apply Z.shiftl_mul_pow2. lia. }
  pose proof (Z.div_eucl_eq m' (Z.pos m2) ltac:(lia)) as Hdiv.
  pose proof (Z.mod_pos_bound m' (Z.pos m2) ltac:(lia)) as Hmod.
  unfold Z.modulo in Hmod.
  assert (Hq : fst (Z.div_eucl m' (Z.pos m2)) = m' / Z.pos m2) by reflexivity.
  destruct (Z.div_eucl m' (Z.pos m2)) as [q r]. cbn [fst] in Hq.
  assert (H2s : 0 < 2 ^ s) by (apply pow2_pos; lia).
  assert (Hq0 : 0 <= q).
  { rewrite Hq. apply Z.div_pos; [rewrite Hm'|]; lia. }
  split; [exact Hq0|].
  set (t := d1 - d2 + s).
  assert (Ht : t <= Zdigits2 q).
  { destruct (Z_lt_le_dec t 1) as [Hlt|Hge].
    - destruct q; simpl; lia.
    - assert (Hlow : 2 ^ (t - 1) <= q).
      { rewrite Hq. apply Z.div_le_lower_bound; [lia|].
        rewrite Hm'. 
        apply Z.le_trans with (2 ^ d2 * 2 ^ (t - 1)).
        - apply Z.mul_le_mono_nonneg_r; [apply Z.lt_le_incl, pow2_pos|]; lia.
        - rewrite <- pow2_split by lia.
          replace (d2 + (t - 1)) with ((d1 - 1) + s) by lia.
          rewrite pow2_split by lia.
          apply Z.mul_le_mono_nonneg_r; lia. }
      destruct q as [|q|q]; [pose proof (pow2_pos (t - 1)); lia | | lia].
      simpl. apply digits_ge. exact Hlow. }
  apply Z.le_trans with (fexp delta); [lia|].
  apply fexp_mono. lia.
Qed.

Lemma SFdiv_finite_valid (s1 s2 : bool) (m1 m2 : positive) (e1 e2 : Z) :
  Num.valid (SFdiv Num.prec Num.emax (S754_finite s1 m1 e1) (S754_finite s2 m2 e2)) = true.
Proof.
  unfold SFdiv. pose proof (SFdiv_core_aligned m1 m2 e1 e2) as H.
  destruct (SFdiv_core_binary _ _ _ _ _ _) as [[q e'] l].
  destruct H as [H1 H2]. now apply binary_round_aux_valid.
Qed.

Lemma ofDecimal_valid (s : bool) (m e : Z) : Num.valid (Num.ofDecimal s m e) = true.
Proof.
  unfold Num.ofDecimal. destruct m; try reflexivity.
  destruct e; try apply binary_normalize_valid. apply SFdiv_finite_valid.
Qed.

(** Every string converts to a well-formed number. *)
Lemma ofString_valid (s : string) : Num.valid (Num.ofString s) = true.
Proof.
  unfold Num.ofString. destruct (Str.trim s) as [|c t]; [reflexivity|].
  destruct (Num.nonDecimal _) as [[z|]|]; [apply ofZ_valid | reflexivity |].
  match goal with |- context [let '(sg, u) := ?p in _] => destruct p as [sg u] end.
  destruct (String.eqb u _); [reflexivity|].
  destruct (Num.unsignedDecimal u) as [[m e]|]; [apply ofDecimal_valid | reflexivity].
Qed.

(** ** Sorting *)

Section SortFacts.

Context {A : Type}.
Variable comparefn : A -> A -> Num.num.

Lemma insertSorted_perm (a : A) (l : list A) :
  Permutation (insertSorted comparefn a l) (a :: l).
Proof.
  induction l as [|b l IH]; simpl; [reflexivity|].
  destruct (Num.gtb _ _); [|reflexivity].
  rewrite IH. apply perm_swap.
Qed.

Lemma sort_perm (l : list A) : Permutation (sort comparefn l) l.
Proof.
  induction l as [|a l IH]; simpl; [reflexivity|].
  rewrite insertSorted_perm. now constructor.
Qed.

(** The comparison function agrees, on the elements that are sorted, with
    an integer key: [comparefn a b > 0] exactly when [a] has the smaller
    key. *)
Variable key : A -> Z.
Variable good : A -> Prop.
Hypothesis comparefn_key :
  forall a b : A, good a -> good b ->
    Num.gtb (comparefn a b) Num.zero = (key a <? key b).

Lemma insertSorted_descending (a : A) (l : list A) :
  good a -> Forall good l -> descending key l -> descending key (insertSorted comparefn a l).
Proof.
  intros Ga Gl Hl. induction Hl as [|b l Hl IH Hb]; simpl.
  - repeat constructor.
  - apply Forall_cons_1 in Gl as [Gb Gl].
    rewrite comparefn_key by assumption.
    destruct (Z.ltb_spec (key a) (key b)) as [Hlt|Hge].
    + constructor; [now apply IH|].
      rewrite insertSorted_perm. constructor; [lia | exact Hb].
    + constructor; [now constructor|].
      constructor; [exact Hge|].
      eapply List.Forall_impl; [|exact Hb]. simpl. intros c Hc. lia.
Qed.

Lemma sort_good (l : list A) : Forall good l -> Forall good (sort comparefn l).
Proof. intros H. now rewrite sort_perm. Qed.

Lemma sort_descending (l : list A) : Forall good l -> descending key (sort comparefn l).
Proof.
  induction l as [|a l IH]; intros Gl; simpl; [constructor|].
  apply Forall_cons_1 in Gl as [Ga Gl].
  apply insertSorted_descending; auto using sort_good.
Qed.

(** Stability: a test that only elements of one key pass selects the same
    sequence before and after the sort. *)
Variable q : A -> bool.
Hypothesis q_key :
  forall a b : A, good a -> good b -> q a = true -> q b = true -> key a = key b.

Lemma filter_insertSorted (a : A) (l : list A) :
  good a -> Forall good l ->
  List.filter q (insertSorted comparefn a l) = List.filter q (a :: l).
Proof.
  intros Ga Gl. induction l as [|b l IH]; [reflexivity|].
  apply Forall_cons_1 in Gl as [Gb Gl]. simpl insertSorted.
  rewrite comparefn_key by assumption.
  destruct (Z.ltb_spec (key a) (key b)) as [Hlt|Hge]; [|reflexivity].
  simpl. rewrite (IH Gl). simpl.
  destruct (q a) eqn:Qa, (q b) eqn:Qb; try reflexivity.
  pose proof (q_key a b Ga Gb Qa Qb). lia.
Qed.

Lemma sort_stable (l : list A) :
  Forall good l -> List.filter q (sort comparefn l) = List.filter q l.
Proof.
  induction l as [|a l IH]; intros Gl; [reflexivity|].
  apply Forall_cons_1 in Gl as [Ga Gl]. simpl sort.
  rewrite filter_insertSorted by auto using sort_good.
  simpl. now rewrite IH.
Qed.

End SortFacts.

(** ** The selector *)

Lemma rowsValid_lookup (data : list Obj) (r : Obj) (k : string) (v : JsVal) :
  rowsValid data = true -> In r data -> r !! k = Some v -> validVal v = true.
Proof.
  unfold rowsValid. rewrite forallb_forall. intros H Hr Hk.
  specialize (H r Hr). rewrite forallb_forall in H.
  apply (H (k, v)). apply list_elem_of_In. now apply elem_of_map_to_list.
Qed.

Lemma toNumber_valid (o : option JsVal) :
  (forall v : JsVal, o = Some v -> validVal v = true) ->
  Num.valid (toNumber o) = true.
Proof.
  intros H. destruct o as [[x|s|a b]|]; simpl; try apply ofString_valid.
  - now apply (H (JNum x)).
  - reflexivity.
Qed.

Lemma displayValueOf_valid (cfg : Config) (r : Obj) :
  (forall k v, r !! k = Some v -> validVal v = true) ->
  Num.valid (displayValueOf cfg r) = true.
Proof.
  intros H. unfold displayValueOf.
  destruct (Num.truthy _); [|reflexivity].
  apply toNumber_valid. unfold purposeCell. destruct (selectedType cfg); apply H.
Qed.

Lemma displayValue_withDisplay (cfg : Config) (r : Obj) :
  displayValue (withDisplay cfg r) = displayValueOf cfg r.
Proof.
  unfold displayValue, withDisplay.
  rewrite lookup_insert_ne by discriminate. now rewrite lookup_insert_eq.
Qed.

Lemma valuePositive_spec (r : Obj) :
  valuePositive r = Num.isPositive (displayValue r).
Proof. apply gtb_zero_pos. Qed.

Lemma candidates_sortable (data : list Obj) (cfg : Config) :
  rowsValid data = true -> Forall sortable (candidates data cfg).
Proof.
  intros Hv. apply List.Forall_forall. intros r Hr.
  apply filter_In in Hr as [Hr Hp]. apply in_map_iff in Hr as [r0 [<- Hr0]].
  apply filter_In in Hr0 as [Hr0 _].
  split; [now rewrite <- valuePositive_spec|].
  rewrite displayValue_withDisplay. apply displayValueOf_valid.
  intros k v. now apply rowsValid_lookup with (data := data).
Qed.

Lemma candidates_In (data : list Obj) (cfg : Config) (r : Obj) :
  In r (candidates data cfg) <->
  exists r0 : Obj,
    In r0 data /\ passes cfg r0 = true
    /\ Num.gtb (displayValueOf cfg r0) Num.zero = true
    /\ r = withDisplay cfg r0.
Proof.
  unfold candidates. rewrite filter_In, in_map_iff. split.
  - intros [[r0 [<- Hr0]] Hp]. apply filter_In in Hr0 as [Hr0 Hpass].
    exists r0. unfold valuePositive in Hp. rewrite displayValue_withDisplay in Hp. auto.
  - intros [r0 [Hr0 [Hpass [Hp ->]]]]. split.
    + exists r0. split; [reflexivity|]. now apply filter_In.
    + unfold valuePositive. now rewrite displayValue_withDisplay.
Qed.

Lemma byValueDesc_ord (a b : Obj) :
  sortable a -> sortable b ->
  Num.gtb (byValueDesc a b) Num.zero
  = (Num.ord (displayValue a) <? Num.ord (displayValue b)).
Proof. intros [Pa Va] [Pb Vb]. now apply sub_gtb_ord. Qed.

Lemma eqb_positive (x v : Num.num) :
  Num.isPositive x = true -> Num.eqb x v = true -> v = x.
Proof.
  unfold Num.eqb, SFeqb.
  destruct x as [|[|]| |[|] m1 e1], v as [|[|]| |[|] m2 e2]; try discriminate; try reflexivity.
  intros _. simpl SFcompare.
  destruct (Z.compare_spec e1 e2) as [->| |]; try discriminate.
  rewrite compare_cont_Eq.
  destruct (Z.compare_spec (Z.pos m1) (Z.pos m2)) as [E| |]; try discriminate.
  injection E as ->. reflexivity.
Qed.

Lemma StronglySorted_good {A : Type} (good : A -> Prop) (R R' : A -> A -> Prop) (l : list A) :
  (forall a b : A, good a -> good b -> R a b -> R' a b) ->
  Forall good l -> StronglySorted R l -> StronglySorted R' l.
Proof.
  intros HR Gl Hl. induction Hl as [|a l Hl IH Ha]; [constructor|].
  apply Forall_cons_1 in Gl as [Ga Gl]. constructor; [now apply IH|].
  rewrite List.Forall_forall in *. intros b Hb. apply HR; auto.
Qed.

(** The selector on any rows whose numbers are well-formed. *)
Lemma filteredData_sorted_stable (data : list Obj) (cfg : Config) :
  rowsValid data = true ->
  Permutation (filteredData data cfg) (candidates data cfg)
  /\ StronglySorted
       (fun a b : Obj => Num.ltb (displayValue a) (displayValue b) = false)
       (filteredData data cfg)
  /\ forall v : Num.num,
       List.filter (fun r : Obj => Num.eqb (displayValue r) v) (filteredData data cfg)
       = List.filter (fun r : Obj => Num.eqb (displayValue r) v) (candidates data cfg).
Proof.
  intros Hv. pose proof (candidates_sortable data cfg Hv) as Hc.
  change (filteredData data cfg) with (sort byValueDesc (candidates data cfg)).
  split; [apply sort_perm|]. split.
  - apply (StronglySorted_good sortable
             (fun a b => Num.ord (displayValue b) <= Num.ord (displayValue a))).
    + intros a b [Pa Va] [Pb Vb] Hab. rewrite ltb_ord by assumption.
      apply Z.ltb_ge. exact Hab.
    + now apply sort_good.
    + apply (sort_descending byValueDesc (fun r => Num.ord (displayValue r)) sortable);
        [apply byValueDesc_ord | exact Hc].
  - intros v.
    apply (sort_stable byValueDesc (fun r => Num.ord (displayValue r)) sortable);
      [apply byValueDesc_ord | | exact Hc].
    intros a b [Pa _] [Pb _] Ea Eb.
    apply eqb_positive in Ea, Eb; try assumption. congruence.
Qed.

(** ** Every parsed cell is well-formed *)

Section Cells.

Variable fieldValue : string -> JsVal.
Variable P : JsVal -> Prop.
Hypothesis fieldValue_P : forall s : string, P (fieldValue s).
Variable headers : list string.

Lemma assign_cells (st : Scan) :
  map_Forall (fun _ v => P v) (row st) ->
  map_Forall (fun _ v => P v) (assign fieldValue headers st).
Proof.
  intros H. unfold assign, setProp.
  destruct (_ <? _)%nat; [|exact H].
  destruct (String.eqb _ _); [exact H|].
  now apply map_Forall_insert_2.
Qed.

Lemma scanLine_cells (line : string) (st : Scan) :
  map_Forall (fun _ v => P v) (row st) ->
  map_Forall (fun _ v => P v) (row (scanLine fieldValue headers st line)).
Proof.
  revert st. induction line as [|c line IH]; intros st H; [exact H|].
  simpl. apply IH. unfold scanChar.
  destruct (Str.ascii_eqb c Str.dquote); [exact H|].
  destruct (_ && _); [|exact H]. now apply assign_cells.
Qed.

Lemma parseLine_cells (line : string) :
  map_Forall (fun _ v => P v) (parseLine fieldValue headers line).
Proof. apply assign_cells, scanLine_cells, map_Forall_empty. Qed.

End Cells.

Lemma coerce_valid (s : string) : validVal (coerce s) = true.
Proof.
  unfold coerce. destruct (_ && _); [apply ofString_valid|].
  now destruct (_ && _).
Qed.

Lemma parseCSV_rowsValid (csvText : string) : rowsValid (parseCSV csvText) = true.
Proof.
  unfold rowsValid. apply forallb_forall. intros r Hr.
  apply forallb_forall. intros [k v] Hkv.
  apply list_elem_of_In, elem_of_map_to_list in Hkv.
  unfold parseCSV, parseCSVWith in Hr.
  destruct (List.filter _ _) as [|header rest]; [destruct Hr|].
  apply in_map_iff in Hr as [line [<- _]].
  exact (parseLine_cells coerce (fun v => validVal v = true) coerce_valid _ line k v Hkv).
Qed.


(** Three flows of one year, the first and the last with the total 150 and
    the second with 300: the second comes first, the two others keep the
    order of the file. *)
Example ranking_of_three_flows :
  List.map (fun r : Obj => (r !! "origin_name", r !! "displayValue"))
           (filteredData (parseCSV threeFlows) noFilter)
  = [(Some (JStr "Denver"), Some (JNum (lit 300)));
     (Some (JStr "Boston"), Some (JNum (lit 150)));
     (Some (JStr "Seattle"), Some (JNum (lit 150)))].
Proof. by_vm. Qed.

(** ** Binary64 facts: the value of a rounded result *)

Lemma finish_char (s : bool) (m1 e1 : Z) :
  0 <= m1 <= 2 ^ Num.prec ->
  Num.emin <= e1 ->
  (2 ^ (Num.prec - 1) <= m1 \/ e1 = Num.emin) ->
  (m1 = 0 /\ finish s m1 e1 = S754_zero s)
  \/ (exists (m'' : positive) (e'' : Z),
        finish s m1 e1 = S754_finite s m'' e''
        /\ Num.emin <= e'' <= e1 + 1
        /\ Zpos m'' * 2 ^ (e'' - Num.emin) = m1 * 2 ^ (e1 - Num.emin))
  \/ (0 < m1 /\ finish s m1 e1 = S754_infinity s
      /\ (Num.emax - Num.prec < e1
          \/ (m1 = 2 ^ Num.prec /\ Num.emax - Num.prec < e1 + 1))).
Proof.
  intros Hm He Hn. unfold finish.
  destruct (shr_fexp_spec m1 e1 loc_Exact ltac:(lia)) as [H0 Hp].
  destruct (shr_fexp Num.prec Num.emax m1 e1 loc_Exact) as [mrs'' e''] eqn:Er.
  cbn [fst snd] in Hp.
  rewrite fexp_eq in *. unfold Num.emin, SpecFloat.emin, Num.prec, Num.emax in *.
  destruct m1 as [|q|q]; [| |lia].
  - left. simpl Zdigits2 in *. injection (H0 ltac:(lia)) as -> ->. now split.
  - right. simpl Zdigits2 in *. set (d := Z.pos (digits2_pos q)) in *.
    destruct (Z.eq_dec (Z.pos q) (2 ^ 53)) as [Eq|Nq].
    + assert (Hd : d = 54) by (apply digits_unique; rewrite Eq; simpl; lia).
      assert (En : Z.max (d + e1 - 53) (3 - 1024 - 53) - e1 = 1) by lia.
      rewrite En in Hp. destruct (Hp ltac:(lia)) as [Hm' He'].
      rewrite Hm', Eq. subst e''.
      change (2 ^ 53 / 2 ^ 1) with (Z.pos 4503599627370496).
      destruct (e1 + 1 <=? 1024 - 53) eqn:Eb.
      * left. exists 4503599627370496%positive, (e1 + 1).
        split; [reflexivity|]. split; [lia|].
        replace (e1 + 1 - (3 - 1024 - 53)) with (Z.succ (e1 - (3 - 1024 - 53))) by lia.
        rewrite Z.pow_succ_r by lia. change (2 ^ 53) with (2 * 4503599627370496). lia.
      * right. apply Z.leb_gt in Eb. split; [lia|]. split; [reflexivity|].
        right. split; [reflexivity | lia].
    + assert (Hlt : Z.pos q < 2 ^ 53) by lia.
      assert (Hd : d <= 53) by (apply digits_le; exact Hlt).
      assert (Hc : Z.max (d + e1 - 53) (3 - 1024 - 53) = e1).
      { destruct Hn as [Hn|Hn]; [|lia].
        assert (53 <= d) by (apply digits_ge; exact Hn). lia. }
      injection (H0 ltac:(lia)) as -> ->. cbn [shr_m shr_record_of_loc].
      destruct (e1 <=? 1024 - 53) eqn:Eb.
      * left. exists q, e1. split; [reflexivity|]. split; [lia | reflexivity].
      * right. apply Z.leb_gt in Eb. split; [lia|]. split; [reflexivity|]. left. lia.
Qed.

(** The outcome of rounding [m * 2^e], for [m] not over-shifted: with [e1]
    the exponent of the result's binade, the mantissa kept is the quotient
    of [m] by [2^(e1 - e)] or the next integer. *)
Lemma binary_round_aux_char (s : bool) (m e : Z) (l : location) :
  0 <= m ->
  e <= fexp (Zdigits2 m + e) ->
  let e1 := fexp (Zdigits2 m + e) in
  let m' := m / 2 ^ (e1 - e) in
  exists m1 : Z,
    m' <= m1 <= m' + 1
    /\ 0 <= m' < 2 ^ Num.prec
    /\ Num.emin <= e1
    /\ (2 ^ (Num.prec - 1) <= m' \/ e1 = Num.emin)
    /\ binary_round_aux Num.prec Num.emax s m e l = finish s m1 e1.
Proof.
  intros Hm He e1 m'. rewrite binary_round_aux_finish. cbv zeta.
  destruct (first_shift m e l Hm He) as [H1 [H2 H3]].
  destruct (shr_fexp_spec m e l Hm) as [H0 Hp]. fold e1 in H0, Hp.
  set (r := shr_fexp Num.prec Num.emax m e l) in *.
  assert (Hr : shr_m (fst r) = m' /\ snd r = e1).
  { subst m'. destruct (Z.eq_dec (e1 - e) 0) as [E0|N0].
    - rewrite H0 by lia. cbn [fst snd]. rewrite shr_record_of_loc_m, E0.
      rewrite Z.pow_0_r, Z.div_1_r. split; [reflexivity | lia].
    - fold e1 in He. destruct (Hp ltac:(lia)) as [-> ->]. split; [reflexivity | lia]. }
  destruct Hr as [Hr1 Hr2]. rewrite Hr1, Hr2 in *.
  exists (round_nearest_even m' (loc_of_shr_record (fst r))).
  pose proof (round_nearest_even_ge m' (loc_of_shr_record (fst r))).
  pose proof (round_nearest_even_le m' (loc_of_shr_record (fst r))).
  repeat split; try lia; assumption.
Qed.

(** The same for [binary_round], in units of [2^emin]. *)
Lemma binary_round_char (s : bool) (p : positive) (e : Z) :
  Num.emin <= e ->
  let V := Zpos p * 2 ^ (e - Num.emin) in
  let e1 := fexp (Zpos (digits2_pos p) + e) in
  let m' := V / 2 ^ (e1 - Num.emin) in
  exists m1 : Z,
    m' <= m1 <= m' + 1
    /\ 0 <= m' < 2 ^ Num.prec
    /\ Num.emin <= e1
    /\ (2 ^ (Num.prec - 1) <= m' \/ e1 = Num.emin)
    /\ binary_round Num.prec Num.emax s p e = finish s m1 e1.
Proof.
  intros He V e1 m'. unfold binary_round.
  pose proof (digits_bounds p) as [Dl Du].
  set (d := Z.pos (digits2_pos p)) in *.
  assert (0 < d) by (subst d; lia).
  assert (He1 : Num.emin <= e1) by (subst e1; rewrite fexp_eq; lia).
  unfold shl_align. fold e1.
  destruct (e1 - e) as [|k|k] eqn:Ek.
  - (* no shift: e = e1 *)
    destruct (binary_round_aux_char s (Z.pos p) e loc_Exact ltac:(lia)
                ltac:(simpl Zdigits2; fold d; fold e1; lia)) as [m1 Hm1].
    simpl Zdigits2 in Hm1. fold d in Hm1. fold e1 in Hm1.
    exists m1. replace m' with (Z.pos p / 2 ^ (e1 - e)); [exact Hm1|].
    subst m' V. replace (e1 - e) with 0 by lia. replace (e1 - Num.emin) with (e - Num.emin) by lia.
    rewrite Z.pow_0_r, Z.div_1_r, Z.div_mul; [reflexivity|].
    apply Z.pow_nonzero; lia.
  - (* e < e1 *)
    destruct (binary_round_aux_char s (Z.pos p) e loc_Exact ltac:(lia)
                ltac:(simpl Zdigits2; fold d; fold e1; lia)) as [m1 Hm1].
    simpl Zdigits2 in Hm1. fold d in Hm1. fold e1 in Hm1.
    exists m1. replace m' with (Z.pos p / 2 ^ (e1 - e)); [exact Hm1|].
    subst m' V. replace (e1 - Num.emin) with ((e1 - e) + (e - Num.emin)) by lia.
    rewrite pow2_split by lia.
    rewrite Z.div_mul_cancel_r; [reflexivity | |]; apply Z.pow_nonzero; lia.
  - (* e1 < e: the mantissa is shifted left *)
    assert (Hd : Z.pos (digits2_pos (Pos.iter xO p k)) = d + Z.pos k).
    { apply digits_unique. rewrite iter_xO. split.
      - replace (d + Z.pos k - 1) with (d - 1 + Z.pos k) by lia.
        rewrite pow2_split by lia. apply Z.mul_le_mono_nonneg_r; [|exact Dl].
        apply Z.lt_le_incl, pow2_pos; lia.
      - rewrite pow2_split by lia. apply Z.mul_lt_mono_pos_r; [|exact Du].
        apply pow2_pos; lia. }
    assert (Hfe : fexp (Zdigits2 (Z.pos (Pos.iter xO p k)) + e1) = e1).
    { simpl Zdigits2. rewrite Hd. replace (d + Z.pos k + e1) with (d + e) by lia.
      reflexivity. }
    destruct (binary_round_aux_char s (Z.pos (Pos.iter xO p k)) e1 loc_Exact ltac:(lia)
                ltac:(rewrite Hfe; lia)) as [m1 Hm1].
    rewrite Hfe in Hm1.
    exists m1. replace m' with (Z.pos (Pos.iter xO p k) / 2 ^ (e1 - e1)); [exact Hm1|].
    subst m' V. rewrite Z.sub_diag, Z.pow_0_r, Z.div_1_r, iter_xO.
    replace (e - Num.emin) with (Z.pos k + (e1 - Num.emin)) by lia.
    rewrite pow2_split by lia. rewrite Z.mul_assoc, Z.div_mul; [reflexivity|].
    apply Z.pow_nonzero; lia.
Qed.

(** Rounding never goes below a representable value that the exact result
    is not below. *)
Lemma binary_round_ge (p : positive) (e : Z) (m0 : positive) (e0 : Z) :
  Num.emin <= e ->
  bounded Num.prec Num.emax m0 e0 = true ->
  Zpos m0 * 2 ^ (e0 - Num.emin) <= Zpos p * 2 ^ (e - Num.emin) ->
  Num.isPositive (binary_round Num.prec Num.emax false p e) = true
  /\ Num.ord (S754_finite false m0 e0) <= Num.ord (binary_round Num.prec Num.emax false p e).
Proof.
  intros He B HV.
  destruct (binary_round_char false p e He) as [m1 [Hm1 [Hm' [He1 [Hn Hr]]]]].
  rewrite Hr. clear Hr.
  set (V := Z.pos p * 2 ^ (e - Num.emin)) in *.
  set (e1 := fexp (Z.pos (digits2_pos p) + e)) in *.
  set (m' := V / 2 ^ (e1 - Num.emin)) in *.
  pose proof (ord_lt_inf m0 e0 B) as Hinf.
  pose proof (ord_bounds m0 e0) as Hob.
  pose proof (ord_bounds p e He) as Hpb. rewrite ord_finite in Hpb. fold V in Hpb.
  apply bounded_inv in B as [[B1 B2] [B3 B4]]. specialize (Hob B1).
  rewrite ord_finite in *.
  set (X := Z.pos m0 * 2 ^ (e0 - Num.emin)) in *.
  set (d0 := Z.pos (digits2_pos m0)) in *. set (d := Z.pos (digits2_pos p)) in *.
  assert (0 < d0) by (subst d0; lia).
  assert (Hdd : d0 + e0 <= d + e).
  { assert (d0 - 1 + (e0 - Num.emin) < d + (e - Num.emin)); [|lia].
    apply (Z.pow_lt_mono_r_iff 2); lia. }
  assert (He0 : e0 = fexp (d0 + e0)) by (rewrite fexp_eq; lia).
  assert (He01 : e0 <= e1) by (rewrite He0; apply fexp_mono; exact Hdd).
  assert (Hkey : 0 < m1 /\ X <= m1 * 2 ^ (e1 - Num.emin)).
  { destruct (Z.eq_dec e1 e0) as [Eq|Ne].
    - assert (Hm0 : Z.pos m0 <= m').
      { subst m'. rewrite Eq. apply Z.div_le_lower_bound; [apply pow2_pos; lia|].
        rewrite Z.mul_comm. exact HV. }
      split; [lia|]. rewrite Eq. subst X.
      apply Z.mul_le_mono_nonneg_r; [apply Z.lt_le_incl, pow2_pos|]; lia.
    - destruct Hn as [Hn|Hn]; [|lia].
      split; [pose proof (pow2_pos (Num.prec - 1) ltac:(unfold Num.prec; lia)); lia|].
      apply Z.le_trans with (2 ^ (Num.prec - 1) * 2 ^ (e1 - Num.emin)).
      + rewrite <- pow2_split by (unfold Num.prec; lia).
        apply Z.lt_le_incl. eapply Z.lt_le_trans; [apply Hob|].
        apply Z.pow_le_mono_r; unfold Num.prec in *; lia.
      + apply Z.mul_le_mono_nonneg_r; [apply Z.lt_le_incl, pow2_pos|]; lia. }
  destruct Hkey as [Hpos Hkey].
  destruct (finish_char false m1 e1 ltac:(lia) He1 ltac:(destruct Hn; [left; lia | now right]))
    as [[H0 _] | [[m'' [e'' [-> [_ Hval]]]] | [_ [-> _]]]].
  - lia.
  - split; [reflexivity|]. rewrite ord_finite, Hval. exact Hkey.
  - split; [reflexivity|]. lia.
Qed.

(** ** Binary64 facts: comparisons *)

Lemma SFcompare_antisym (a b : spec_float) :
  SFcompare b a = option_map CompOpp (SFcompare a b).
Proof.
  destruct a as [[|]|[|]| |[|] m1 e1], b as [[|]|[|]| |[|] m2 e2]; try reflexivity;
    simpl; rewrite (Z.compare_antisym e2 e1);
    destruct (e2 ?= e1); simpl; try reflexivity;
    rewrite !compare_cont_Eq, (Z.compare_antisym (Z.pos m2) (Z.pos m1));
    now destruct (Z.pos m2 ?= Z.pos m1).
Qed.

Lemma leb_negb_ltb (a b : Num.num) :
  Num.isNaN a = false -> Num.isNaN b = false ->
  Num.leb a b = negb (Num.ltb b a).
Proof.
  intros Ha Hb. unfold Num.leb, Num.ltb, SFleb, SFltb.
  rewrite (SFcompare_antisym a b).
  destruct (SFcompare a b) as [[| |]|] eqn:E; try reflexivity.
  destruct a as [[|]|[|]| |[|] m1 e1], b as [[|]|[|]| |[|] m2 e2]; discriminate.
Qed.

Lemma leb_true_ltb (a b : Num.num) : Num.leb a b = true -> Num.ltb b a = false.
Proof.
  unfold Num.leb, Num.ltb, SFleb, SFltb. rewrite (SFcompare_antisym a b).
  now destruct (SFcompare a b) as [[| |]|].
Qed.

Lemma leb_true_not_NaN (a b : Num.num) :
  Num.leb a b = true -> Num.isNaN a = false /\ Num.isNaN b = false.
Proof.
  destruct a as [[|]|[|]| |[|] m1 e1], b as [[|]|[|]| |[|] m2 e2]; try discriminate; auto.
Qed.

Lemma isPositive_not_NaN (x : Num.num) : Num.isPositive x = true -> Num.isNaN x = false.
Proof. destruct x as [|[|]| |[|]]; try discriminate; reflexivity. Qed.

Lemma leb_ord (x y : Num.num) :
  Num.isPositive x = true -> Num.valid x = true ->
  Num.isPositive y = true -> Num.valid y = true ->
  Num.leb x y = (Num.ord x <=? Num.ord y).
Proof.
  intros Px Vx Py Vy.
  rewrite leb_negb_ltb by now apply isPositive_not_NaN.
  rewrite (ltb_ord y x) by assumption.
  destruct (Z.ltb_spec (Num.ord y) (Num.ord x)), (Z.leb_spec (Num.ord x) (Num.ord y));
    simpl; try reflexivity; lia.
Qed.

(** A positive value at most [y] makes [y] positive. *)
Lemma leb_positive (x y : Num.num) :
  Num.isPositive x = true -> Num.leb x y = true -> Num.isPositive y = true.
Proof.
  destruct x as [|[|]| |[|] m1 e1], y as [[|]|[|]| |[|] m2 e2]; try discriminate; auto.
Qed.

(** ** Binary64 facts: sums, differences, products and quotients *)

Lemma add_ge_left (x z : Num.num) :
  Num.isPositive x = true -> Num.valid x = true ->
  nonneg z = true -> Num.valid z = true ->
  Num.isPositive (Num.add x z) = true /\ Num.ord x <= Num.ord (Num.add x z).
Proof.
  intros Px Vx Nz Vz.
  destruct x as [|[|]| |[|] m0 e0]; try discriminate;
    destruct z as [[|]|[|]| |[|] mz ez]; try discriminate;
    unfold Num.valid, valid_binary in *; try (split; [reflexivity | apply Z.le_refl]).
  - split; [reflexivity|]. pose proof (ord_lt_inf m0 e0 Vx).
    change (Num.ord (S754_finite false m0 e0) <= Num.ord (S754_infinity false)). lia.
  - unfold Num.add, SFadd. cbv zeta. unfold cond_Zopp.
    pose proof (bounded_inv _ _ Vx) as [[? ?] _].
    pose proof (bounded_inv _ _ Vz) as [[? ?] _].
    set (e := Z.min e0 ez).
    pose proof (shl_align_fst m0 e0 e ltac:(lia)) as Ha.
    pose proof (shl_align_fst mz ez e ltac:(lia)) as Hb.
    set (a := fst (shl_align m0 e0 e)) in *. set (b := fst (shl_align mz ez e)) in *.
    change (Z.pos a + Z.pos b) with (Z.pos (a + b)). unfold binary_normalize.
    apply binary_round_ge; [lia | exact Vx |].
    rewrite Pos2Z.inj_add, Ha.
    assert (Hs : 2 ^ (e0 - Num.emin) = 2 ^ (e0 - e) * 2 ^ (e - Num.emin)).
    { rewrite <- pow2_split by lia. f_equal. lia. }
    rewrite Hs.
    assert (0 < 2 ^ (e - Num.emin)) by (apply pow2_pos; lia).
    assert (0 < 2 ^ (e0 - e)) by (apply pow2_pos; lia).
    nia.
Qed.

Lemma sub_self (x : Num.num) : Num.isFinite x = true -> Num.sub x x = Num.zero.
Proof.
  destruct x as [[|]| | |s m e]; try discriminate; try reflexivity.
  intros _. unfold Num.sub, SFsub. cbv zeta. now rewrite Z.sub_diag.
Qed.

Lemma binary_round_aux_nonneg (m e : Z) (l : location) :
  0 <= m ->
  e <= fexp (Zdigits2 m + e) ->
  nonneg (binary_round_aux Num.prec Num.emax false m e l) = true.
Proof.
  intros Hm He.
  destruct (binary_round_aux_char false m e l Hm He) as [m1 [Hm1 [Hm' [He1 [Hn ->]]]]].
  destruct (finish_char false m1 (fexp (Zdigits2 m + e)) ltac:(lia) He1
              ltac:(destruct Hn; [left; lia | now right]))
    as [[_ ->] | [[m'' [e'' [-> _]]] | [_ [-> _]]]]; reflexivity.
Qed.

Lemma div_eucl_div (a b : Z) : Z.div_eucl a b = (a / b, a mod b).
Proof. unfold Z.div, Z.modulo. now destruct (Z.div_eucl a b). Qed.

(** A finite value divided by itself is exactly 1. *)
Lemma div_self (s : bool) (m : positive) (e : Z) :
  Num.div (S754_finite s m e) (S754_finite s m e) = Math.one.
Proof.
  unfold Num.div, SFdiv.
  assert (Hc : SFdiv_core_binary Num.prec Num.emax (Z.pos m) e (Z.pos m) e
               = (2 ^ 53, -53, loc_Exact)).
  { unfold SFdiv_core_binary. rewrite !Z.sub_diag.
    change (Z.min (SpecFloat.fexp Num.prec Num.emax 0) 0) with (-53).
    change (0 - -53) with 53.
    rewrite Z.shiftl_mul_pow2 by lia. rewrite div_eucl_div.
    rewrite (Z.mul_comm (Z.pos m)), Z.div_mul, Z.mod_mul by lia.
    unfold new_location. destruct (Z.even (Z.pos m)); reflexivity. }
  rewrite Hc. now destruct s.
Qed.

Lemma nonneg_cases (x : Num.num) :
  nonneg x = true -> x = Num.zero \/ Num.isPositive x = true.
Proof. destruct x as [[|]|[|]| |[|] m e]; try discriminate; auto. Qed.

(** The difference of two positive finite values, the greater first, does
    not overflow: it is positive and finite. *)
Lemma sub_pos_finite (x y : Num.num) :
  Num.isPositive x = true -> Num.valid x = true -> Num.isFinite x = true ->
  Num.isPositive y = true -> Num.valid y = true -> Num.isFinite y = true ->
  Num.ord x < Num.ord y ->
  exists (m : positive) (e : Z), Num.sub y x = S754_finite false m e.
Proof.
  destruct x as [|[|]| |[|] m1 e1], y as [|[|]| |[|] m2 e2]; try discriminate.
  intros _ Vx _ _ Vy _ Hlt. unfold Num.valid, valid_binary in *.
  pose proof (ord_bounds m2 e2) as Hob2.
  pose proof (bounded_inv _ _ Vx) as [[? ?] _].
  pose proof (bounded_inv _ _ Vy) as [[B1 B2] [B3 B4]]. specialize (Hob2 B1).
  unfold Num.sub, SFsub. cbv zeta. unfold cond_Zopp.
  set (ez := Z.min e2 e1).
  rewrite !shl_align_fst by lia.
  assert (Ho : forall m e, ez <= e ->
             Num.ord (S754_finite false m e) = (Z.pos m * 2 ^ (e - ez)) * 2 ^ (ez - Num.emin)).
  { intros m e Hle. rewrite ord_finite, <- Z.mul_assoc, <- Z.pow_add_r by lia.
    do 2 f_equal. lia. }
  rewrite (Ho m1 e1), (Ho m2 e2) in Hlt by lia.
  rewrite (Ho m2 e2) in Hob2 by lia.
  assert (Hp : 0 < 2 ^ (ez - Num.emin)) by (apply pow2_pos; lia).
  set (M1 := Z.pos m1 * 2 ^ (e1 - ez)) in *. set (M2 := Z.pos m2 * 2 ^ (e2 - ez)) in *.
  destruct (M2 - M1) as [|p|p] eqn:ED; try nia.
  unfold binary_normalize.
  destruct (binary_round_char false p ez ltac:(lia)) as [m1' [Hm1 [Hm' [He1 [Hn Hr]]]]].
  rewrite Hr.
  set (V := Z.pos p * 2 ^ (ez - Num.emin)) in *.
  set (e1' := fexp (Z.pos (digits2_pos p) + ez)) in *.
  assert (HV : V < M2 * 2 ^ (ez - Num.emin)) by (subst V; nia).
  pose proof (ord_bounds p ez ltac:(lia)) as Hpb. rewrite ord_finite in Hpb. fold V in Hpb.
  set (d2 := Z.pos (digits2_pos m2)) in *. set (dp := Z.pos (digits2_pos p)) in *.
  assert (0 < dp) by (subst dp; lia).
  assert (Hdd : dp + ez <= d2 + e2).
  { assert (dp - 1 + (ez - Num.emin) < d2 + (e2 - Num.emin)); [|lia].
    apply (Z.pow_lt_mono_r_iff 2); lia. }
  assert (He2 : e2 = fexp (d2 + e2)) by (rewrite fexp_eq; lia).
  assert (Hle : e1' <= e2) by (rewrite He2; apply fexp_mono; exact Hdd).
  assert (Hm2 : Z.pos m2 < 2 ^ Num.prec).
  { eapply Z.lt_le_trans; [apply digits_bounds|]. apply Z.pow_le_mono_r; unfold Num.prec in *; lia. }
  assert (Hsmall : e1' < e2 \/ m1' < 2 ^ Num.prec).
  { destruct (Z.eq_dec e1' e2) as [Eq|]; [right | left; lia].
    assert (V / 2 ^ (e1' - Num.emin) < Z.pos m2); [|lia].
    apply Z.div_lt_upper_bound; [apply pow2_pos; lia|].
    rewrite Eq. replace (M2 * 2 ^ (ez - Num.emin)) with (Z.pos m2 * 2 ^ (e2 - Num.emin)) in HV.
    - lia.
    - subst M2. rewrite <- Z.mul_assoc, <- pow2_split by lia. do 2 f_equal. lia. }
  destruct (finish_char false m1' e1' ltac:(lia) He1
              ltac:(destruct Hn; [left; lia | now right]))
    as [[_ Hz] | [[m'' [e'' [Hf _]]] | [_ [_ Hov]]]].
  - destruct (binary_round_sign false p ez ltac:(lia)) as [[m' [e' Hf]] | Hi];
      congruence.
  - now exists m'', e''.
  - exfalso. unfold Num.prec, Num.emax in *. lia.
Qed.

Lemma sub_nonneg (x y : Num.num) :
  Num.isPositive x = true -> Num.valid x = true -> Num.isFinite x = true ->
  Num.isPositive y = true -> Num.valid y = true ->
  Num.ord x <= Num.ord y ->
  nonneg (Num.sub y x) = true /\ Num.valid (Num.sub y x) = true.
Proof.
  destruct x as [|[|]| |[|] m1 e1], y as [|[|]| |[|] m2 e2]; try discriminate;
    intros _ Vx _ _ Vy Hle; [split; reflexivity|].
  unfold Num.valid, valid_binary in Vx, Vy.
  pose proof (bounded_inv _ _ Vx) as [[? ?] _].
  pose proof (bounded_inv _ _ Vy) as [[? ?] _].
  unfold Num.sub, SFsub. cbv zeta. unfold cond_Zopp.
  split; [|apply binary_normalize_valid].
  set (ez := Z.min e2 e1).
  rewrite !shl_align_fst by lia.
  assert (Ho : forall m e, ez <= e ->
             Num.ord (S754_finite false m e) = (Z.pos m * 2 ^ (e - ez)) * 2 ^ (ez - Num.emin)).
  { intros m e Hl. rewrite ord_finite, <- Z.mul_assoc, <- Z.pow_add_r by lia.
    do 2 f_equal. lia. }
  rewrite (Ho m1 e1), (Ho m2 e2) in Hle by lia.
  assert (Hp : 0 < 2 ^ (ez - Num.emin)) by (apply pow2_pos; lia).
  set (M1 := Z.pos m1 * 2 ^ (e1 - ez)) in *. set (M2 := Z.pos m2 * 2 ^ (e2 - ez)) in *.
  destruct (M2 - M1) as [|p|p] eqn:ED; [reflexivity | | nia].
  unfold binary_normalize.
  destruct (binary_round_sign false p ez ltac:(lia)) as [[m' [e' ->]] | ->]; reflexivity.
Qed.

Lemma mul_nonneg (t c : Num.num) :
  nonneg t = true -> Num.valid t = true ->
  Num.isPositive c = true -> Num.valid c = true -> SFclassify Num.prec c = FloatClass.PNormal ->
  nonneg (Num.mul t c) = true /\ Num.valid (Num.mul t c) = true.
Proof.
  intros Nt Vt Pc Vc Cc.
  destruct c as [|[|]| |[|] mc ec]; try discriminate.
  destruct t as [[|]|[|]| |[|] m e]; try discriminate; try (split; reflexivity).
  unfold SFclassify in Cc.
  destruct (Z.eqb_spec (Z.pos (digits2_pos mc)) Num.prec) as [Hdc|]; [|discriminate].
  unfold Num.mul, SFmul. cbn [xorb].
  pose proof (digits_bounds m) as [Dl _]. pose proof (digits_bounds mc) as [Dcl _].
  rewrite Hdc in Dcl.
  set (d := Z.pos (digits2_pos m)) in *. assert (0 < d) by (subst d; lia).
  assert (Hal : e + ec <= fexp (Zdigits2 (Z.pos (m * mc)) + (e + ec))).
  { simpl Zdigits2.
    assert (d + Num.prec - 1 <= Z.pos (digits2_pos (m * mc))).
    { apply digits_ge. rewrite Pos2Z.inj_mul.
      replace (d + Num.prec - 1 - 1) with ((d - 1) + (Num.prec - 1)) by lia.
      rewrite pow2_split by (unfold Num.prec; lia).
      apply Z.mul_le_mono_nonneg; try lia; apply Z.lt_le_incl, pow2_pos;
        unfold Num.prec; lia. }
    rewrite fexp_eq. unfold Num.prec in *. lia. }
  split; [apply binary_round_aux_nonneg | apply binary_round_aux_valid]; (lia || exact Hal).
Qed.

Lemma div_nonneg (n d : Num.num) :
  nonneg n = true -> Num.valid n = true ->
  Num.isPositive d = true -> Num.isFinite d = true ->
  nonneg (Num.div n d) = true /\ Num.valid (Num.div n d) = true.
Proof.
  intros Nn Vn Pd Fd.
  destruct d as [|[|]| |[|] md ed]; try discriminate.
  destruct n as [[|]|[|]| |[|] m e]; try discriminate; try (split; reflexivity).
  split; [|apply SFdiv_finite_valid].
  unfold Num.div, SFdiv. pose proof (SFdiv_core_aligned m md e ed) as H.
  destruct (SFdiv_core_binary _ _ _ _ _ _) as [[q e'] l].
  destruct H as [H1 H2]. now apply binary_round_aux_nonneg.
Qed.

Lemma div_zero_l (d : Num.num) :
  Num.isPositive d = true -> Num.div Num.zero d = Num.zero.
Proof. destruct d as [|[|]| |[|] md ed]; try discriminate; reflexivity. Qed.

(** ** [Math.max] and [Math.min] on the values at hand *)

Lemma max_zero_nonneg (t : Num.num) :
  nonneg t = true -> Math.max [Num.zero; t] = t.
Proof. destruct t as [[|]|[|]| |[|] m e]; try discriminate; reflexivity. Qed.

Lemma min_one_nonneg (t : Num.num) :
  nonneg t = true ->
  Math.min [Math.one; t] = if Num.ltb t Math.one then t else Math.one.
Proof. destruct t as [[|]|[|]| |[|] m e]; try discriminate; reflexivity. Qed.

(** ** Stroke weights *)

Lemma add_valid (x z : Num.num) :
  Num.valid x = true -> Num.valid z = true -> Num.valid (Num.add x z) = true.
Proof.
  intros Vx Vz.
  destruct x as [[|]|[|]| |sx mx ex], z as [[|]|[|]| |sz mz ez]; try reflexivity;
    try assumption.
  unfold Num.add, SFadd. cbv zeta. apply binary_normalize_valid.
Qed.

Lemma ltb_leb (a b : Num.num) : Num.ltb a b = true -> Num.leb a b = true.
Proof. unfold Num.ltb, Num.leb, SFltb, SFleb. now destruct (SFcompare a b) as [[| |]|]. Qed.

Lemma leb_one_finite (c : Num.num) :
  nonneg c = true -> Num.leb c Math.one = true -> Num.isFinite c = true.
Proof. destruct c as [[|]|[|]| |[|] m e]; try discriminate; reflexivity. Qed.

Lemma pow_115 (powImpl : Num.num -> Num.num -> Num.num) (c : Num.num) :
  nonneg c = true ->
  Math.pow powImpl c (lit 1.15)
  = match c with
    | S754_zero _ => Num.zero
    | S754_infinity _ => Num.Infinity
    | _ => powImpl c (lit 1.15)
    end.
Proof. destruct c as [[|]|[|]| |[|] m e]; try discriminate; reflexivity. Qed.

(** C7 (the code at the failing input). A flow whose total is written
    [Infinity] passes the selector and is drawn.  Whatever the engine's
    [Math.log1p] and [Math.pow], the logs of the subset are all
    [+Infinity], [maxLog] is [minLog + 1e-6 = +Infinity], the divisor
    [maxLog - minLog] is NaN and so is the weight. *)
Theorem C7_infinite_total :
  forall (log1pImpl : Num.num -> Num.num) (powImpl : Num.num -> Num.num -> Num.num),
    let flows := mapData (parseCSV infiniteTotal) noFilter Top50 in
    List.map valueOrZero flows = [Num.Infinity]
    /\ logRange log1pImpl flows = (Num.Infinity, Num.Infinity)
    /\ logSpan log1pImpl flows = Num.NaN
    /\ polylineWeights log1pImpl powImpl flows = [Some Num.NaN].
Proof. intros log1pImpl powImpl flows. repeat split; by_vm. Qed.

(** ** The divisor of the normalisation, away from infinite totals *)

Lemma ord_pos (x : Num.num) :
  Num.isPositive x = true -> Num.valid x = true -> 0 < Num.ord x.
Proof.
  destruct x as [|[|]| |[|] m e]; try discriminate; intros _ V.
  - rewrite ord_inf. apply pow2_pos. unfold Num.emin, SpecFloat.emin, Num.prec, Num.emax. lia.
  - unfold Num.valid, valid_binary in V. apply bounded_inv in V as [[? ?] _].
    rewrite ord_finite. apply Z.mul_pos_pos; [lia | apply pow2_pos; lia].
Qed.

(** On well-formed values that are not negative, [<] is the order of the
    positions, zero being at position 0. *)
Lemma ltb_ord_nonneg (x y : Num.num) :
  nonneg x = true -> Num.valid x = true ->
  nonneg y = true -> Num.valid y = true ->
  Num.ltb x y = (Num.ord x <? Num.ord y).
Proof.
  intros Nx Vx Ny Vy.
  destruct (nonneg_cases x Nx) as [->|Px], (nonneg_cases y Ny) as [->|Py].
  - reflexivity.
  - pose proof (ord_pos y Py Vy). change (Num.ord Num.zero) with 0.
    transitivity true; [|symmetry; apply Z.ltb_lt; lia].
    now destruct y as [|[|]| |[|] m e].
  - pose proof (ord_pos x Px Vx). change (Num.ord Num.zero) with 0.
    transitivity false; [|symmetry; apply Z.ltb_ge; lia].
    now destruct x as [|[|]| |[|] m e].
  - now apply ltb_ord.
Qed.

(** The next representable value above a positive finite one. *)
Lemma successor (m : positive) (e : Z) :
  bounded Num.prec Num.emax m e = true -> e < Num.emax - Num.prec ->
  exists (m' : positive) (e' : Z),
    bounded Num.prec Num.emax m' e' = true
    /\ Num.ord (S754_finite false m' e') = Num.ord (S754_finite false m e) + 2 ^ (e - Num.emin).
Proof.
  intros B He. pose proof (digits_bounds m) as [Dl Du].
  pose proof (bounded_inv _ _ B) as [[B1 B2] [B3 B4]].
  set (d := Z.pos (digits2_pos m)) in *.
  assert (Hm : Z.pos m < 2 ^ Num.prec).
  { eapply Z.lt_le_trans; [exact Du|]. apply Z.pow_le_mono_r; unfold Num.prec in *; lia. }
  destruct (Z.eq_dec (Z.pos m + 1) (2 ^ Num.prec)) as [Eq|Ne].
  - exists (Pos.pow 2 52), (e + 1). split.
    + unfold bounded, canonical_mantissa. apply andb_true_iff. split.
      * apply Z.eqb_eq. change (Z.pos (digits2_pos (2 ^ 52))) with 53.
        rewrite fexp_eq. unfold Num.emin, SpecFloat.emin, Num.prec, Num.emax in *. lia.
      * apply Z.leb_le. lia.
    + rewrite !ord_finite. change (Z.pos (2 ^ 52)) with (2 ^ 52).
      replace (e + 1 - Num.emin) with (Z.succ (e - Num.emin)) by lia.
      rewrite Z.pow_succ_r by lia.
      change (2 ^ Num.prec) with (2 * 2 ^ 52) in Eq. nia.
  - exists (m + 1)%positive, e. split.
    + unfold bounded, canonical_mantissa. apply andb_true_iff. split; [|apply Z.leb_le; lia].
      apply Z.eqb_eq.
      assert (Hd1 : Z.pos (digits2_pos (m + 1)) <= Num.prec)
        by (apply digits_le; rewrite Pos2Z.inj_add; lia).
      assert (Hd2 : d <= Z.pos (digits2_pos (m + 1)))
        by (apply digits_ge; rewrite Pos2Z.inj_add; fold d; lia).
      rewrite fexp_eq. unfold Num.emin, SpecFloat.emin, Num.prec, Num.emax in *. lia.
    + rewrite !ord_finite, Pos2Z.inj_add. lia.
Qed.

(** A positive value far below [2 ^ emax] is rounded to a finite value. *)
Lemma binary_round_finite (p : positive) (e : Z) :
  Num.emin <= e -> Z.pos (digits2_pos p) + e < Num.emax ->
  exists (m' : positive) (e' : Z),
    binary_round Num.prec Num.emax false p e = S754_finite false m' e'.
Proof.
  intros He Hd.
  destruct (binary_round_char false p e He) as [m1 [Hm1 [Hm' [He1 [Hn Hr]]]]].
  set (e1 := fexp (Z.pos (digits2_pos p) + e)) in *.
  assert (Hle : e1 < Num.emax - Num.prec).
  { subst e1. rewrite fexp_eq. unfold Num.emin, SpecFloat.emin, Num.prec, Num.emax in *. lia. }
  destruct (finish_char false m1 e1 ltac:(lia) He1
              ltac:(destruct Hn; [left; lia | now right]))
    as [[_ Hz] | [[m'' [e'' [Hf _]]] | [_ [_ Hov]]]].
  - destruct (binary_round_sign false p e He) as [[m' [e' Hf]] | Hi]; congruence.
  - exists m'', e''. congruence.
  - exfalso. lia.
Qed.

(** Adding a positive value that is at least one unit in the last place of
    [x] to a positive [x] gives a greater value, when both are far below
    [2 ^ emax]. *)
Lemma add_gt (m0 : positive) (e0 : Z) (mz : positive) (ez : Z) :
  bounded Num.prec Num.emax m0 e0 = true ->
  bounded Num.prec Num.emax mz ez = true ->
  2 ^ (e0 - Num.emin) <= Num.ord (S754_finite false mz ez) ->
  Z.pos (digits2_pos m0) + e0 < Num.emax - 1 ->
  Z.pos (digits2_pos mz) + ez < Num.emax - 1 ->
  exists (m : positive) (e : Z),
    Num.add (S754_finite false m0 e0) (S754_finite false mz ez) = S754_finite false m e
    /\ bounded Num.prec Num.emax m e = true
    /\ Num.ord (S754_finite false m0 e0) < Num.ord (S754_finite false m e).
Proof.
  intros B0 Bz Hulp H0 Hz.
  pose proof (bounded_inv _ _ B0) as [[A1 A2] [A3 A4]].
  pose proof (bounded_inv _ _ Bz) as [[C1 C2] [C3 C4]].
  pose proof (digits_bounds m0) as [_ Du0]. pose proof (digits_bounds mz) as [_ Duz].
  set (d0 := Z.pos (digits2_pos m0)) in *. set (dz := Z.pos (digits2_pos mz)) in *.
  assert (0 < d0) by (subst d0; lia). assert (0 < dz) by (subst dz; lia).
  unfold Num.add, SFadd. cbv zeta. unfold cond_Zopp.
  set (ec := Z.min e0 ez).
  pose proof (binary_normalize_valid
                (Z.pos (fst (shl_align m0 e0 ec)) + Z.pos (fst (shl_align mz ez ec)))
                ec false) as Hv.
  set (a := fst (shl_align m0 e0 ec)) in *. set (b := fst (shl_align mz ez ec)) in *.
  pose proof (shl_align_fst m0 e0 ec ltac:(lia)) as Ha. fold a in Ha.
  pose proof (shl_align_fst mz ez ec ltac:(lia)) as Hb. fold b in Hb.
  change (Z.pos a + Z.pos b) with (Z.pos (a + b)) in *. unfold binary_normalize in *.
  assert (Hpa : 0 < 2 ^ (e0 - ec)) by (apply pow2_pos; lia).
  assert (Hpb : 0 < 2 ^ (ez - ec)) by (apply pow2_pos; lia).
  assert (Hpc : 0 < 2 ^ (ec - Num.emin)) by (apply pow2_pos; lia).
  assert (Hsum : Z.pos (a + b) * 2 ^ (ec - Num.emin)
                 = Num.ord (S754_finite false m0 e0) + Num.ord (S754_finite false mz ez)).
  { rewrite !ord_finite, Pos2Z.inj_add, Ha, Hb.
    replace (e0 - Num.emin) with ((e0 - ec) + (ec - Num.emin)) by lia.
    replace (ez - Num.emin) with ((ez - ec) + (ec - Num.emin)) by lia.
    rewrite !pow2_split by lia. ring. }
  set (D := Z.max (d0 + (e0 - ec)) (dz + (ez - ec))).
  assert (Hdig : Z.pos (digits2_pos (a + b)) <= D + 1).
  { apply digits_le. rewrite Pos2Z.inj_add, Ha, Hb.
    assert (Z.pos m0 * 2 ^ (e0 - ec) < 2 ^ D).
    { apply Z.lt_le_trans with (2 ^ (d0 + (e0 - ec))).
      - rewrite pow2_split by lia. apply Z.mul_lt_mono_pos_r; assumption.
      - apply Z.pow_le_mono_r; lia. }
    assert (Z.pos mz * 2 ^ (ez - ec) < 2 ^ D).
    { apply Z.lt_le_trans with (2 ^ (dz + (ez - ec))).
      - rewrite pow2_split by lia. apply Z.mul_lt_mono_pos_r; assumption.
      - apply Z.pow_le_mono_r; lia. }
    rewrite Z.pow_add_r by lia. lia. }
  destruct (binary_round_finite (a + b) ec ltac:(lia) ltac:(lia)) as [m [e Hr]].
  destruct (successor m0 e0 B0
              ltac:(unfold Num.emin, SpecFloat.emin, Num.prec, Num.emax in *; lia))
    as [m' [e' [B' Hs]]].
  destruct (binary_round_ge (a + b) ec m' e' ltac:(lia) B') as [_ Hge].
  { rewrite Hsum, <- ord_finite, Hs. lia. }
  rewrite Hr in Hge, Hv |- *. exists m, e. split; [reflexivity|]. split; [exact Hv|].
  assert (0 < 2 ^ (e0 - Num.emin)) by (apply pow2_pos; lia). lia.
Qed.

(** A small log has an exponent of at most -43. *)
Lemma smallLog_inv (x : Num.num) :
  smallLog x = true ->
  nonneg x = true /\ Num.valid x = true /\ Num.ltb x (lit 1024) = true.
Proof.
  unfold smallLog. intros H. apply andb_true_iff in H as [H H3].
  apply andb_true_iff in H as [H1 H2]. auto.
Qed.

Lemma smallLog_exponent (m : positive) (e : Z) :
  smallLog (S754_finite false m e) = true ->
  bounded Num.prec Num.emax m e = true /\ Z.pos (digits2_pos m) + e <= 10.
Proof.
  intros H. apply smallLog_inv in H as [_ [V Hlt]]. unfold Num.valid, valid_binary in V. split; [exact V|].
  rewrite ltb_ord in Hlt by (try reflexivity; exact V).
  apply Z.ltb_lt in Hlt.
  pose proof (bounded_inv _ _ V) as [[B1 B2] [B3 B4]].
  pose proof (ord_bounds m e B1) as [Hb _].
  change (Num.ord (lit 1024)) with (2 ^ (10 - Num.emin)) in Hlt.
  assert (Z.pos (digits2_pos m) - 1 + (e - Num.emin) < 10 - Num.emin); [|lia].
  apply (Z.pow_lt_mono_r_iff 2); unfold Num.emin, SpecFloat.emin, Num.emax, Num.prec in *; lia.
Qed.

(** [minL + 1e-6] is above [minL]. *)
Lemma add_epsilon (x : Num.num) :
  smallLog x = true ->
  exists (m : positive) (e : Z),
    Num.add x (lit 1e-6) = S754_finite false m e
    /\ bounded Num.prec Num.emax m e = true
    /\ Num.ord x < Num.ord (S754_finite false m e).
Proof.
  intros Hx. pose proof (smallLog_inv x Hx) as [Nx [Vx Lx]].
  destruct x as [[|]|[|]| |[|] m0 e0]; try discriminate.
  - eexists _, _. split; [reflexivity|]. split; reflexivity.
  - destruct (smallLog_exponent m0 e0 Hx) as [B Hd].
    pose proof (bounded_inv _ _ B) as [[B1 B2] [B3 B4]].
    assert (He0 : e0 <= -43) by (unfold Num.emin, SpecFloat.emin, Num.emax, Num.prec in *; lia).
    change (lit 1e-6) with (S754_finite false 4722366482869645 (-72)).
    apply add_gt; try assumption; try reflexivity; [|unfold Num.emax; lia].
    pose proof (ord_bounds 4722366482869645 (-72) ltac:(unfold Num.emin, SpecFloat.emin, Num.prec, Num.emax; lia))
      as [Hl _].
    eapply Z.le_trans; [|exact Hl]. apply Z.pow_le_mono_r; [lia|].
    change (Z.pos (digits2_pos 4722366482869645)) with 53.
    unfold Num.emin, SpecFloat.emin, Num.emax, Num.prec in *. lia.
Qed.

Lemma smallLog_not_NaN (l : list Num.num) :
  forallb smallLog l = true -> existsb Num.isNaN l = false.
Proof.
  induction l as [|x l IH]; [reflexivity|]. cbn [forallb existsb].
  intros H. apply andb_true_iff in H as [Hx Hl]. rewrite (IH Hl), orb_false_r.
  apply smallLog_inv in Hx as [Nx _]. now destruct x as [[|]|[|]| |[|] m e].
Qed.

Lemma smallLog_ord (x : Num.num) : smallLog x = true -> 0 <= Num.ord x.
Proof.
  intros H. apply smallLog_inv in H as [Nx [Vx _]].
  destruct (nonneg_cases x Nx) as [->|Px]; [apply Z.le_refl|].
  pose proof (ord_pos x Px Vx). lia.
Qed.

(** The loop of [Math.min] keeps the least of the values seen. *)
Lemma min_fold (l : list Num.num) (lowest : Num.num) :
  forallb smallLog l = true -> smallLog lowest = true ->
  let r := fold_left
             (fun lowest x =>
                if (Math.isNegZero x && Math.isPosZero lowest) || Num.ltb x lowest
                then x else lowest) l lowest in
  smallLog r = true /\ Num.ord r <= Num.ord lowest.
Proof.
  revert lowest. induction l as [|x l IH]; intros lowest Hl Hlow; cbn [fold_left].
  - split; [exact Hlow | apply Z.le_refl].
  - cbn [forallb] in Hl. apply andb_true_iff in Hl as [Hx Hl].
    pose proof (smallLog_inv x Hx) as [Nx [Vx _]].
    pose proof (smallLog_inv lowest Hlow) as [Nlow [Vlow _]].
    assert (Hz : Math.isNegZero x = false) by now destruct x as [[|]|[|]| |[|] m e].
    rewrite Hz, (ltb_ord_nonneg x lowest Nx Vx Nlow Vlow). cbn [andb orb].
    destruct (Z.ltb_spec (Num.ord x) (Num.ord lowest)) as [Hlt|Hge].
    + destruct (IH x Hl Hx) as [H1 H2]. split; [exact H1 | lia].
    + exact (IH lowest Hl Hlow).
Qed.

(** The loop of [Math.max] keeps the greatest of the values seen. *)
Lemma max_fold (l : list Num.num) (highest : Num.num) :
  forallb smallLog l = true -> smallLog highest = true ->
  let r := fold_left
             (fun highest x =>
                if (Math.isPosZero x && Math.isNegZero highest) || Num.gtb x highest
                then x else highest) l highest in
  smallLog r = true /\ Num.ord highest <= Num.ord r.
Proof.
  revert highest. induction l as [|x l IH]; intros highest Hl Hhigh; cbn [fold_left].
  - split; [exact Hhigh | apply Z.le_refl].
  - cbn [forallb] in Hl. apply andb_true_iff in Hl as [Hx Hl].
    pose proof (smallLog_inv x Hx) as [Nx [Vx _]].
    pose proof (smallLog_inv highest Hhigh) as [Nhigh [Vhigh _]].
    assert (Hz : Math.isNegZero highest = false) by now destruct highest as [[|]|[|]| |[|] m e].
    change (Num.gtb x highest) with (Num.ltb highest x).
    rewrite Hz, andb_false_r, (ltb_ord_nonneg highest x Nhigh Vhigh Nx Vx). cbn [orb].
    destruct (Z.ltb_spec (Num.ord highest) (Num.ord x)) as [Hlt|Hge].
    + destruct (IH x Hl Hx) as [H1 H2]. split; [exact H1 | lia].
    + exact (IH highest Hl Hhigh).
Qed.

(** The least and the greatest of a non-empty list of small logs. *)
Lemma min_max_small (x : Num.num) (l : list Num.num) :
  forallb smallLog (x :: l) = true ->
  smallLog (Math.min (x :: l)) = true /\ smallLog (Math.max (x :: l)) = true
  /\ Num.ord (Math.min (x :: l)) <= Num.ord (Math.max (x :: l)).
Proof.
  intros H. unfold Math.min, Math.max. rewrite (smallLog_not_NaN _ H).
  cbn [forallb] in H. apply andb_true_iff in H as [Hx Hl].
  pose proof (smallLog_inv x Hx) as [Nx [Vx Lx]].
  cbn [fold_left].
  assert (H1 : (if Math.isNegZero x && Math.isPosZero (S754_infinity false)
                   || Num.ltb x (S754_infinity false)
                then x else S754_infinity false) = x)
    by now destruct x as [[|]|[|]| |[|] m e].
  assert (H2 : (if Math.isPosZero x && Math.isNegZero (S754_infinity true)
                   || Num.gtb x (S754_infinity true)
                then x else S754_infinity true) = x)
    by now destruct x as [[|]|[|]| |[|] m e].
  rewrite H1, H2.
  destruct (min_fold l x Hl Hx) as [A1 A2]. destruct (max_fold l x Hl Hx) as [B1 B2].
  cbv zeta in *. repeat split; try assumption. lia.
Qed.

(** The greater of a value that is not negative and a positive one. *)
Lemma max_pair_ord (b a : Num.num) :
  nonneg b = true -> Num.valid b = true ->
  Num.isPositive a = true -> Num.valid a = true ->
  Math.max [b; a] = if Num.ord b <? Num.ord a then a else b.
Proof.
  intros Nb Vb Pa Va.
  assert (Na : nonneg a = true) by now destruct a as [[|]|[|]| |[|] m e].
  rewrite <- (ltb_ord_nonneg b a Nb Vb Na Va).
  unfold Math.max. cbn [existsb fold_left].
  assert (E1 : Num.isNaN b = false) by now destruct b as [[|]|[|]| |[|] m e].
  rewrite E1, (isPositive_not_NaN a Pa). cbn [orb].
  assert (H2 : (if Math.isPosZero b && Math.isNegZero (S754_infinity true)
                   || Num.gtb b (S754_infinity true)
                then b else S754_infinity true) = b)
    by now destruct b as [[|]|[|]| |[|] m e].
  rewrite H2.
  assert (Hz : Math.isNegZero b = false) by now destruct b as [[|]|[|]| |[|] m e].
  rewrite Hz, andb_false_r. reflexivity.
Qed.

Lemma smallLog_finite (x : Num.num) : smallLog x = true -> Num.isFinite x = true.
Proof.
  intros H. apply smallLog_inv in H as [Nx [_ Lx]].
  now destruct x as [[|]|[|]| |[|] m e].
Qed.

Lemma sub_zero_r (m : positive) (e : Z) :
  Num.sub (S754_finite false m e) Num.zero = S754_finite false m e.
Proof. reflexivity. Qed.

(** [Math.max(maxL, minL + 1e-6) - minL] for the least and the greatest of
    a non-empty list of small logs: a positive finite number. *)
Lemma span_small (logs : list Num.num) :
  logs <> [] -> forallb smallLog logs = true ->
  let minL := Math.min logs in
  let maxL := Math.max logs in
  exists (m : positive) (e : Z),
    Num.sub (Math.max [maxL; Num.add minL (lit 1e-6)]) minL = S754_finite false m e.
Proof.
  intros Hne Hlogs minL maxL. destruct logs as [|x logs]; [congruence|].
  destruct (min_max_small _ _ Hlogs) as [Hmin [Hmax Hle]]. fold minL maxL in Hmin, Hmax, Hle.
  clearbody minL maxL.
  destruct (add_epsilon minL Hmin) as [ma [ea [-> [Ba Hlt]]]].
  pose proof (smallLog_inv _ Hmin) as [Nmin [Vmin _]].
  pose proof (smallLog_inv _ Hmax) as [Nmax [Vmax _]].
  pose proof (smallLog_finite _ Hmin) as Fmin. pose proof (smallLog_finite _ Hmax) as Fmax.
  pose proof (smallLog_ord _ Hmin) as Omin.
  rewrite (max_pair_ord maxL (S754_finite false ma ea) Nmax Vmax eq_refl Ba).
  set (maxLog := if _ <? _ then _ else _).
  assert (Hmaxlog : Num.isPositive maxLog = true /\ Num.valid maxLog = true
                    /\ Num.isFinite maxLog = true /\ Num.ord minL < Num.ord maxLog).
  { subst maxLog. destruct (Z.ltb_spec (Num.ord maxL) (Num.ord (S754_finite false ma ea))).
    - repeat split; [exact Ba | exact Hlt].
    - repeat split; try assumption; [|lia].
      destruct (nonneg_cases maxL Nmax) as [E|P]; [|exact P].
      rewrite E in *. change (Num.ord Num.zero) with 0 in *. lia. }
  destruct Hmaxlog as [P [V [F Hord]]].
  destruct (nonneg_cases minL Nmin) as [->|Pmin].
  - destruct maxLog as [|[|]| |[|] m e]; try discriminate. now exists m, e.
  - now apply sub_pos_finite.
Qed.

(** No flows: [minLog] is 0, [maxLog] is 1 and no weight is computed. *)
Example no_flows_no_weights :
  forall (log1pImpl : Num.num -> Num.num) (powImpl : Num.num -> Num.num -> Num.num),
    logRange log1pImpl [] = (Num.zero, Math.one)
    /\ logSpan log1pImpl [] = Math.one
    /\ polylineWeights log1pImpl powImpl [] = [].
Proof. intros log1pImpl powImpl. repeat split. Qed.

(** X1. Whatever the engine's [Math.log1p], if the log of every flow of the
    rendered subset is a well-formed number that is not negative and is
    below 1024, the divisor [maxLog - minLog] is a strictly positive finite
    number; this holds of the empty subset too. *)
Theorem logSpan_small (log1pImpl : Num.num -> Num.num) (flows : list Obj) :
  forallb (fun f => smallLog (logOf log1pImpl f)) flows = true ->
  exists (m : positive) (e : Z), logSpan log1pImpl flows = S754_finite false m e.
Proof.
  intros H. destruct flows as [|f flows]; [now eexists _, _|].
  unfold logSpan, logRange. apply span_small; [discriminate|].
  rewrite forallb_forall in *. intros y Hy.
  apply in_map_iff in Hy as [g [<- Hg]]. exact (H g Hg).
Qed.

Lemma logSpan_small_witness :
  exists (m : positive) (e : Z),
    logSpan tableLog1p (mapData (parseCSV tenHundredThousand) noFilter Top50)
    = S754_finite false m e.
Proof. apply (logSpan_small tableLog1p). by_vm. Defined.

(** ** Lines and line endings *)

Lemma has_cons (c a : ascii) (s : string) :
  Str.has c (String a s) = Str.ascii_eqb a c || Str.has c s.
Proof. reflexivity. Qed.

Lemma lineFree_cons (a : ascii) (s : string) :
  lineFree (String a s) = true ->
  Str.ascii_eqb a Str.LF = false /\ Str.ascii_eqb a Str.CR = false /\ lineFree s = true.
Proof.
  unfold lineFree. rewrite !has_cons, !negb_orb, !andb_true_iff, !negb_true_iff.
  intros [[H1 H2] [H3 H4]]. rewrite H1, H3, H2, H4. auto.
Qed.

Lemma splitLines_cons (a : ascii) (r : string) :
  Str.ascii_eqb a Str.LF = false -> Str.ascii_eqb a Str.CR = false ->
  Str.splitLines (String a r)
  = match Str.splitLines r with
    | l :: ls => String a l :: ls
    | [] => [String a ""]
    end.
Proof.
  intros H1 H2. cbn [Str.splitLines]. rewrite H1, H2. cbn [andb].
  destruct r as [|b r']; reflexivity.
Qed.

(** A line followed by LF, or by CR LF, is the first element of the split. *)
Lemma splitLines_line (s t : string) :
  lineFree s = true ->
  Str.splitLines (s ++ Str.NL ++ t) = s :: Str.splitLines t
  /\ Str.splitLines (s ++ String Str.CR Str.NL ++ t) = s :: Str.splitLines t
  /\ Str.splitLines s = [s].
Proof.
  induction s as [|a s IH]; intros Hs.
  - repeat split; reflexivity.
  - apply lineFree_cons in Hs as [H1 [H2 Hs]].
    destruct (IH Hs) as [IH1 [IH2 IH3]].
    rewrite !(append_cons a), !splitLines_cons by assumption.
    rewrite IH1, IH2, IH3. repeat split; reflexivity.
Qed.

Lemma concat_cons (sep x : string) (y : string) (l : list string) :
  String.concat sep (x :: y :: l) = x ++ sep ++ String.concat sep (y :: l).
Proof. reflexivity. Qed.

Lemma splitLines_concat (ls : list string) (l : string) :
  forallb lineFree (l :: ls) = true ->
  Str.splitLines (String.concat Str.NL (l :: ls)) = l :: ls
  /\ Str.splitLines (String.concat (String Str.CR Str.NL) (l :: ls)) = l :: ls.
Proof.
  revert l. induction ls as [|y ls IH]; intros l H; cbn [forallb] in H;
    apply andb_true_iff in H as [Hl H].
  - cbn [String.concat]. destruct (splitLines_line l "" Hl) as [_ [_ E]]. now rewrite E.
  - rewrite !concat_cons. destruct (IH y H) as [E1 E2].
    destruct (splitLines_line l (String.concat Str.NL (y :: ls)) Hl) as [-> _].
    destruct (splitLines_line l (String.concat (String Str.CR Str.NL) (y :: ls)) Hl) as [_ [-> _]].
    now rewrite E1, E2.
Qed.

(** X2. For a header line that is not blank and data lines, none of them
    holding a CR or an LF, the text with CR LF line ends and the text with
    LF line ends parse to the same rows: one row for each data line that is
    not blank, in the order of the text. *)
Theorem parseCSV_lines :
  forall (header : string) (lines : list string),
    forallb lineFree (header :: lines) = true ->
    nonBlank header = true ->
    let rows :=
      List.map (parseLine coerce (List.map Str.trim (Str.split Str.comma header)))
               (List.filter nonBlank lines) in
    parseCSV (csvCRLF header lines) = rows /\ parseCSV (csv header lines) = rows.
Proof.
  intros header lines H Hh rows. destruct (splitLines_concat lines header H) as [E1 E2].
  unfold parseCSV, parseCSVWith, csvCRLF, csv. rewrite E1, E2.
  cbn [List.filter]. fold (nonBlank header). rewrite Hh. split; reflexivity.
Qed.

Lemma parseCSV_lines_witness :
  let rows :=
    List.map (parseLine coerce (List.map Str.trim (Str.split Str.comma "a,b")))
             (List.filter nonBlank ["1,x"; " "; "2,y"]) in
  parseCSV (csvCRLF "a,b" ["1,x"; " "; "2,y"]) = rows
  /\ parseCSV (csv "a,b" ["1,x"; " "; "2,y"]) = rows.
Proof. apply (parseCSV_lines "a,b" ["1,x"; " "; "2,y"]); reflexivity. Defined.

(** ** The keys of a parsed row *)

Section Keys.

Variable fieldValue : string -> JsVal.
Variable headers : list string.

Lemma setProp_keys (k : string) (v : JsVal) (o : Obj) :
  In k headers -> keysOk headers o -> keysOk headers (setProp k v o).
Proof.
  intros Hk Ho k' Hk'. unfold setProp in Hk'.
  destruct (String.eqb_spec k "__proto__") as [E|E]; [now apply Ho|].
  destruct (decide (k = k')) as [<-|Hne]; [auto|].
  rewrite lookup_insert_ne in Hk' by exact Hne. now apply Ho.
Qed.

Lemma assign_keys (st : Scan) : keysOk headers (row st) -> keysOk headers (assign fieldValue headers st).
Proof.
  intros Hr. unfold assign.
  destruct (Nat.ltb_spec (colIndex st) (length headers)) as [Hlt|]; [|exact Hr].
  apply setProp_keys; [|exact Hr]. now apply nth_In.
Qed.

Lemma scanLine_keys (line : string) (st : Scan) :
  keysOk headers (row st) -> keysOk headers (row (scanLine fieldValue headers st line)).
Proof.
  revert st. induction line as [|c line IH]; intros st Hst; [exact Hst|].
  simpl. apply IH. unfold scanChar.
  destruct (Str.ascii_eqb c Str.dquote); [exact Hst|].
  destruct (Str.ascii_eqb c Str.comma && negb (inQuote st)); [|exact Hst].
  now apply assign_keys.
Qed.

Lemma parseLine_keys (line : string) : keysOk headers (parseLine fieldValue headers line).
Proof.
  apply assign_keys, scanLine_keys. intros k [v Hk].
  unfold scanStart in Hk. cbn [row] in Hk. now rewrite lookup_empty in Hk.
Qed.

End Keys.

(** X3. The keys of every parsed row are among the names of the header line
    (the first line that is not blank, split at commas, each piece trimmed),
    and no row has the key [__proto__]. *)
Theorem parseCSV_keys :
  forall (csvText header : string) (rest : list string),
    List.filter nonBlank (Str.splitLines csvText) = header :: rest ->
    Forall (keysOk (List.map Str.trim (Str.split Str.comma header))) (parseCSV csvText).
Proof.
  intros csvText header rest H. unfold parseCSV, parseCSVWith.
  change (fun line : string => negb (Str.isEmpty (Str.trim line))) with nonBlank.
  rewrite H. apply List.Forall_forall. intros r Hr.
  apply in_map_iff in Hr as [line [<- _]]. apply parseLine_keys.
Qed.

Lemma parseCSV_keys_witness :
  Forall (keysOk (List.map Str.trim (Str.split Str.comma "a, __proto__ ,b")))
         (parseCSV (csv "a, __proto__ ,b" ["1,2,3,4"])).
Proof. apply (parseCSV_keys _ "a, __proto__ ,b" ["1,2,3,4"]). reflexivity. Defined.

(** ** Cells by position *)

Section Positions.

Variable fieldValue : string -> JsVal.
Variable headers : list string.

Lemma split_cons_other (c a : ascii) (r : string) :
  Str.ascii_eqb a c = false ->
  Str.split c (String a r) = continueField (String a "") (Str.split c r).
Proof.
  intros H. cbn [Str.split]. rewrite H. now destruct (Str.split c r).
Qed.

Lemma continueField_app (cur : string) (a : ascii) (cells : list string) :
  continueField cur (continueField (String a "") cells)
  = continueField (cur ++ String a "") cells.
Proof.
  destruct cells as [|c cs]; cbn [continueField]; [reflexivity|].
  now rewrite append_snoc.
Qed.

Lemma split_nonempty (c : ascii) (s : string) : Str.split c s <> [].
Proof.
  destruct s as [|a r]; [discriminate|]. cbn [Str.split].
  destruct (Str.ascii_eqb a c); [discriminate|]. now destruct (Str.split c r).
Qed.

Lemma continueField_empty (c : ascii) (s : string) :
  continueField "" (Str.split c s) = Str.split c s.
Proof.
  pose proof (split_nonempty c s). now destruct (Str.split c s).
Qed.

(** On a line without double quotes the scan assigns the pieces that
    [split(',')] gives, in order. *)
Lemma scanLine_split (line : string) :
  Str.has Str.dquote line = false ->
  forall st : Scan,
    inQuote st = false ->
    assign fieldValue headers (scanLine fieldValue headers st line)
    = assignCells fieldValue headers (colIndex st) (row st)
        (continueField (currentVal st) (Str.split Str.comma line)).
Proof.
  induction line as [|a line IH]; intros Hq st Hst.
  - simpl. rewrite append_empty_r. unfold assign. simpl. now destruct st.
  - rewrite has_cons in Hq. apply orb_false_iff in Hq as [Ha Hq].
    cbn [scanLine]. unfold scanChar. rewrite Ha, Hst.
    destruct (Str.ascii_eqb a Str.comma) eqn:Ec; cbn [negb andb].
    + rewrite (IH Hq) by reflexivity. cbn [Str.split]. rewrite Ec.
      cbn [colIndex row currentVal continueField assignCells].
      rewrite append_empty_r.
      replace (mkScan (row st) (currentVal st) false (colIndex st)) with st
        by (destruct st; simpl in *; now subst).
      now rewrite continueField_empty.
    + rewrite (IH Hq) by reflexivity. cbn [colIndex row currentVal].
      rewrite split_cons_other by exact Ec. now rewrite continueField_app.
Qed.

Lemma lookup_nth (i : nat) :
  (i < length headers)%nat -> headers !! i = Some (nth i headers "").
Proof.
  intros Hi. destruct (lookup_lt_is_Some_2 headers i Hi) as [x Hx].
  now rewrite (nth_lookup_Some _ _ "" _ Hx).
Qed.

Hypothesis headers_NoDup : NoDup headers.
Hypothesis headers_proto : ~ In "__proto__" headers.

Lemma lookup_assignCells (cells : list string) :
  forall (i : nat) (o : Obj) (j : nat) (h : string),
    headers !! j = Some h ->
    assignCells fieldValue headers i o cells !! h
    = if (j <? i)%nat then o !! h
      else match cells !! (j - i)%nat with
           | Some c => Some (fieldValue c)
           | None => o !! h
           end.
Proof.
  induction cells as [|c cs IH]; intros i o j h Hj; cbn [assignCells].
  - now destruct (j <? i)%nat.
  - rewrite (IH _ _ j h Hj). unfold assign. cbn [colIndex currentVal row].
    assert (Hh : h <> "__proto__").
    { intros ->. apply headers_proto. apply list_elem_of_In. eapply list_elem_of_lookup_2, Hj. }
    destruct (Nat.ltb_spec j (S i)) as [Hlt|Hge].
    + destruct (Nat.ltb_spec j i) as [Hlt'|Hge'].
      * destruct (Nat.ltb_spec i (length headers)) as [Hi|]; [|reflexivity].
        unfold setProp.
        destruct (String.eqb_spec (nth i headers "") "__proto__"); [reflexivity|].
        apply lookup_insert_ne. intros E.
        assert (Hi' : headers !! i = Some h).
        { rewrite <- E. now apply lookup_nth. }
        pose proof (NoDup_lookup _ _ _ _ headers_NoDup Hi' Hj). lia.
      * assert (j = i) by lia. subst j. rewrite Nat.sub_diag. cbn [lookup list_lookup].
        assert (Hi : (i < length headers)%nat) by (eapply lookup_lt_Some, Hj).
        destruct (Nat.ltb_spec i (length headers)); [|lia].
        rewrite (nth_lookup_Some _ _ "" _ Hj). unfold setProp.
        destruct (String.eqb_spec h "__proto__"); [contradiction|].
        apply lookup_insert_eq.
    + destruct (Nat.ltb_spec j i); [lia|].
      replace (j - i)%nat with (S (j - S i)) by lia. cbn [lookup list_lookup].
      destruct (cs !! (j - S i)%nat); [reflexivity|].
      destruct (Nat.ltb_spec i (length headers)) as [Hi|]; [|reflexivity].
      unfold setProp.
      destruct (String.eqb_spec (nth i headers "") "__proto__"); [reflexivity|].
      apply lookup_insert_ne. intros E.
      assert (Hi' : headers !! i = Some h).
      { rewrite <- E. now apply lookup_nth. }
      pose proof (NoDup_lookup _ _ _ _ headers_NoDup Hi' Hj). lia.
Qed.

End Positions.

(** X4. On a data line without double quotes, and for header names that are
    all different and not [__proto__], the cell under the [i]-th header is
    the coercion of the [i]-th piece that [split(',')] gives of the line, and
    is missing when the line has no such piece. *)
Theorem parseLine_by_position :
  forall (headers : list string) (line : string) (i : nat) (h : string),
    Str.has Str.dquote line = false ->
    NoDup headers ->
    ~ In "__proto__" headers ->
    headers !! i = Some h ->
    parseLine coerce headers line !! h = coerce <$> (Str.split Str.comma line !! i).
Proof.
  intros headers line i h Hq Hnd Hp Hi. unfold parseLine.
  rewrite scanLine_split by (exact Hq || reflexivity).
  cbn [colIndex row currentVal scanStart].
  rewrite continueField_empty, (lookup_assignCells coerce headers Hnd Hp _ 0%nat ∅ i h Hi).
  rewrite Nat.sub_0_r. cbn [Nat.ltb Nat.leb].
  destruct (Str.split Str.comma line !! i); [reflexivity | apply lookup_empty].
Qed.

Lemma parseLine_by_position_witness :
  parseLine coerce ["a"; "b"; "c"] " 1 ,x" !! "b" = coerce <$> (Str.split Str.comma " 1 ,x" !! 1%nat)
  /\ parseLine coerce ["a"; "b"; "c"] " 1 ,x" !! "c" = coerce <$> (Str.split Str.comma " 1 ,x" !! 2%nat).
Proof.
  assert (Hnd : NoDup ["a"; "b"; "c"]) by (apply NoDup_ListNoDup; repeat constructor; simpl; intuition discriminate).
  assert (Hp : ~ In "__proto__" ["a"; "b"; "c"]) by (simpl; intuition discriminate).
  split.
  - exact (parseLine_by_position ["a"; "b"; "c"] " 1 ,x" 1 "b" eq_refl Hnd Hp eq_refl).
  - exact (parseLine_by_position ["a"; "b"; "c"] " 1 ,x" 2 "c" eq_refl Hnd Hp eq_refl).
Defined.

(** ** The cells of a parsed row *)

Lemma trimStart_head (s : string) :
  Str.trimStart s = ""
  \/ exists (c : ascii) (r : string), Str.trimStart s = String c r /\ Str.isSpace c = false.
Proof.
  induction s as [|a s IH]; [now left|]. cbn [Str.trimStart].
  destruct (Str.isSpace a) eqn:E; [exact IH|]. right. now exists a, s.
Qed.

Lemma trimEnd_head (c : ascii) (r : string) :
  Str.isSpace c = false -> exists r' : string, Str.trimEnd (String c r) = String c r'.
Proof.
  intros Hc. cbn [Str.trimEnd]. rewrite Hc.
  destruct (Str.trimEnd r) as [|d t]; eauto.
Qed.

Lemma trimEnd_idem (s : string) : Str.trimEnd (Str.trimEnd s) = Str.trimEnd s.
Proof.
  induction s as [|c r IH]; [reflexivity|]. cbn [Str.trimEnd].
  destruct (Str.trimEnd r) as [|d t] eqn:E.
  - destruct (Str.isSpace c) eqn:Ec; [reflexivity|]. cbn [Str.trimEnd]. now rewrite Ec.
  - change (Str.trimEnd (String c (String d t)))
      with (match Str.trimEnd (String d t) with
            | "" => if Str.isSpace c then "" else String c ""
            | r' => String c r'
            end).
    now rewrite IH.
Qed.

Lemma trim_idem (s : string) : Str.trim (Str.trim s) = Str.trim s.
Proof.
  unfold Str.trim. destruct (trimStart_head s) as [->|[c [r [-> Hc]]]]; [reflexivity|].
  destruct (trimEnd_head c r Hc) as [r' E]. rewrite E.
  cbn [Str.trimStart]. rewrite Hc, <- E. apply trimEnd_idem.
Qed.

Lemma coerce_cellOk (s : string) : Str.has Str.dquote s = false -> cellOk (coerce s).
Proof.
  intros H. destruct (coerce_quote_free s H) as [-> _]. unfold coerceNoStrip.
  destruct (Num.isNaN (Num.ofString (Str.trim s))) eqn:En; cbn [negb andb cellOk].
  - split; [apply trim_idem|]. split; [now apply has_trim | now right].
  - destruct (Str.trim s) as [|a t] eqn:Et; cbn [Str.isEmpty negb cellOk].
    + split; [reflexivity|]. split; [reflexivity | now left].
    + exact En.
Qed.

Section CellInvariant.

Variable headers : list string.

Lemma assign_cellOk (st : Scan) :
  cellsOk st -> map_Forall (fun _ v => cellOk v) (assign coerce headers st).
Proof.
  intros [Hc Hr]. unfold assign.
  destruct (colIndex st <? length headers)%nat; [|exact Hr].
  unfold setProp. destruct (String.eqb _ "__proto__"); [exact Hr|].
  apply map_Forall_insert_2; [now apply coerce_cellOk | exact Hr].
Qed.

Lemma scanLine_cellOk (line : string) (st : Scan) :
  cellsOk st -> cellsOk (scanLine coerce headers st line).
Proof.
  revert st. induction line as [|c line IH]; intros st Hst; [exact Hst|].
  cbn [scanLine]. apply IH. pose proof (assign_cellOk st Hst) as Ha.
  destruct Hst as [Hc Hr]. unfold scanChar.
  destruct (Str.ascii_eqb c Str.dquote) eqn:Eq; [split; assumption|].
  destruct (Str.ascii_eqb c Str.comma && negb (inQuote st)).
  - split; [reflexivity | exact Ha].
  - split; [|exact Hr]. cbn [currentVal]. rewrite has_app, Hc. simpl. now rewrite Eq.
Qed.

Lemma parseLine_cellOk (line : string) :
  map_Forall (fun _ v => cellOk v) (parseLine coerce headers line).
Proof.
  apply assign_cellOk, scanLine_cellOk. split; [reflexivity | apply map_Forall_empty].
Qed.

End CellInvariant.

Lemma parseCSV_cellOk (csvText : string) (r : Obj) (k : string) (v : JsVal) :
  In r (parseCSV csvText) -> r !! k = Some v -> cellOk v.
Proof.
  unfold parseCSV, parseCSVWith.
  destruct (List.filter _ _) as [|header rest]; [intros []|].
  intros Hr. apply in_map_iff in Hr as [line [<- _]]. apply parseLine_cellOk.
Qed.

(** X5. Every cell of every parsed row is a number that is not NaN, or a
    string without surrounding white space and without double quotes that
    is empty or does not read as a number: no cell is a numeric-looking
    string. *)
Theorem parseCSV_cells :
  forall csvText : string,
    Forall (fun r : Obj => map_Forall (fun _ v => cellOk v) r) (parseCSV csvText).
Proof.
  intros csvText. apply List.Forall_forall. intros r Hr k v.
  now apply parseCSV_cellOk with (csvText := csvText) (r := r).
Qed.

(** ** The longitude repair and blank coordinate cells *)

(** X6. Whatever number it is given, [fixLon] never returns a positive one;
    it keeps the magnitude, and applying it twice is applying it once. *)
Theorem fixLon_never_positive :
  forall lon : Num.num,
    Num.gtb (fixLon lon) Num.zero = false
    /\ SFabs (fixLon lon) = SFabs lon
    /\ fixLon (fixLon lon) = fixLon lon.
Proof. intros [[|]|[|]| |[|] m e]; repeat split. Qed.

Lemma removeAll_empty (c : ascii) : Str.removeAll c "" = "".
Proof. reflexivity. Qed.

Lemma toNum_blank (v : option JsVal) : blankCell v -> toNum v = Num.zero.
Proof.
  intros [->|[s [-> Hs]]]; [reflexivity|].
  unfold toNum. cbn [toStr]. now rewrite Hs.
Qed.

(** X7. A row whose four coordinate cells are missing or blank is not
    dropped from the map subset: [toNum] reads each cell as 0, and the row
    is emitted with both coordinate pairs [0, 0]. *)
Theorem repair_blank_cells :
  forall r : Obj,
    blankCell (r !! "lon_o") -> blankCell (r !! "lat_o") ->
    blankCell (r !! "lon_d") -> blankCell (r !! "lat_d") ->
    repair r
    = Some (<["dCoords" := JPair Num.zero Num.zero]>
              (<["oCoords" := JPair Num.zero Num.zero]> r)).
Proof.
  intros r H1 H2 H3 H4. unfold repair.
  now rewrite !toNum_blank by assumption.
Qed.

Lemma repair_blank_cells_witness :
  repair {[ "origin_name" := JStr "Boston"; "lat_o" := JStr "" ]}
  = Some (<["dCoords" := JPair Num.zero Num.zero]>
            (<["oCoords" := JPair Num.zero Num.zero]>
               {[ "origin_name" := JStr "Boston"; "lat_o" := JStr "" ]})).
Proof.
  apply repair_blank_cells.
  - left. reflexivity.
  - right. exists "". split; reflexivity.
  - left. reflexivity.
  - left. reflexivity.
Defined.

(** ** The map subset and the top-N selector *)

Lemma compact_app {A : Type} (l k : list (option A)) :
  compact (l ++ k)%list = (compact l ++ compact k)%list.
Proof.
  induction l as [|[a|] l IH]; simpl; [reflexivity | now rewrite IH | exact IH].
Qed.

Lemma compact_length {A : Type} (l : list (option A)) :
  (length (compact l) <= length l)%nat.
Proof. induction l as [|[a|] l IH]; simpl; lia. Qed.

Lemma take_prefix {A : Type} (l : list A) (n m : nat) :
  (n <= m)%nat -> take n l `prefix_of` take m l.
Proof.
  revert n m. induction l as [|a l IH]; intros [|n] [|m] H; simpl;
    try apply prefix_nil; try lia.
  apply prefix_cons, IH. lia.
Qed.

Lemma mapData_prefix (data : list Obj) (cfg : Config) (n m : TopN) :
  (topCount n <= topCount m)%nat ->
  mapData data cfg n `prefix_of` mapData data cfg m.
Proof.
  intros Hnm. unfold mapData.
  destruct (take_prefix (filteredData data cfg) _ _ Hnm) as [k ->].
  rewrite map_app, compact_app. now apply prefix_app_r.
Qed.

(** X8. Raising the top-N setting only appends flows to the map subset:
    the subset for 50 is a prefix of the one for 100, and this one of the
    one for 200; the subset never holds more flows than the setting, nor
    more than the selector returns. *)
Theorem mapData_topN :
  forall (data : list Obj) (cfg : Config),
    mapData data cfg Top50 `prefix_of` mapData data cfg Top100
    /\ mapData data cfg Top100 `prefix_of` mapData data cfg Top200
    /\ forall topN : TopN,
         (length (mapData data cfg topN) <= topCount topN)%nat
         /\ (length (mapData data cfg topN) <= length (filteredData data cfg))%nat.
Proof.
  intros data cfg.
  split; [apply mapData_prefix; simpl; lia|].
  split; [apply mapData_prefix; simpl; lia|].
  intros topN. unfold mapData.
  pose proof (compact_length (List.map repair (take (topCount topN) (filteredData data cfg)))) as H.
  rewrite length_map, length_take in H. lia.
Qed.

Lemma In_take {A : Type} (n : nat) (l : list A) (b : A) : In b (take n l) -> In b l.
Proof.
  revert n. induction l as [|a l IH]; intros [|n]; simpl; try tauto.
  intros [H|H]; [now left | right; eauto].
Qed.

Lemma ranked_take (n : nat) (l : list Obj) : ranked l -> ranked (take n l).
Proof.
  unfold ranked. intros H. revert n. induction H as [|a l Hl IH Ha]; intros [|n]; simpl;
    try constructor; [apply IH|].
  rewrite List.Forall_forall in *. intros b Hb. apply Ha. eapply In_take, Hb.
Qed.

Lemma ranked_filter (p : Obj -> bool) (l : list Obj) : ranked l -> ranked (List.filter p l).
Proof.
  unfold ranked. induction 1 as [|a l Hl IH Ha]; simpl; [constructor|].
  destruct (p a); [|exact IH]. constructor; [exact IH|].
  rewrite List.Forall_forall in *. intros b Hb. apply Ha.
  now apply filter_In in Hb as [Hb _].
Qed.

Lemma displayValue_withCoords (r : Obj) : displayValue (withCoords r) = displayValue r.
Proof.
  unfold displayValue, withCoords. now rewrite !lookup_insert_ne by discriminate.
Qed.

Lemma ranked_withCoords (l : list Obj) : ranked l -> ranked (List.map withCoords l).
Proof.
  unfold ranked. induction 1 as [|a l Hl IH Ha]; simpl; constructor; [exact IH|].
  rewrite List.Forall_forall in *. intros b Hb.
  apply in_map_iff in Hb as [b0 [<- Hb0]]. rewrite !displayValue_withCoords. now apply Ha.
Qed.

(** X9. The flows of the map subset stay ranked: for every input text,
    every filter configuration and every top-N setting, no flow of the
    subset is followed by one of greater displayValue. *)
Theorem mapData_ranked :
  forall (csvText : string) (cfg : Config) (topN : TopN),
    ranked (mapData (parseCSV csvText) cfg topN).
Proof.
  intros csvText cfg topN. unfold mapData. rewrite compact_map_repair.
  apply ranked_withCoords, ranked_filter, ranked_take.
  apply (filteredData_sorted_stable _ cfg (parseCSV_rowsValid csvText)).
Qed.

(** ** Filters and ranking commute *)

Section SortFilter.

Context {A : Type}.
Variable comparefn : A -> A -> Num.num.
Variable key : A -> Z.
Variable good : A -> Prop.
Hypothesis comparefn_key :
  forall a b : A, good a -> good b ->
    Num.gtb (comparefn a b) Num.zero = (key a <? key b).
Variable p : A -> bool.

Lemma insertSorted_front (a : A) (l : list A) :
  good a -> Forall good l -> Forall (fun b => key b <= key a) l ->
  insertSorted comparefn a l = a :: l.
Proof.
  intros Ga Gl Hl. destruct l as [|b l]; [reflexivity|].
  apply Forall_cons_1 in Gl as [Gb _]. apply Forall_cons_1 in Hl as [Hb _].
  simpl. rewrite comparefn_key by assumption.
  destruct (Z.ltb_spec (key a) (key b)); [lia | reflexivity].
Qed.

Lemma filter_insertSorted_descending (a : A) (l : list A) :
  good a -> Forall good l -> descending key l ->
  List.filter p (insertSorted comparefn a l)
  = if p a then insertSorted comparefn a (List.filter p l) else List.filter p l.
Proof.
  intros Ga Gl Hl. induction Hl as [|b l Hl IH Hb]; [simpl; now destruct (p a)|].
  apply Forall_cons_1 in Gl as [Gb Gl]. specialize (IH Gl).
  simpl insertSorted. rewrite comparefn_key by assumption.
  destruct (Z.ltb_spec (key a) (key b)) as [Hlt|Hge].
  - simpl List.filter. rewrite IH. destruct (p b), (p a); try reflexivity.
    simpl insertSorted. rewrite comparefn_key by assumption.
    destruct (Z.ltb_spec (key a) (key b)); [reflexivity | lia].
  - change (List.filter p (a :: b :: l))
      with (if p a then a :: List.filter p (b :: l) else List.filter p (b :: l)).
    destruct (p a); [|reflexivity]. symmetry. apply insertSorted_front; [exact Ga | |].
    + apply List.Forall_forall. intros c Hc. apply filter_In in Hc as [Hc _].
      rewrite List.Forall_forall in Gl. destruct Hc as [<-|Hc]; auto.
    + apply List.Forall_forall. intros c Hc. apply filter_In in Hc as [Hc _].
      rewrite List.Forall_forall in Hb. destruct Hc as [<-|Hc]; [exact Hge|].
      specialize (Hb c Hc). simpl in Hb. lia.
Qed.

(** Sorting the elements that pass a test is keeping, of the sorted list,
    the elements that pass it. *)
Lemma sort_filter (l : list A) :
  Forall good l ->
  sort comparefn (List.filter p l) = List.filter p (sort comparefn l).
Proof.
  induction l as [|a l IH]; intros Gl; [reflexivity|].
  apply Forall_cons_1 in Gl as [Ga Gl]. simpl sort.
  rewrite filter_insertSorted_descending;
    [| exact Ga | now apply sort_good
     | now apply (sort_descending comparefn key good comparefn_key)].
  rewrite <- (IH Gl). simpl List.filter. now destruct (p a).
Qed.

End SortFilter.

Lemma passes_withDisplay (cfg cfg' : Config) (r : Obj) :
  passes cfg (withDisplay cfg' r) = passes cfg r.
Proof.
  unfold passes, yearOk, originOk, destOk, withDisplay.
  now rewrite !lookup_insert_ne by discriminate.
Qed.

Lemma passes_purposeOnly (cfg : Config) (r : Obj) : passes (purposeOnly cfg) r = true.
Proof. reflexivity. Qed.

Lemma filter_true {A : Type} (p : A -> bool) (l : list A) :
  (forall a, p a = true) -> List.filter p l = l.
Proof.
  intros H. induction l as [|a l IH]; [reflexivity|]. simpl. now rewrite H, IH.
Qed.

Lemma filter_comm {A : Type} (p q : A -> bool) (l : list A) :
  List.filter p (List.filter q l) = List.filter q (List.filter p l).
Proof.
  induction l as [|a l IH]; [reflexivity|]. simpl.
  destruct (p a) eqn:Pa, (q a) eqn:Qa; simpl; rewrite ?Pa, ?Qa, IH; reflexivity.
Qed.

Lemma filteredData_narrow (data : list Obj) (cfg : Config) :
  rowsValid data = true ->
  filteredData data cfg = List.filter (passes cfg) (filteredData data (purposeOnly cfg)).
Proof.
  intros Hv. unfold filteredData at 2.
  rewrite (filter_true (passes (purposeOnly cfg))) by apply passes_purposeOnly.
  rewrite <- (sort_filter byValueDesc (fun r => Num.ord (displayValue r)) sortable
                byValueDesc_ord).
  - unfold filteredData. f_equal. rewrite filter_comm. f_equal.
    rewrite (filter_map_comm (withDisplay cfg) (passes cfg) (passes cfg))
      by (intros r; apply passes_withDisplay).
    reflexivity.
  - pose proof (candidates_sortable data (purposeOnly cfg) Hv) as H.
    unfold candidates in H.
    now rewrite (filter_true (passes (purposeOnly cfg))) in H by apply passes_purposeOnly.
Qed.

(** X10. For every input text and every filter configuration, the
    selector's result is the ranking for the same purpose without a year
    and without text queries, from which the rows that fail the year or a
    text test are removed: narrowing the filters never reorders the rows
    that stay. *)
Theorem filteredData_narrowing :
  forall (csvText : string) (cfg : Config),
    filteredData (parseCSV csvText) cfg
    = List.filter (passes cfg) (filteredData (parseCSV csvText) (purposeOnly cfg)).
Proof. intros csvText cfg. apply filteredData_narrow, parseCSV_rowsValid. Qed.

(** ** What every selected record holds *)

Lemma parseInt_years :
  parseInt "2020" = lit 2020 /\ parseInt "2021" = lit 2021 /\ parseInt "2022" = lit 2022.
Proof. repeat split; by_vm. Qed.

Lemma eqb_swap (a b : Num.num) : Num.eqb a b = true -> Num.eqb b a = true.
Proof.
  unfold Num.eqb, SFeqb. rewrite (SFcompare_antisym a b).
  now destruct (SFcompare a b) as [[| |]|].
Qed.

Lemma yearOk_year (cfg : Config) (r : Obj) (y : Num.num) :
  yearOk cfg r = true -> yearNumber (selectedYear cfg) = Some y -> r !! "year" = Some (JNum y).
Proof.
  destruct parseInt_years as [E0 [E1 E2]].
  unfold yearOk, strictEqNum.
  destruct (selectedYear cfg); cbn [yearText yearNumber andb negb];
    try discriminate; rewrite ?E0, ?E1, ?E2; intros H [= <-];
    destruct (r !! "year") as [[x| |]|]; try discriminate;
    apply negb_true_iff, negb_false_iff, eqb_swap in H;
    apply eqb_positive in H; try reflexivity; now subst x.
Qed.

Lemma filteredData_In (data : list Obj) (cfg : Config) (r : Obj) :
  In r (filteredData data cfg) -> selected cfg r.
Proof.
  intros Hr. unfold filteredData in Hr.
  apply (Permutation_in _ (sort_perm byValueDesc _)) in Hr.
  apply candidates_In in Hr as [r0 [_ [Hp [Hv ->]]]].
  unfold passes in Hp. destruct (yearOk cfg r0) eqn:Hy; [|discriminate].
  repeat split.
  - intros y Hyn. unfold withDisplay. rewrite !lookup_insert_ne by discriminate.
    now apply yearOk_year with (cfg := cfg).
  - unfold withDisplay. apply lookup_insert_eq.
  - exists (displayValueOf cfg r0). split.
    + unfold withDisplay. rewrite lookup_insert_ne by discriminate. apply lookup_insert_eq.
    + now rewrite <- gtb_zero_pos.
Qed.

(** X11. Every record that the selector returns carries the selected
    purpose as its displayType and a number that is strictly positive as
    its displayValue; when a year is selected, its year cell is exactly
    that number (a year written as text never passes). *)
Theorem filteredData_selected :
  forall (data : list Obj) (cfg : Config),
    Forall (selected cfg) (filteredData data cfg).
Proof.
  intros data cfg. apply List.Forall_forall. intros r. apply filteredData_In.
Qed.

(** X20. All the polylines of a render have one colour, that of the
    selected purpose: [#8b5cf6] for business, [#3b82f6] for leisure and for
    total. *)
Theorem polyline_colors :
  forall (data : list Obj) (cfg : Config) (topN : TopN),
    Forall (fun f : Obj =>
              strokeColor f
              = match selectedType cfg with
                | business => "#8b5cf6"
                | _ => "#3b82f6"
                end)
           (mapData data cfg topN).
Proof.
  intros data cfg topN. unfold mapData. rewrite compact_map_repair.
  apply List.Forall_forall. intros f Hf.
  apply in_map_iff in Hf as [r [<- Hr]]. apply filter_In in Hr as [Hr _].
  apply In_take in Hr. destruct (filteredData_In _ _ _ Hr) as [_ [Ht _]].
  unfold strokeColor, withCoords. rewrite !lookup_insert_ne by discriminate.
  rewrite Ht. now destruct (selectedType cfg).
Qed.

(** ** The total of the selected records *)

Lemma num_add_comm (x y : Num.num) : Num.add x y = Num.add y x.
Proof.
  destruct x as [[|]|[|]| |sx mx ex], y as [[|]|[|]| |sy my ey]; try reflexivity.
  unfold Num.add, SFadd. cbv zeta. now rewrite (Z.min_comm ex ey), Z.add_comm.
Qed.

Lemma nonneg_ord (x : Num.num) : nonneg x = true -> Num.valid x = true -> 0 <= Num.ord x.
Proof.
  intros N V. destruct (nonneg_cases x N) as [->|P]; [apply Z.le_refl|].
  pose proof (ord_pos x P V). lia.
Qed.

(** Adding a positive number to a total that is not negative. *)
Lemma add_step (acc c : Num.num) :
  nonneg acc = true -> Num.valid acc = true ->
  Num.isPositive c = true -> Num.valid c = true ->
  Num.isPositive (Num.add acc c) = true /\ Num.valid (Num.add acc c) = true
  /\ Num.ord acc <= Num.ord (Num.add acc c) /\ Num.ord c <= Num.ord (Num.add acc c).
Proof.
  intros Na Va Pc Vc.
  assert (Nc : nonneg c = true) by now destruct c as [[|]|[|]| |[|] m e].
  destruct (add_ge_left c acc Pc Vc Na Va) as [P Hc]. rewrite <- num_add_comm in P, Hc.
  split; [exact P|]. split; [now apply add_valid|]. split; [|exact Hc].
  destruct (nonneg_cases acc Na) as [->|Pa].
  - change (Num.ord Num.zero) with 0. apply nonneg_ord; [|now apply add_valid].
    now destruct (Num.add Num.zero c) as [[|]|[|]| |[|] m e].
  - now apply add_ge_left.
Qed.

Lemma totalStats_fold (l : list Obj) :
  Forall (fun r => sortable r /\ exists x, r !! "displayValue" = Some (JNum x)) l ->
  forall acc : Num.num,
    nonneg acc = true -> Num.valid acc = true ->
    exists t : Num.num,
      fold_left (fun a c => addValues a (orZero (c !! "displayValue"))) l (JNum acc) = JNum t
      /\ nonneg t = true /\ Num.valid t = true
      /\ Num.ord acc <= Num.ord t
      /\ Forall (fun r => Num.ord (displayValue r) <= Num.ord t) l.
Proof.
  induction 1 as [|r l [[Pr Vr] [x Hx]] Hl IH]; intros acc Na Va.
  - exists acc. repeat split; try assumption; [apply Z.le_refl | constructor].
  - cbn [fold_left]. unfold displayValue in Pr, Vr. rewrite Hx in Pr, Vr |- *.
    cbn [toNumber] in Pr, Vr.
    assert (E : orZero (Some (JNum x)) = JNum x).
    { unfold orZero, truthy. now destruct x as [[|]|[|]| |[|] m e]. }
    rewrite E. cbn [addValues].
    destruct (add_step acc x Na Va Pr Vr) as [P [V [Ha Hc]]].
    assert (N : nonneg (Num.add acc x) = true)
      by now destruct (Num.add acc x) as [[|]|[|]| |[|] m e].
    destruct (IH (Num.add acc x) N V) as [t [Et [Nt [Vt [Ht Hall]]]]].
    exists t. repeat split; try assumption; [lia|].
    constructor; [|exact Hall]. unfold displayValue. rewrite Hx. cbn [toNumber]. lia.
Qed.

(** X12. For every input text and every filter configuration, the total of
    the selected records is a number, never a text and never NaN; it is 0
    when no record is selected, and otherwise it is at least the
    displayValue of every selected record. *)
Theorem totalStats_bounds :
  forall (csvText : string) (cfg : Config),
    let filtered := filteredData (parseCSV csvText) cfg in
    exists t : Num.num,
      totalStats filtered = JNum t
      /\ nonneg t = true
      /\ (filtered = [] -> t = Num.zero)
      /\ Forall (fun r : Obj => Num.leb (displayValue r) t = true) filtered.
Proof.
  intros csvText cfg filtered.
  assert (Hs : Forall sortable filtered).
  { apply sort_good, candidates_sortable, parseCSV_rowsValid. }
  assert (Hall : Forall (fun r => sortable r /\ exists x, r !! "displayValue" = Some (JNum x))
                        filtered).
  { rewrite List.Forall_forall in *. intros r Hr. split; [now apply Hs|].
    destruct (filteredData_In _ _ _ Hr) as [_ [_ [x [Hx _]]]]. now exists x. }
  destruct (totalStats_fold filtered Hall Num.zero eq_refl eq_refl)
    as [t [Et [Nt [Vt [_ Hle]]]]].
  exists t. split; [exact Et|]. split; [exact Nt|]. split.
  - intros E. unfold totalStats in Et. rewrite E in Et. now injection Et as <-.
  - rewrite List.Forall_forall in *. intros r Hr.
    destruct (Hs r Hr) as [Pr Vr]. specialize (Hle r Hr). simpl in Hle.
    assert (Pt : Num.isPositive t = true).
    { destruct (nonneg_cases t Nt) as [->|P]; [|exact P].
      pose proof (ord_pos _ Pr Vr). change (Num.ord Num.zero) with 0 in Hle. lia. }
    rewrite leb_ord by assumption. now apply Z.leb_le.
Qed.

(** ** The markers of the map *)

Lemma mapSet_keys (k : string) (v : Point) (m : list (string * Point)) :
  List.map fst (mapSet k v m)
  = if existsb (String.eqb k) (List.map fst m) then List.map fst m
    else (List.map fst m ++ [k])%list.
Proof.
  induction m as [|[k' v'] m IH]; [reflexivity|]. cbn [mapSet List.map fst existsb].
  rewrite (String.eqb_sym k k').
  destruct (String.eqb_spec k' k) as [->|Hne]; [reflexivity|].
  cbn [List.map fst orb]. rewrite IH. now destruct (existsb _ _).
Qed.

Lemma existsb_eqb_In (k : string) (l : list string) :
  existsb (String.eqb k) l = true <-> In k l.
Proof.
  rewrite existsb_exists. split.
  - intros [x [Hx E]]. apply String.eqb_eq in E. now subst.
  - intros H. exists k. split; [exact H | apply String.eqb_refl].
Qed.

Lemma mapSet_In_keys (k : string) (v : Point) (m : list (string * Point)) (k' : string) :
  In k' (List.map fst (mapSet k v m)) <-> k' = k \/ In k' (List.map fst m).
Proof.
  rewrite mapSet_keys. destruct (existsb _ _) eqn:E.
  - apply existsb_eqb_In in E. split; [auto|]. intros [->|H]; assumption.
  - rewrite in_app_iff. simpl. intuition.
Qed.

Lemma mapSet_NoDup (k : string) (v : Point) (m : list (string * Point)) :
  NoDup (List.map fst m) -> NoDup (List.map fst (mapSet k v m)).
Proof.
  intros H. rewrite mapSet_keys. destruct (existsb _ _) eqn:E; [exact H|].
  apply NoDup_app. split; [exact H|]. split; [|apply NoDup_singleton].
  intros x Hx Hk. apply list_elem_of_In in Hk as [<-|[]]. apply list_elem_of_In in Hx.
  apply existsb_eqb_In in Hx. congruence.
Qed.

Lemma mapSet_In (k : string) (v : Point) (m : list (string * Point)) (k' : string) (p : Point) :
  In (k', p) (mapSet k v m) -> (k' = k /\ p = v) \/ In (k', p) m.
Proof.
  induction m as [|[k0 v0] m IH]; cbn [mapSet].
  - intros [[= <- <-]|[]]. now left.
  - destruct (String.eqb_spec k0 k) as [->|Hne].
    + intros [[= <- <-]|H]; [now left | right; now right].
    + intros [H|H]; [right; now left|]. destruct (IH H) as [?|?]; [now left | right; now right].
Qed.

Lemma pointKeys_snoc (flows : list Obj) (f : Obj) (k : string) :
  In k (pointKeys (flows ++ [f])%list)
  <-> In k (pointKeys flows)
      \/ (truthy (f !! "oCoords") = true /\ k = originKey f)
      \/ (truthy (f !! "dCoords") = true /\ k = destKey f).
Proof.
  unfold pointKeys. rewrite flat_map_app, in_app_iff. cbn [flat_map].
  rewrite app_nil_r, in_app_iff.
  destruct (truthy (f !! "oCoords")), (truthy (f !! "dCoords")); simpl; intuition congruence.
Qed.

Lemma addPoints_ok (flows : list Obj) (m : list (string * Point)) (f : Obj) :
  entriesOk flows m -> entriesOk (flows ++ [f])%list (addPoints m f).
Proof.
  intros [Hnd [Hkeys Hfrom]]. unfold addPoints.
  set (m1 := match f !! "oCoords" with
             | Some c => if truthy (Some c) then mapSet _ _ m else m
             | None => m
             end).
  assert (H1 : NoDup (List.map fst m1)
               /\ (forall k, In k (List.map fst m1)
                             <-> In k (List.map fst m)
                                 \/ (truthy (f !! "oCoords") = true /\ k = originKey f))
               /\ (forall k p, In (k, p) m1 ->
                     In (k, p) m
                     \/ (k = originKey f /\ name p = f !! "origin_name"
                         /\ f !! "oCoords" = Some (coords p)
                         /\ truthy (f !! "oCoords") = true))).
  { subst m1. destruct (f !! "oCoords") as [c|] eqn:Ec.
    - destruct (truthy (Some c)) eqn:Et.
      + split; [now apply mapSet_NoDup|]. split.
        * intros k. rewrite mapSet_In_keys. intuition.
        * intros k p Hp. apply mapSet_In in Hp as [[-> ->]|Hp]; [right | now left].
          repeat split; reflexivity || assumption.
      + split; [exact Hnd|]. split; [intros k; intuition congruence | now left].
    - split; [exact Hnd|]. split; [intros k; simpl; intuition congruence | now left]. }
  destruct H1 as [Hnd1 [Hkeys1 Hfrom1]]. clearbody m1.
  assert (H2 : forall m2,
             m2 = match f !! "dCoords" with
                  | Some c => if truthy (Some c)
                              then mapSet (destKey f) (mkPoint (f !! "destination_name") c) m1
                              else m1
                  | None => m1
                  end ->
             NoDup (List.map fst m2)
             /\ (forall k, In k (List.map fst m2)
                           <-> In k (List.map fst m1)
                               \/ (truthy (f !! "dCoords") = true /\ k = destKey f))
             /\ (forall k p, In (k, p) m2 ->
                   In (k, p) m1
                   \/ (k = destKey f /\ name p = f !! "destination_name"
                       /\ f !! "dCoords" = Some (coords p)
                       /\ truthy (f !! "dCoords") = true))).
  { intros m2 ->. destruct (f !! "dCoords") as [c|] eqn:Ec.
    - destruct (truthy (Some c)) eqn:Et.
      + split; [now apply mapSet_NoDup|]. split.
        * intros k. rewrite mapSet_In_keys. intuition.
        * intros k p Hp. apply mapSet_In in Hp as [[-> ->]|Hp]; [right | now left].
          repeat split; reflexivity || assumption.
      + split; [exact Hnd1|]. split; [intros k; intuition congruence | now left].
    - split; [exact Hnd1|]. split; [intros k; simpl; intuition congruence | now left]. }
  destruct (H2 _ eq_refl) as [Hnd2 [Hkeys2 Hfrom2]]. clear H2.
  split; [exact Hnd2|]. split.
  - intros k. rewrite Hkeys2, Hkeys1, Hkeys, pointKeys_snoc. tauto.
  - intros k p Hp. destruct (Hfrom2 k p Hp) as [Hp1|Hd].
    + destruct (Hfrom1 k p Hp1) as [Hp0|Ho].
      * destruct (Hfrom k p Hp0) as [f0 [Hf0 Hm]]. exists f0. split; [|exact Hm].
        apply in_app_iff. now left.
      * exists f. split; [apply in_app_iff; right; now left | now left].
    + exists f. split; [apply in_app_iff; right; now left | now right].
Qed.

Lemma fold_addPoints_ok (rest seen : list Obj) (m : list (string * Point)) :
  entriesOk seen m -> entriesOk (seen ++ rest)%list (fold_left addPoints rest m).
Proof.
  revert seen m. induction rest as [|f rest IH]; intros seen m H; cbn [fold_left].
  - now rewrite app_nil_r.
  - replace (seen ++ f :: rest)%list with ((seen ++ [f]) ++ rest)%list
      by (now rewrite <- app_assoc).
    apply IH. now apply addPoints_ok.
Qed.

Lemma pointEntries_ok (flows : list Obj) : entriesOk flows (pointEntries flows).
Proof.
  apply (fold_addPoints_ok flows [] []).
  split; [constructor|]. split; [reflexivity|]. intros k p [].
Qed.

(** X13. There are as many markers as there are distinct keys among the
    keys [o:<origin name>] of the flows with origin coordinates and
    [d:<destination name>] of the flows with destination coordinates, and
    every marker has the name and the coordinates of one same flow. *)
Theorem points_unique :
  forall flows : list Obj,
    length (points flows) = length (remove_dups (pointKeys flows))
    /\ Forall (fun p : Point => exists (f : Obj) (k : string), In f flows /\ markerOf f k p)
              (points flows).
Proof.
  intros flows. destruct (pointEntries_ok flows) as [Hnd [Hkeys Hfrom]]. split.
  - unfold points. rewrite length_map, <- (length_map fst). apply Permutation_length.
    apply NoDup_Permutation; [exact Hnd | apply NoDup_remove_dups|].
    intros k. rewrite elem_of_remove_dups, !list_elem_of_In. apply Hkeys.
  - apply List.Forall_forall. intros p Hp. unfold points in Hp.
    apply in_map_iff in Hp as [[k p'] [<- Hp]].
    destruct (Hfrom k p' Hp) as [f [Hf Hm]]. now exists f, k.
Qed.

(** ** The bars of the chart *)

Lemma split_hd (s : string) :
  exists (p : string) (rest : list string),
    Str.split Str.comma s = p :: rest
    /\ Str.has Str.comma p = false
    /\ (s = p \/ exists t : string, s = p ++ "," ++ t).
Proof.
  induction s as [|a s [p [rest [E [Hp Hs]]]]].
  - exists "", []. repeat split. now left.
  - cbn [Str.split]. destruct (Str.ascii_eqb a Str.comma) eqn:Ea.
    + exists "", (Str.split Str.comma s). repeat split. right. exists s.
      apply Ascii.eqb_eq in Ea. now subst a.
    + rewrite E. exists (String a p), rest. split; [reflexivity|]. split.
      * rewrite has_cons, Ea, Hp. reflexivity.
      * destruct Hs as [->|[t ->]]; [now left|]. right. now exists t.
Qed.

(** X14. The chart has a bar for each of the first 15 selected records, in
    their order, with the record's displayValue; the two names of its label
    hold no comma: each is the text of the record's origin (destination)
    name up to its first comma, or all of it when it has none. *)
Theorem chartData_labels :
  forall filtered : list Obj,
    (length (chartData filtered) <= 15)%nat
    /\ Forall2 (fun (d : Obj) (b : Chart.Bar) =>
                  labelOf (toStr (d !! "origin_name")) (Chart.labelFrom b)
                  /\ labelOf (toStr (d !! "destination_name")) (Chart.labelTo b)
                  /\ Chart.value b = d !! "displayValue")
               (take 15 filtered) (chartData filtered).
Proof.
  intros filtered. unfold chartData. split.
  - rewrite length_map, length_take. lia.
  - induction (take 15 filtered) as [|d l IH]; [constructor|].
    cbn [List.map]. constructor; [|exact IH]. cbn [Chart.labelFrom Chart.labelTo Chart.value].
    assert (H : forall v, labelOf (toStr v) (firstPiece v)).
    { intros v. unfold firstPiece, labelOf.
      destruct (split_hd (toStr v)) as [p [rest [-> H]]]. exact H. }
    repeat split; apply H.
Qed.

(** ** The state of the component *)

Lemma fetchEnd_cases (r : App.Response) (st : App.State) :
  App.fetchEnd r st = App.fetchFailed st
  \/ exists (a : Obj) (l : list Obj),
       App.fetchEnd r st
       = App.mkState (a :: l) false (App.error st) (length (a :: l)) App.connected.
Proof.
  destruct r as [|text]; [now left|]. unfold App.fetchEnd.
  destruct (App.looksLikeHtml text); [now left|].
  destruct (parseCSV text) as [|a l]; [now left | right; now exists a, l].
Qed.

Lemma uploadEnd_cases (text : option string) (st : App.State) :
  App.uploadEnd text st = App.uploadFailed st
  \/ exists (a : Obj) (l : list Obj),
       App.uploadEnd text st
       = App.mkState (a :: l) false None (length (a :: l)) App.connected.
Proof.
  destruct text as [text|]; [|now left]. unfold App.uploadEnd.
  destruct (parseCSV text) as [|a l]; [now left | right; now exists a, l].
Qed.

Lemma handle_consistent (st : App.State) (e : App.Event) :
  App.consistent st -> App.consistent (App.handle st e).
Proof.
  intros [Hc [Hs He]]. destruct e as [|r|[|]|text]; cbn [App.handle].
  - repeat split; [exact Hc | discriminate | now left].
  - destruct (fetchEnd_cases r st) as [->|[a [l ->]]].
    + repeat split; [discriminate | exact He].
    + repeat split; [discriminate | exact He].
  - repeat split; assumption.
  - repeat split; assumption.
  - destruct (uploadEnd_cases text st) as [->|[a [l ->]]].
    + repeat split; [exact Hc | discriminate | now right].
    + repeat split; [discriminate | now left].
Qed.

(** X15. Whatever happens to the component and in whatever order (the
    effect, the responses, the file choices and the file texts), the record
    count shown is the number of loaded rows, the file status is
    [connected] only when rows are loaded, and the error is absent or is
    the one message of a failed upload. *)
Theorem run_consistent :
  forall events : list App.Event, App.consistent (App.run events).
Proof.
  intros events. unfold App.run.
  assert (H : App.consistent App.initial).
  { repeat split; [discriminate | now left]. }
  revert H. generalize App.initial. induction events as [|e events IH]; intros st H.
  - exact H.
  - cbn [fold_left]. apply IH. now apply handle_consistent.
Qed.

Lemma step_sessionOk (s s' : App.Phase * App.State) :
  App.step s s' -> App.sessionOk s -> App.sessionOk s'.
Proof.
  intros Hstep. destruct Hstep as [st|r st|st Hp|st Hp|text st];
    intros [Hc [Hs [Hl Hd]]]; cbn [App.sessionOk].
  - assert (E : App.data st = []).
    { destruct (App.data st) eqn:E; [reflexivity|]. now discriminate Hd. }
    cbn [App.fetchStart App.data App.parsedCount App.fileStatus App.loading].
    rewrite E in *. repeat split; try tauto; try discriminate; auto.
  - destruct (fetchEnd_cases r st) as [->|[a [l ->]]];
      cbn [App.fetchFailed App.data App.parsedCount App.fileStatus App.loading].
    + repeat split; try tauto; try discriminate. intros [|]; discriminate.
    + repeat split; try tauto; try discriminate. intros [|]; discriminate.
  - repeat split; tauto.
  - unfold App.showsUploadPanel in Hp.
    destruct (App.data st) eqn:E; [|discriminate].
    cbn [App.uploadStart App.data App.parsedCount App.fileStatus App.loading].
    rewrite ?E. repeat split; try tauto; auto.
  - assert (E : App.data st = []).
    { destruct (App.data st) eqn:E; [reflexivity|]. now discriminate Hd. }
    destruct (uploadEnd_cases text st) as [->|[a [l ->]]];
      cbn [App.uploadFailed App.data App.parsedCount App.fileStatus App.loading].
    + rewrite E in *. repeat split; try tauto; try discriminate. intros [|]; discriminate.
    + repeat split; try tauto; try discriminate. intros [|]; discriminate.
Qed.

Lemma reachable_sessionOk (s : App.Phase * App.State) :
  App.reachable s -> App.sessionOk s.
Proof.
  unfold App.reachable. intros H.
  apply (rtc_ind_r (R := App.step) (fun s => App.sessionOk s) (App.starting, App.initial));
    [| |exact H].
  - cbn. repeat split; try tauto; try discriminate. intros [|]; discriminate.
  - intros y z _ Hstep Hy. exact (step_sessionOk y z Hstep Hy).
Qed.

(** X16. In a session (the effect runs once after the first render, and a
    file can be chosen only while the panel with the file input is
    rendered), the file status is [connected], and the badge reads "File
    connected", exactly when rows are loaded; [loading] is true exactly
    while the fetch or an upload is under way; and once rows are loaded
    nothing more can happen to the state: the loaded rows are never
    replaced. *)
Theorem session_invariant :
  forall (ph : App.Phase) (st : App.State),
    App.reachable (ph, st) ->
    App.parsedCount st = length (App.data st)
    /\ (App.fileStatus st = App.connected <-> App.data st <> [])
    /\ (App.label (App.fileStatus st) = "File connected" <-> App.data st <> [])
    /\ (App.loading st = true <-> ph = App.fetching \/ ph = App.uploading)
    /\ (App.data st <> [] ->
        App.showsDashboard st = true /\ forall s', ~ App.step (ph, st) s').
Proof.
  intros ph st H. destruct (reachable_sessionOk _ H) as [Hc [Hs [Hl Hd]]].
  split; [exact Hc|]. split; [exact Hs|]. split.
  { rewrite <- Hs. destruct (App.fileStatus st); split; (reflexivity || discriminate). }
  split; [exact Hl|].
  intros Hne. split.
  - unfold App.showsDashboard. now destruct (App.data st).
  - intros s' Hstep. specialize (Hd Hne). subst ph.
    assert (Hp : App.showsUploadPanel st = false).
    { unfold App.showsUploadPanel. now destruct (App.data st). }
    inversion Hstep; subst; congruence.
Qed.

Lemma session_invariant_witness :
  let st := App.uploadEnd (Some bostonAustin)
              (App.uploadStart (App.fetchEnd App.unavailable (App.fetchStart App.initial))) in
  App.parsedCount st = length (App.data st)
  /\ (App.fileStatus st = App.connected <-> App.data st <> [])
  /\ (App.label (App.fileStatus st) = "File connected" <-> App.data st <> [])
  /\ (App.loading st = true <-> App.idle = App.fetching \/ App.idle = App.uploading)
  /\ (App.data st <> [] ->
      App.showsDashboard st = true /\ forall s', ~ App.step (App.idle, st) s').
Proof.
  apply (session_invariant App.idle).
  unfold App.reachable.
  eapply rtc_l; [apply App.step_mounted|].
  eapply rtc_l; [apply (App.step_fetched App.unavailable)|].
  eapply rtc_l; [apply App.step_chosen; reflexivity|].
  eapply rtc_l; [apply (App.step_uploaded (Some bostonAustin))|].
  apply rtc_refl.
Defined.

(** ** The first version of the selector and of the map subset *)

Lemma withDisplay_agree (cfg : Config) (r : Obj) :
  (forall k v, r !! k = Some v -> cellOk v) ->
  valuePositive (V1.withDisplay cfg r) = valuePositive (withDisplay cfg r)
  /\ (valuePositive (withDisplay cfg r) = true -> V1.withDisplay cfg r = withDisplay cfg r).
Proof.
  intros Hr.
  assert (Hc : forall v, purposeCell cfg r = Some v -> cellOk v).
  { unfold purposeCell. destruct (selectedType cfg); intros v; apply Hr. }
  unfold valuePositive, displayValue, V1.withDisplay, withDisplay, displayValueOf.
  rewrite !(lookup_insert_ne _ "displayType") by discriminate.
  rewrite !lookup_insert_eq. cbn [toNumber].
  destruct (purposeCell cfg r) as [[x|s|a b]|] eqn:E.
  - cbn [orZero truthy toNumber]. destruct (Num.truthy x); split; reflexivity.
  - destruct (Hc _ eq_refl) as [_ [_ Hs]].
    destruct s as [|c s]; [split; reflexivity|].
    destruct Hs as [Hs|Hs]; [discriminate|].
    cbn [orZero truthy Str.isEmpty negb toNumber toStr].
    destruct (Num.ofString (String c s)) as [| | |]; try discriminate.
    split; [reflexivity | discriminate].
  - destruct (Hc _ eq_refl).
  - split; reflexivity.
Qed.

Lemma filter_map_agree {A B : Type} (p : B -> bool) (f g : A -> B) (l : list A) :
  (forall a, In a l -> p (f a) = p (g a) /\ (p (g a) = true -> f a = g a)) ->
  List.filter p (List.map f l) = List.filter p (List.map g l).
Proof.
  induction l as [|a l IH]; intros H; [reflexivity|]. cbn [List.map List.filter].
  destruct (H a (or_introl eq_refl)) as [E1 E2]. rewrite E1.
  rewrite IH by (intros b Hb; apply H; now right).
  destruct (p (g a)); [|reflexivity]. now rewrite E2.
Qed.

(** X17. On the rows of any parsed text, the selector of the first version,
    which keeps [displayValue || 0] without converting it to a number,
    returns the same records as the selector of the second version: a parsed
    cell that is not a number never counts as a positive value. *)
Theorem V1_filteredData_same :
  forall (csvText : string) (cfg : Config),
    V1.filteredData (parseCSV csvText) cfg = filteredData (parseCSV csvText) cfg.
Proof.
  intros csvText cfg. unfold V1.filteredData, filteredData. f_equal.
  apply filter_map_agree. intros r Hr. apply filter_In in Hr as [Hr _].
  apply withDisplay_agree. intros k v. now apply parseCSV_cellOk with (csvText := csvText).
Qed.

Lemma trim_empty (s : string) : Str.trim s = "" -> Str.trimStart s = "".
Proof.
  unfold Str.trim. destruct (trimStart_head s) as [E|[c [r [E Hc]]]]; [trivial|].
  rewrite E. destruct (trimEnd_head c r Hc) as [r' ->]. discriminate.
Qed.

Lemma parseFloat_blank (v : option JsVal) : blankCell v -> V1.parseFloat v = Num.NaN.
Proof.
  intros [->|[s [-> Hs]]]; [reflexivity|].
  unfold V1.parseFloat. cbn [toStr]. now rewrite (trim_empty s Hs).
Qed.

(** X18. The first version of the map subset drops every row that has a
    missing or blank coordinate cell ([parseFloat] reads it as NaN); the
    second version reads such a cell as 0. *)
Theorem V1_repair_blank_cell :
  forall r : Obj,
    blankCell (r !! "lon_o") \/ blankCell (r !! "lat_o")
    \/ blankCell (r !! "lon_d") \/ blankCell (r !! "lat_d") ->
    V1.repair r = None.
Proof.
  intros r H. unfold V1.repair.
  destruct H as [H|[H|[H|H]]]; rewrite (parseFloat_blank _ H); cbn [Num.isNaN negb andb];
    now rewrite ?andb_false_r.
Qed.

Lemma V1_repair_blank_cell_witness :
  V1.repair {[ "lon_o" := JStr " "; "lat_o" := JNum (lit 42.36) ]} = None.
Proof.
  apply V1_repair_blank_cell. left. right. exists " ". split; reflexivity.
Defined.

(** ** Binary64 facts: rounding does not pass a representable value *)

Lemma shr_1_even (k : Z) :
  0 <= k -> shr_1 (Build_shr_record (2 * k) false false) = Build_shr_record k false false.
Proof. intros H. destruct k as [|p|p]; [reflexivity | reflexivity | lia]. Qed.

(** Shifting out digits that are all zero leaves an exact result. *)
Lemma iter_shr_exact (n : positive) :
  forall c : Z,
    0 <= c ->
    SpecFloat.iter_pos shr_1 n (Build_shr_record (c * 2 ^ Zpos n) false false)
    = Build_shr_record c false false.
Proof.
  induction n as [n IH|n IH|]; intros c Hc; cbn [SpecFloat.iter_pos].
  - rewrite pow2_xI.
    replace (c * (2 * (2 ^ Z.pos n * 2 ^ Z.pos n))) with (2 * ((c * 2 ^ Z.pos n) * 2 ^ Z.pos n))
      by ring.
    assert (0 < 2 ^ Z.pos n) by (apply pow2_pos; lia).
    rewrite shr_1_even by nia. rewrite IH by nia. now apply IH.
  - rewrite pow2_xO. rewrite Z.mul_assoc.
    assert (0 < 2 ^ Z.pos n) by (apply pow2_pos; lia).
    rewrite IH by nia. now apply IH.
  - change (2 ^ 1) with 2. rewrite Z.mul_comm. now apply shr_1_even.
Qed.

(** An integer whose digits below the binade's exponent are all zero is
    rounded to itself. *)
Lemma binary_round_aux_exact (s : bool) (m e c : Z) :
  0 <= c ->
  e <= fexp (Zdigits2 m + e) ->
  m = c * 2 ^ (fexp (Zdigits2 m + e) - e) ->
  binary_round_aux Num.prec Num.emax s m e loc_Exact = finish s c (fexp (Zdigits2 m + e)).
Proof.
  intros Hc He Hm. rewrite binary_round_aux_finish. cbv zeta.
  unfold shr_fexp, shr. set (e1 := fexp (Zdigits2 m + e)) in *.
  destruct (e1 - e) as [|n|n] eqn:En; [| |lia]; cbn [fst snd shr_record_of_loc].
  - rewrite Z.pow_0_r, Z.mul_1_r in Hm. subst c.
    cbn [shr_m loc_of_shr_record round_nearest_even]. f_equal. lia.
  - rewrite Hm, iter_shr_exact by exact Hc.
    cbn [shr_m loc_of_shr_record round_nearest_even]. f_equal. lia.
Qed.

(** Rounding [m * 2^e] never goes above a representable value that the
    exact number is not above (the two are compared in units of [2^b]). *)
Lemma binary_round_aux_le (m : positive) (e : Z) (m0 : positive) (e0 b : Z) :
  e <= fexp (Z.pos (digits2_pos m) + e) ->
  bounded Num.prec Num.emax m0 e0 = true ->
  b <= e -> b <= e0 ->
  Z.pos m * 2 ^ (e - b) <= Z.pos m0 * 2 ^ (e0 - b) ->
  let r := binary_round_aux Num.prec Num.emax false (Z.pos m) e loc_Exact in
  nonneg r = true /\ Num.isFinite r = true
  /\ Num.ord r <= Num.ord (S754_finite false m0 e0).
Proof.
  intros He B Hbe Hbe0 HVb r.
  pose proof (binary_round_aux_nonneg (Z.pos m) e loc_Exact ltac:(lia) He) as Hnn.
  fold r in Hnn. split; [exact Hnn|].
  destruct (binary_round_aux_char false (Z.pos m) e loc_Exact ltac:(lia) He)
    as [m1 [Hm1 [Hm' [He1 [Hn Hr]]]]].
  simpl Zdigits2 in *. fold r in Hr.
  set (e1 := fexp (Z.pos (digits2_pos m) + e)) in *.
  set (m' := Z.pos m / 2 ^ (e1 - e)) in *.
  pose proof (ord_lt_inf m0 e0 B) as Hinf. rewrite ord_inf in Hinf.
  pose proof (bounded_inv _ _ B) as [[B1 B2] [B3 B4]].
  pose proof (digits_bounds m) as [Dl Du]. pose proof (digits_bounds m0) as [Dl0 Du0].
  set (d := Z.pos (digits2_pos m)) in *. set (d0 := Z.pos (digits2_pos m0)) in *.
  assert (0 < d) by (subst d; lia). assert (0 < d0) by (subst d0; lia).
  assert (Hpb : 0 < 2 ^ (e - b)) by (apply pow2_pos; lia).
  assert (Hpb0 : 0 < 2 ^ (e0 - b)) by (apply pow2_pos; lia).
  assert (Hdd : d + e <= d0 + e0).
  { assert (d - 1 + (e - b) < d0 + (e0 - b)); [|lia].
    apply (Z.pow_lt_mono_r_iff 2); [lia | lia|].
    rewrite !pow2_split by lia.
    apply Z.le_lt_trans with (Z.pos m * 2 ^ (e - b)); [nia|].
    eapply Z.le_lt_trans; [exact HVb|]. nia. }
  assert (He0 : e0 = fexp (d0 + e0)) by (rewrite fexp_eq; lia).
  assert (Hle : e1 <= e0) by (rewrite He0; apply fexp_mono; exact Hdd).
  assert (Hee : e <= e0) by lia.
  assert (HV : Z.pos m <= Z.pos m0 * 2 ^ (e0 - e)).
  { assert (Hs : 2 ^ (e0 - b) = 2 ^ (e0 - e) * 2 ^ (e - b)).
    { rewrite <- pow2_split by lia. f_equal. lia. }
    rewrite Hs in HVb. nia. }
  set (K := Z.pos m0 * 2 ^ (e0 - e1)).
  assert (Hp1 : 0 < 2 ^ (e1 - e)) by (apply pow2_pos; lia).
  assert (Hp2 : 0 < 2 ^ (e0 - e1)) by (apply pow2_pos; lia).
  assert (HK : Z.pos m0 * 2 ^ (e0 - e) = K * 2 ^ (e1 - e)).
  { subst K. rewrite <- Z.mul_assoc, <- pow2_split by lia. do 2 f_equal. lia. }
  assert (Hm'K : m' <= K).
  { subst m'. apply Z.div_le_upper_bound; [exact Hp1|]. rewrite Z.mul_comm. lia. }
  assert (Hex : exists m2 : Z, m' <= m2 <= K /\ m2 <= m' + 1 /\ r = finish false m2 e1).
  { destruct (Z.eq_dec m' K) as [E|N].
    - exists K. split; [lia|]. split; [lia|].
      subst r. apply binary_round_aux_exact; [lia | exact He |].
      simpl Zdigits2. fold d e1.
      pose proof (Z.mul_div_le (Z.pos m) (2 ^ (e1 - e)) Hp1) as Hfl. fold m' in Hfl.
      rewrite E in Hfl. lia.
    - exists m1. split; [lia|]. split; [lia | exact Hr]. }
  destruct Hex as [m2 [Hm2 [Hm2' ->]]].
  assert (HKb : K * 2 ^ (e1 - Num.emin) = Num.ord (S754_finite false m0 e0)).
  { rewrite ord_finite. subst K. rewrite <- Z.mul_assoc, <- pow2_split by lia.
    do 2 f_equal. lia. }
  assert (Hp3 : 0 < 2 ^ (e1 - Num.emin)) by (apply pow2_pos; lia).
  destruct (finish_char false m2 e1 ltac:(lia) He1 ltac:(destruct Hn; [left; lia | now right]))
    as [[_ ->] | [[m'' [e'' [-> [_ Hval]]]] | [_ [_ Hov]]]].
  - split; [reflexivity|]. rewrite ord_finite.
    change (Num.ord (S754_zero false)) with 0.
    apply Z.mul_nonneg_nonneg; [lia | apply Z.lt_le_incl, pow2_pos; lia].
  - split; [reflexivity|]. rewrite <- HKb, ord_finite, Hval. nia.
  - exfalso. destruct Hov as [Hov|[E Hov]]; [lia|].
    assert (E1 : e1 = Num.emax - Num.prec) by lia.
    assert (HX : K * 2 ^ (e1 - Num.emin) < 2 ^ (Num.emax - Num.emin)) by (rewrite HKb; exact Hinf).
    assert (HY : 2 ^ Num.prec * 2 ^ (e1 - Num.emin) = 2 ^ (Num.emax - Num.emin)).
    { rewrite <- pow2_split by (unfold Num.prec; lia). f_equal. lia. }
    nia.
Qed.

Lemma binary_round_le (p : positive) (e : Z) (m0 : positive) (e0 : Z) :
  Num.emin <= e ->
  bounded Num.prec Num.emax m0 e0 = true ->
  Z.pos p * 2 ^ (e - Num.emin) <= Num.ord (S754_finite false m0 e0) ->
  let r := binary_round Num.prec Num.emax false p e in
  nonneg r = true /\ Num.isFinite r = true
  /\ Num.ord r <= Num.ord (S754_finite false m0 e0).
Proof.
  intros He B HV. rewrite ord_finite in HV.
  pose proof (bounded_inv _ _ B) as [[B1 B2] _].
  unfold binary_round, shl_align.
  pose proof (digits_bounds p) as [Dl Du].
  set (d := Z.pos (digits2_pos p)) in *. assert (0 < d) by (subst d; lia).
  set (e1 := SpecFloat.fexp Num.prec Num.emax (d + e)).
  assert (He1 : Num.emin <= e1) by (subst e1; rewrite fexp_eq; lia).
  destruct (e1 - e) as [|k|k] eqn:Ek.
  - apply (binary_round_aux_le p e m0 e0 Num.emin); try assumption. fold d. fold e1. lia.
  - apply (binary_round_aux_le p e m0 e0 Num.emin); try assumption. fold d. fold e1. lia.
  - assert (Hd : Z.pos (digits2_pos (Pos.iter xO p k)) = d + Z.pos k).
    { apply digits_unique. rewrite iter_xO. split.
      - replace (d + Z.pos k - 1) with (d - 1 + Z.pos k) by lia.
        rewrite pow2_split by lia. apply Z.mul_le_mono_nonneg_r; [|exact Dl].
        apply Z.lt_le_incl, pow2_pos; lia.
      - rewrite pow2_split by lia. apply Z.mul_lt_mono_pos_r; [|exact Du].
        apply pow2_pos; lia. }
    apply (binary_round_aux_le (Pos.iter xO p k) e1 m0 e0 Num.emin); try assumption.
    + rewrite Hd. replace (d + Z.pos k + e1) with (d + e) by lia. fold e1. lia.
    + rewrite iter_xO. replace (e - Num.emin) with (Z.pos k + (e1 - Num.emin)) in HV by lia.
      rewrite pow2_split in HV by lia. lia.
Qed.

(** ** Binary64 facts: products and sums below a bound *)

(** A value that is at most 1, by its mantissa and exponent. *)
Lemma leb_one_inv (m : positive) (e : Z) :
  Num.valid (S754_finite false m e) = true ->
  Num.leb (S754_finite false m e) Math.one = true ->
  e <= 0 /\ Z.pos m <= 2 ^ (- e).
Proof.
  intros V H. rewrite leb_ord in H by (reflexivity || exact V).
  apply Z.leb_le in H. rewrite ord_finite in H.
  unfold Num.valid, valid_binary in V. apply bounded_inv in V as [[B1 _] _].
  change (Num.ord Math.one) with (2 ^ (0 - Num.emin)) in H.
  assert (He : e <= 0).
  { destruct (Z_le_gt_dec e 0) as [|Hgt]; [assumption|]. exfalso.
    assert (2 ^ (0 - Num.emin) < 2 ^ (e - Num.emin))
      by (apply Z.pow_lt_mono_r; unfold Num.emin, SpecFloat.emin, Num.prec, Num.emax in *; lia).
    nia. }
  split; [exact He|].
  replace (0 - Num.emin) with (- e + (e - Num.emin)) in H by lia.
  rewrite pow2_split in H by lia.
  assert (0 < 2 ^ (e - Num.emin)) by (apply pow2_pos; lia). nia.
Qed.

(** The product of a factor in [0, 1] and a positive normal number is at
    most that number. *)
Lemma mul_le_right (t c : Num.num) :
  nonneg t = true -> Num.valid t = true -> Num.leb t Math.one = true ->
  Num.isPositive c = true -> Num.valid c = true -> SFclassify Num.prec c = FloatClass.PNormal ->
  nonneg (Num.mul t c) = true /\ Num.valid (Num.mul t c) = true
  /\ Num.ord (Num.mul t c) <= Num.ord c.
Proof.
  intros Nt Vt Lt Pc Vc Cc.
  destruct (mul_nonneg t c Nt Vt Pc Vc Cc) as [Nm Vm]. split; [exact Nm|]. split; [exact Vm|].
  destruct c as [|[|]| |[|] mc ec]; try discriminate.
  destruct t as [[|]|[|]| |[|] m e]; try discriminate.
  - pose proof (ord_pos _ Pc Vc). change (Num.ord (Num.mul (S754_zero false) _)) with 0. lia.
  - destruct (leb_one_inv m e Vt Lt) as [He Hm].
    unfold SFclassify in Cc.
    destruct (Z.eqb_spec (Z.pos (digits2_pos mc)) Num.prec) as [Hdc|]; [|discriminate].
    unfold Num.mul, SFmul. cbn [xorb].
    pose proof (digits_bounds m) as [Dl _]. pose proof (digits_bounds mc) as [Dcl _].
    rewrite Hdc in Dcl.
    set (d := Z.pos (digits2_pos m)) in *. assert (0 < d) by (subst d; lia).
    assert (Hal : e + ec <= fexp (Z.pos (digits2_pos (m * mc)) + (e + ec))).
    { assert (d + Num.prec - 1 <= Z.pos (digits2_pos (m * mc))).
      { apply digits_ge. rewrite Pos2Z.inj_mul.
        replace (d + Num.prec - 1 - 1) with ((d - 1) + (Num.prec - 1)) by lia.
        rewrite pow2_split by (unfold Num.prec; lia).
        apply Z.mul_le_mono_nonneg; try lia; apply Z.lt_le_incl, pow2_pos;
          unfold Num.prec; lia. }
      rewrite fexp_eq. unfold Num.prec in *. lia. }
    apply (binary_round_aux_le (m * mc) (e + ec) mc ec (e + ec)); try assumption; try lia.
    rewrite Z.sub_diag, Z.pow_0_r, Z.mul_1_r, Pos2Z.inj_mul.
    replace (ec - (e + ec)) with (- e) by lia. nia.
Qed.

(** The sum of two positive numbers whose exact sum is at most a
    representable value is at most that value. *)
Lemma add_le (x y : Num.num) (m0 : positive) (e0 : Z) :
  Num.isPositive x = true -> Num.valid x = true ->
  nonneg y = true -> Num.valid y = true ->
  bounded Num.prec Num.emax m0 e0 = true ->
  Num.ord x + Num.ord y <= Num.ord (S754_finite false m0 e0) ->
  Num.isFinite (Num.add x y) = true
  /\ Num.ord (Num.add x y) <= Num.ord (S754_finite false m0 e0).
Proof.
  intros Px Vx Ny Vy B H.
  pose proof (ord_lt_inf m0 e0 B) as Hinf.
  destruct x as [|[|]| |[|] mx ex]; try discriminate.
  { rewrite ord_inf in *. pose proof (nonneg_ord y Ny Vy). lia. }
  destruct y as [[|]|[|]| |[|] my ey]; try discriminate.
  - change (Num.ord (S754_zero false)) with 0 in H. cbn [Num.add SFadd]. split; [reflexivity | lia].
  - rewrite ord_inf in *. pose proof (ord_pos _ Px Vx). lia.
  - unfold Num.valid, valid_binary in Vx, Vy.
    pose proof (bounded_inv _ _ Vx) as [[? ?] _]. pose proof (bounded_inv _ _ Vy) as [[? ?] _].
    unfold Num.add, SFadd. cbv zeta. unfold cond_Zopp.
    set (ez := Z.min ex ey).
    pose proof (shl_align_fst mx ex ez ltac:(lia)) as Ha.
    pose proof (shl_align_fst my ey ez ltac:(lia)) as Hb.
    set (a := fst (shl_align mx ex ez)) in *. set (b := fst (shl_align my ey ez)) in *.
    change (Z.pos a + Z.pos b) with (Z.pos (a + b)). unfold binary_normalize.
    destruct (binary_round_le (a + b) ez m0 e0 ltac:(lia) B) as [_ [F Hle]]; [|now split].
    rewrite !ord_finite in H. rewrite Pos2Z.inj_add, Ha, Hb.
    replace (ex - Num.emin) with ((ex - ez) + (ez - Num.emin)) in H by lia.
    replace (ey - Num.emin) with ((ey - ez) + (ez - Num.emin)) in H by lia.
    rewrite !pow2_split in H by lia. rewrite ord_finite. nia.
Qed.

(** ** The stroke weights stay between [minW] and [maxW] *)

Lemma max_zero_idem (x : Num.num) :
  Math.max [Num.zero; Math.max [Num.zero; x]] = Math.max [Num.zero; x].
Proof. now destruct x as [[|]|[|]| |[|] m e]. Qed.

(** The loop of [Math.min] ends at or below every value it has seen. *)
Lemma min_fold_all (l : list Num.num) (lowest : Num.num) :
  forallb smallLog l = true -> smallLog lowest = true ->
  let r := fold_left
             (fun lowest x =>
                if (Math.isNegZero x && Math.isPosZero lowest) || Num.ltb x lowest
                then x else lowest) l lowest in
  Forall (fun x => Num.ord r <= Num.ord x) l.
Proof.
  revert lowest. induction l as [|x l IH]; intros lowest Hl Hlow; cbn [fold_left]; [constructor|].
  cbn [forallb] in Hl. apply andb_true_iff in Hl as [Hx Hl].
  pose proof (smallLog_inv x Hx) as [Nx [Vx _]].
  pose proof (smallLog_inv lowest Hlow) as [Nlow [Vlow _]].
  assert (Hz : Math.isNegZero x = false) by now destruct x as [[|]|[|]| |[|] m e].
  rewrite Hz, (ltb_ord_nonneg x lowest Nx Vx Nlow Vlow). cbn [andb orb].
  destruct (Z.ltb_spec (Num.ord x) (Num.ord lowest)) as [Hlt|Hge].
  - constructor; [apply (min_fold l x Hl Hx) | now apply IH].
  - constructor; [|now apply IH].
    pose proof (min_fold l lowest Hl Hlow) as [_ H]. cbv zeta in H. lia.
Qed.

Lemma min_le_all (x : Num.num) (l : list Num.num) :
  forallb smallLog (x :: l) = true ->
  Forall (fun y => Num.ord (Math.min (x :: l)) <= Num.ord y) (x :: l).
Proof.
  intros H. unfold Math.min. rewrite (smallLog_not_NaN _ H).
  cbn [forallb] in H. apply andb_true_iff in H as [Hx Hl].
  cbn [fold_left].
  assert (H1 : (if Math.isNegZero x && Math.isPosZero (S754_infinity false)
                   || Num.ltb x (S754_infinity false)
                then x else S754_infinity false) = x).
  { apply smallLog_inv in Hx as [Nx [_ Lx]]. now destruct x as [[|]|[|]| |[|] m e]. }
  rewrite H1. constructor; [apply (min_fold l x Hl Hx) | now apply min_fold_all].
Qed.

Lemma sub_small (lo hi : Num.num) :
  smallLog lo = true -> smallLog hi = true -> Num.ord lo <= Num.ord hi ->
  nonneg (Num.sub hi lo) = true /\ Num.valid (Num.sub hi lo) = true.
Proof.
  intros Hlo Hhi Hle.
  pose proof (smallLog_inv _ Hlo) as [Nlo [Vlo _]].
  pose proof (smallLog_inv _ Hhi) as [Nhi [Vhi _]].
  pose proof (smallLog_finite _ Hlo) as Flo.
  destruct (nonneg_cases lo Nlo) as [->|Plo].
  - destruct hi as [[|]|[|]| |[|] m e]; try discriminate; split; try reflexivity; exact Vhi.
  - destruct (nonneg_cases hi Nhi) as [->|Phi].
    + pose proof (ord_pos lo Plo Vlo). change (Num.ord Num.zero) with 0 in Hle. lia.
    + now apply sub_nonneg.
Qed.

(** The quotient [(logv - minLog) / (maxLog - minLog)] for the log of a flow
    of the subset is a well-formed number that is not negative. *)
Lemma quotient_on_logs (logs : list Num.num) (logv : Num.num) :
  logs <> [] -> forallb smallLog logs = true -> In logv logs ->
  let minLog := Math.min logs in
  let maxLog := Math.max [Math.max logs; Num.add minLog (lit 1e-6)] in
  let t := Num.div (Num.sub logv minLog) (Num.sub maxLog minLog) in
  nonneg t = true /\ Num.valid t = true.
Proof.
  intros Hne Hlogs Hin minLog maxLog t.
  destruct (span_small logs Hne Hlogs) as [ms [es Hspan]]. cbv zeta in Hspan.
  subst t maxLog minLog. rewrite Hspan.
  destruct logs as [|x logs]; [congruence|].
  pose proof (min_max_small _ _ Hlogs) as [Hmin _].
  pose proof (min_le_all _ _ Hlogs) as Hall.
  assert (Hlf : smallLog logv = true) by (rewrite forallb_forall in Hlogs; now apply Hlogs).
  assert (Hle : Num.ord (Math.min (x :: logs)) <= Num.ord logv).
  { rewrite List.Forall_forall in Hall. now apply Hall. }
  destruct (sub_small _ _ Hmin Hlf Hle) as [Nn Vn].
  now apply div_nonneg.
Qed.

Section WeightRange.

Variable log1pImpl : Num.num -> Num.num.
Variable powImpl : Num.num -> Num.num -> Num.num.
Hypothesis pow_ok : powBounded powImpl.

(** The power of the clamped quotient is a well-formed number in [0, 1]. *)
Lemma pow_clamped_unit (t : Num.num) :
  nonneg t = true -> Num.valid t = true ->
  let t2 := Math.pow powImpl (Math.min [Math.one; Math.max [Num.zero; t]]) (lit 1.15) in
  nonneg t2 = true /\ Num.valid t2 = true /\ Num.leb t2 Math.one = true.
Proof.
  intros Nt Vt t2. subst t2.
  rewrite max_zero_nonneg, min_one_nonneg by exact Nt.
  set (c := if Num.ltb t Math.one then t else Math.one).
  assert (Hc : nonneg c = true /\ Num.valid c = true /\ Num.leb c Math.one = true).
  { subst c. destruct (Num.ltb t Math.one) eqn:E; [|repeat split; reflexivity].
    repeat split; try assumption. now apply ltb_leb. }
  destruct Hc as [Nc [Vc Lc]]. rewrite pow_115 by exact Nc.
  pose proof (leb_one_finite c Nc Lc) as Fc.
  destruct c as [[|]|[|]| |[|] m e]; try discriminate; try (repeat split; reflexivity).
  now apply pow_ok.
Qed.

(** The weight that the formula gives to a quotient that is not negative. *)
Lemma weight_in_range (t : Num.num) :
  nonneg t = true -> Num.valid t = true ->
  let t2 := Math.pow powImpl (Math.min [Math.one; Math.max [Num.zero; t]]) (lit 1.15) in
  let w := Num.add minW (Num.mul t2 (Num.sub maxW minW)) in
  Num.leb minW w = true /\ Num.leb w maxW = true.
Proof.
  intros Nt Vt t2 w. destruct (pow_clamped_unit t Nt Vt) as [N2 [V2 L2]]. fold t2 in N2, V2, L2.
  destruct (mul_le_right t2 (Num.sub maxW minW) N2 V2 L2
              ltac:(reflexivity) ltac:(reflexivity) ltac:(reflexivity)) as [Nm [Vm Hm]].
  destruct (add_ge_left minW _ ltac:(reflexivity) ltac:(reflexivity) Nm Vm) as [Pw Hw].
  fold w in Pw, Hw.
  assert (Vw : Num.valid w = true) by (now apply add_valid).
  split.
  - rewrite leb_ord; [now apply Z.leb_le | reflexivity | reflexivity | exact Pw | exact Vw].
  - change maxW with (S754_finite false 7881299347898368 (-49)).
    destruct (add_le minW (Num.mul t2 (Num.sub maxW minW)) 7881299347898368 (-49)
                ltac:(reflexivity) ltac:(reflexivity) Nm Vm ltac:(reflexivity)) as [_ Hle].
    + assert (Hc : Num.ord minW + Num.ord (Num.sub maxW minW)
                   <= Num.ord (S754_finite false 7881299347898368 (-49)))
        by (apply Z.leb_le; by_vm).
      lia.
    + rewrite leb_ord; [now apply Z.leb_le | exact Pw | exact Vw | reflexivity | reflexivity].
Qed.

Lemma polylineWeights_in_range (flows : list Obj) :
  forallb (fun f => smallLog (logOf log1pImpl f)) flows = true ->
  Forall inRange (polylineWeights log1pImpl powImpl flows).
Proof.
  intros H. apply List.Forall_forall. intros w Hw. unfold polylineWeights in Hw.
  apply in_map_iff in Hw as [f [<- Hf]].
  destruct (negb (truthy (f !! "oCoords")) || negb (truthy (f !! "dCoords"))); [exact I|].
  destruct flows as [|f0 flows]; [destruct Hf|].
  assert (Hlogs : forallb smallLog (List.map (logOf log1pImpl) (f0 :: flows)) = true).
  { rewrite forallb_forall in *. intros y Hy.
    apply in_map_iff in Hy as [g [<- Hg]]. exact (H g Hg). }
  destruct (quotient_on_logs (List.map (logOf log1pImpl) (f0 :: flows)) (logOf log1pImpl f)
              ltac:(discriminate) Hlogs ltac:(now apply in_map)) as [Nt Vt].
  pose proof (weight_in_range _ Nt Vt) as Hw. cbv zeta in Hw.
  cbn [inRange]. unfold strokeFor. rewrite max_zero_idem. exact Hw.
Qed.

End WeightRange.

(** X19. Whatever the engine's [Math.log1p] and [Math.pow], if the log of
    every flow of the rendered subset is a well-formed number that is not
    negative and is below 1024, and the power 1.15 of a base in (0, 1] is a
    well-formed number in [0, 1], then the weight of every polyline that is
    drawn is at least [minW = 0.8] and at most [maxW = 14.0]. *)
Theorem weights_in_range :
  forall (log1pImpl : Num.num -> Num.num) (powImpl : Num.num -> Num.num -> Num.num)
         (flows : list Obj),
    powBounded powImpl ->
    forallb (fun f => smallLog (logOf log1pImpl f)) flows = true ->
    Forall inRange (polylineWeights log1pImpl powImpl flows).
Proof.
  intros log1pImpl powImpl flows Hpow Hlog. now apply polylineWeights_in_range.
Qed.

Lemma basePow_bounded : powBounded basePow.
Proof.
  intros c Pc Vc Lc. unfold basePow. repeat split; try assumption.
  now destruct c as [[|]|[|]| |[|] m e].
Qed.

Lemma weights_in_range_witness :
  Forall inRange
    (polylineWeights tableLog1p basePow (mapData (parseCSV tenHundredThousand) noFilter Top50)).
Proof.
  apply (weights_in_range tableLog1p basePow); [exact basePow_bounded | by_vm].
Defined.

(** ** Quoted and bare fields *)

Section Fields.

Variable fieldValue : string -> JsVal.
Variable headers : list string.

(** Characters that are neither a double quote nor a comma go to the field
    buffer. *)
Lemma scanLine_plain (s : string) :
  Str.has Str.dquote s = false -> Str.has Str.comma s = false ->
  forall st : Scan,
    scanLine fieldValue headers st s
    = mkScan (row st) (currentVal st ++ s) (inQuote st) (colIndex st).
Proof.
  induction s as [|c s IH]; intros Hq Hc st.
  - simpl. rewrite append_empty_r. now destruct st.
  - rewrite has_cons in Hq, Hc.
    apply orb_false_iff in Hq as [Hq1 Hq]. apply orb_false_iff in Hc as [Hc1 Hc].
    cbn [scanLine]. unfold scanChar. rewrite Hq1, Hc1. cbn [andb].
    rewrite (IH Hq Hc). cbn [row currentVal inQuote colIndex]. now rewrite append_snoc.
Qed.

Lemma scanChar_dquote (st : Scan) :
  scanChar fieldValue headers st Str.dquote
  = mkScan (row st) (currentVal st) (negb (inQuote st)) (colIndex st).
Proof. reflexivity. Qed.

Lemma scanChar_comma (st : Scan) :
  inQuote st = false ->
  scanChar fieldValue headers st Str.comma
  = mkScan (assign fieldValue headers st) "" false (S (colIndex st)).
Proof. intros H. unfold scanChar. rewrite H. reflexivity. Qed.

(** A written field adds its text to the field buffer and leaves the scan
    outside quotes. *)
Lemma scanLine_written (field : bool * string) (st : Scan) :
  writable field = true -> inQuote st = false ->
  scanLine fieldValue headers st (written field)
  = mkScan (row st) (currentVal st ++ snd field) false (colIndex st).
Proof.
  destruct field as [q v]. unfold writable, written. cbn [fst snd].
  intros H Hst. apply andb_true_iff in H as [Hq Hc]. apply negb_true_iff in Hq.
  destruct q.
  - rewrite quoted_snoc, append_cons. cbn [scanLine]. rewrite scanLine_app, scanChar_dquote.
    rewrite (scanLine_in_quotes _ _ v Hq) by (cbn [inQuote]; now rewrite Hst).
    cbn [scanLine]. rewrite scanChar_dquote. reflexivity.
  - cbn [orb] in Hc. apply negb_true_iff in Hc.
    rewrite (scanLine_plain v Hq Hc). now rewrite Hst.
Qed.

Lemma scanLine_fields (fields : list (bool * string)) :
  fields <> [] -> forallb writable fields = true ->
  forall st : Scan,
    inQuote st = false ->
    assign fieldValue headers (scanLine fieldValue headers st (joinFields fields))
    = assignCells fieldValue headers (colIndex st) (row st)
        (continueField (currentVal st) (List.map snd fields)).
Proof.
  induction fields as [|f fields IH]; [congruence|]. intros _ H st Hst.
  cbn [forallb] in H. apply andb_true_iff in H as [Hf H].
  destruct fields as [|g fields].
  - unfold joinFields. cbn [List.map String.concat continueField assignCells].
    rewrite (scanLine_written f st Hf Hst). reflexivity.
  - unfold joinFields. cbn [List.map]. rewrite concat_cons, scanLine_app.
    rewrite (scanLine_written f st Hf Hst).
    change ("," ++ String.concat "," (written g :: List.map written fields))
      with (String Str.comma (joinFields (g :: fields))).
    cbn [scanLine]. rewrite scanChar_comma by reflexivity.
    rewrite (IH ltac:(discriminate) H) by reflexivity.
    cbn [colIndex row currentVal List.map continueField assignCells]. reflexivity.
Qed.

End Fields.

(** X21. A line made of fields separated by commas, each written between
    double quotes or bare (no field holding a double quote, no bare field
    holding a comma), is read back field by field: for header names that
    are all different and not [__proto__], the cell under the [i]-th header
    is the coercion of the [i]-th field, commas of a quoted field included,
    and is missing when there is no such field. *)
Theorem parseLine_fields :
  forall (headers : list string) (fields : list (bool * string)) (i : nat) (h : string),
    fields <> [] ->
    forallb writable fields = true ->
    NoDup headers ->
    ~ In "__proto__" headers ->
    headers !! i = Some h ->
    parseLine coerce headers (joinFields fields) !! h
    = (fun field => coerce (snd field)) <$> (fields !! i).
Proof.
  intros headers fields i h Hne Hw Hnd Hp Hi. unfold parseLine.
  rewrite (scanLine_fields coerce headers fields Hne Hw) by reflexivity.
  cbn [colIndex row currentVal scanStart].
  assert (E : continueField "" (List.map snd fields) = List.map snd fields).
  { destruct fields; [congruence | reflexivity]. }
  rewrite E, (lookup_assignCells coerce headers Hnd Hp _ 0%nat ∅ i h Hi).
  rewrite Nat.sub_0_r. cbn [Nat.ltb Nat.leb].
  rewrite list_lookup_fmap. destruct (fields !! i); [reflexivity | apply lookup_empty].
Qed.

Lemma parseLine_fields_witness :
  parseLine coerce ["year"; "origin_name"; "total"]
            (joinFields [(false, "2021"); (true, "Boston, MA"); (false, " 150 ")])
    !! "origin_name"
  = (fun field => coerce (snd field))
      <$> ([(false, "2021"); (true, "Boston, MA"); (false, " 150 ")] !! 1%nat).
Proof.
  apply parseLine_fields; try reflexivity; try discriminate.
  - apply NoDup_ListNoDup. repeat constructor; simpl; intuition discriminate.
  - simpl. intuition discriminate.
Defined.

(** ** Text in a coordinate cell *)

Lemma removeAll_absent (c : ascii) (s : string) :
  Str.has c s = false -> Str.removeAll c s = s.
Proof.
  induction s as [|a s IH]; [reflexivity|]. rewrite has_cons.
  intros H. apply orb_false_iff in H as [Ha Hs]. cbn [Str.removeAll].
  now rewrite Ha, IH.
Qed.

(** A parsed cell that is a text other than the empty one is not a
    coordinate. *)
Lemma toNum_text (s : string) :
  cellOk (JStr s) -> s <> "" -> toNum (Some (JStr s)) = Num.NaN.
Proof.
  intros [Ht [Hq [->|Hn]]] Hs; [congruence|].
  unfold toNum. cbn [toStr]. rewrite Ht, removeAll_absent by exact Hq.
  now destruct (Num.ofString s).
Qed.

Lemma coordsValid_noText (r : Obj) :
  (forall k v, In k ["lon_o"; "lat_o"; "lon_d"; "lat_d"] -> r !! k = Some v -> cellOk v) ->
  coordsValid r = true -> noTextCoords r.
Proof.
  intros Hc Hv k s Hk Hs.
  destruct (String.string_dec s "") as [E|N]; [exact E|]. exfalso.
  pose proof (toNum_text s (Hc k _ Hk Hs) N) as Hn. rewrite <- Hs in Hn.
  unfold coordsValid in Hv. rewrite !andb_true_iff in Hv. destruct Hv as [[[H1 H2] H3] H4].
  simpl in Hk. destruct Hk as [<-|[<-|[<-|[<-|[]]]]];
    rewrite Hn in *; discriminate.
Qed.

Lemma mapData_noText (csvText : string) (cfg : Config) (topN : TopN) (f : Obj) :
  In f (mapData (parseCSV csvText) cfg topN) -> noTextCoords f.
Proof.
  unfold mapData. rewrite compact_map_repair. intros Hf.
  apply in_map_iff in Hf as [r [<- Hr]]. apply filter_In in Hr as [Hr Hv].
  apply In_take in Hr. unfold filteredData in Hr.
  apply (Permutation_in _ (sort_perm byValueDesc _)) in Hr.
  apply filter_In in Hr as [Hr _]. apply in_map_iff in Hr as [r0 [<- Hr0]].
  apply filter_In in Hr0 as [Hr0 _].
  assert (H : noTextCoords (withDisplay cfg r0)).
  { apply coordsValid_noText; [|exact Hv]. intros k v Hk Hkv.
    apply (parseCSV_cellOk csvText r0 k v Hr0).
    unfold withDisplay in Hkv. simpl in Hk.
    destruct Hk as [<-|[<-|[<-|[<-|[]]]]];
      now rewrite !lookup_insert_ne in Hkv by discriminate. }
  intros k s Hk Hs. apply (H k s Hk).
  unfold withCoords in Hs. simpl in Hk.
  destruct Hk as [<-|[<-|[<-|[<-|[]]]]];
    now rewrite !lookup_insert_ne in Hs by discriminate.
Qed.

(** X22. For every input text, no flow of the map subset has a text in one
    of its four coordinate cells: a text such as N/A in a coordinate cell
    always removes the row from the map, and the only strings that [toNum]
    lets through are the empty ones. *)
Theorem mapData_no_text_coordinates :
  forall (csvText : string) (cfg : Config) (topN : TopN),
    Forall noTextCoords (mapData (parseCSV csvText) cfg topN).
Proof.
  intros csvText cfg topN. apply List.Forall_forall. intros f.
  apply mapData_noText.
Qed.

(** ** Binary64 facts: differences and quotients between two bounds *)

(** Rounding [m * 2^e], whatever was cut off below it, never goes above a
    representable value that [m * 2^e] is below. *)
Lemma binary_round_aux_below (m : positive) (e : Z) (l : location)
    (m0 : positive) (e0 b : Z) :
  e <= fexp (Z.pos (digits2_pos m) + e) ->
  bounded Num.prec Num.emax m0 e0 = true ->
  b <= e -> b <= e0 ->
  Z.pos m * 2 ^ (e - b) < Z.pos m0 * 2 ^ (e0 - b) ->
  let r := binary_round_aux Num.prec Num.emax false (Z.pos m) e l in
  nonneg r = true /\ Num.isFinite r = true
  /\ Num.ord r <= Num.ord (S754_finite false m0 e0).
Proof.
  intros He B Hbe Hbe0 HVb r.
  pose proof (binary_round_aux_nonneg (Z.pos m) e l ltac:(lia) He) as Hnn.
  fold r in Hnn. split; [exact Hnn|].
  destruct (binary_round_aux_char false (Z.pos m) e l ltac:(lia) He)
    as [m1 [Hm1 [Hm' [He1 [Hn Hr]]]]].
  simpl Zdigits2 in *. fold r in Hr.
  set (e1 := fexp (Z.pos (digits2_pos m) + e)) in *.
  set (m' := Z.pos m / 2 ^ (e1 - e)) in *.
  pose proof (ord_lt_inf m0 e0 B) as Hinf. rewrite ord_inf in Hinf.
  pose proof (bounded_inv _ _ B) as [[B1 B2] [B3 B4]].
  pose proof (digits_bounds m) as [Dl Du]. pose proof (digits_bounds m0) as [Dl0 Du0].
  set (d := Z.pos (digits2_pos m)) in *. set (d0 := Z.pos (digits2_pos m0)) in *.
  assert (0 < d) by (subst d; lia). assert (0 < d0) by (subst d0; lia).
  assert (Hpb : 0 < 2 ^ (e - b)) by (apply pow2_pos; lia).
  assert (Hpb0 : 0 < 2 ^ (e0 - b)) by (apply pow2_pos; lia).
  assert (Hdd : d + e <= d0 + e0).
  { assert (d - 1 + (e - b) < d0 + (e0 - b)); [|lia].
    apply (Z.pow_lt_mono_r_iff 2); [lia | lia|].
    rewrite !pow2_split by lia.
    apply Z.le_lt_trans with (Z.pos m * 2 ^ (e - b)); [nia|].
    eapply Z.lt_trans; [exact HVb|]. nia. }
  assert (He0 : e0 = fexp (d0 + e0)) by (rewrite fexp_eq; lia).
  assert (Hle : e1 <= e0) by (rewrite He0; apply fexp_mono; exact Hdd).
  assert (Hee : e <= e0) by lia.
  assert (HV : Z.pos m < Z.pos m0 * 2 ^ (e0 - e)).
  { assert (Hs : 2 ^ (e0 - b) = 2 ^ (e0 - e) * 2 ^ (e - b)).
    { rewrite <- pow2_split by lia. f_equal. lia. }
    rewrite Hs in HVb. nia. }
  set (K := Z.pos m0 * 2 ^ (e0 - e1)).
  assert (Hp1 : 0 < 2 ^ (e1 - e)) by (apply pow2_pos; lia).
  assert (Hp2 : 0 < 2 ^ (e0 - e1)) by (apply pow2_pos; lia).
  assert (HK : Z.pos m0 * 2 ^ (e0 - e) = K * 2 ^ (e1 - e)).
  { subst K. rewrite <- Z.mul_assoc, <- pow2_split by lia. do 2 f_equal. lia. }
  assert (Hm'K : m' < K).
  { subst m'. apply Z.div_lt_upper_bound; [exact Hp1|]. rewrite Z.mul_comm. lia. }
  rewrite Hr.
  assert (HKb : K * 2 ^ (e1 - Num.emin) = Num.ord (S754_finite false m0 e0)).
  { rewrite ord_finite. subst K. rewrite <- Z.mul_assoc, <- pow2_split by lia.
    do 2 f_equal. lia. }
  assert (Hp3 : 0 < 2 ^ (e1 - Num.emin)) by (apply pow2_pos; lia).
  destruct (finish_char false m1 e1 ltac:(lia) He1 ltac:(destruct Hn; [left; lia | now right]))
    as [[_ ->] | [[m'' [e'' [-> [_ Hval]]]] | [_ [_ Hov]]]].
  - split; [reflexivity|]. rewrite ord_finite.
    change (Num.ord (S754_zero false)) with 0.
    apply Z.mul_nonneg_nonneg; [lia | apply Z.lt_le_incl, pow2_pos; lia].
  - split; [reflexivity|]. rewrite <- HKb, ord_finite, Hval. nia.
  - exfalso. destruct Hov as [Hov|[E Hov]]; [lia|].
    assert (E1 : e1 = Num.emax - Num.prec) by lia.
    assert (HX : K * 2 ^ (e1 - Num.emin) < 2 ^ (Num.emax - Num.emin)) by (rewrite HKb; exact Hinf).
    assert (HY : 2 ^ Num.prec * 2 ^ (e1 - Num.emin) = 2 ^ (Num.emax - Num.emin)).
    { rewrite <- pow2_split by (unfold Num.prec; lia). f_equal. lia. }
    nia.
Qed.

(** The difference of two positive finite values, between two representable
    bounds of the exact difference. *)
Lemma sub_between (x y : Num.num) (lo : positive) (elo : Z) (hi : positive) (ehi : Z) :
  Num.isPositive x = true -> Num.valid x = true -> Num.isFinite x = true ->
  Num.isPositive y = true -> Num.valid y = true -> Num.isFinite y = true ->
  bounded Num.prec Num.emax lo elo = true ->
  bounded Num.prec Num.emax hi ehi = true ->
  Num.ord (S754_finite false lo elo) + Num.ord x <= Num.ord y ->
  Num.ord y <= Num.ord (S754_finite false hi ehi) + Num.ord x ->
  exists (m : positive) (e : Z),
    Num.sub y x = S754_finite false m e
    /\ bounded Num.prec Num.emax m e = true
    /\ Num.ord (S754_finite false lo elo) <= Num.ord (S754_finite false m e)
    /\ Num.ord (S754_finite false m e) <= Num.ord (S754_finite false hi ehi).
Proof.
  destruct x as [|[|]| |[|] m1 e1], y as [|[|]| |[|] m2 e2]; try discriminate.
  intros _ Vx _ _ Vy _ Blo Bhi Hlo Hhi. unfold Num.valid, valid_binary in *.
  pose proof (bounded_inv _ _ Vx) as [[? ?] _].
  pose proof (bounded_inv _ _ Vy) as [[? ?] _].
  pose proof (bounded_inv _ _ Blo) as [[? ?] _].
  pose proof (ord_pos (S754_finite false lo elo) eq_refl Blo) as Plo.
  unfold Num.sub, SFsub. cbv zeta. unfold cond_Zopp.
  set (ez := Z.min e2 e1).
  rewrite !shl_align_fst by lia.
  assert (Ho : forall m e, ez <= e ->
             Num.ord (S754_finite false m e) = (Z.pos m * 2 ^ (e - ez)) * 2 ^ (ez - Num.emin)).
  { intros m e Hl. rewrite ord_finite, <- Z.mul_assoc, <- Z.pow_add_r by lia.
    do 2 f_equal. lia. }
  rewrite (Ho m1 e1), (Ho m2 e2) in Hlo, Hhi by lia.
  assert (Hp : 0 < 2 ^ (ez - Num.emin)) by (apply pow2_pos; lia).
  set (M1 := Z.pos m1 * 2 ^ (e1 - ez)) in *. set (M2 := Z.pos m2 * 2 ^ (e2 - ez)) in *.
  destruct (M2 - M1) as [|p|p] eqn:ED; try nia.
  pose proof (binary_normalize_valid (Z.pos p) ez false) as Hv.
  unfold binary_normalize in *.
  assert (HV : Z.pos p * 2 ^ (ez - Num.emin) = M2 * 2 ^ (ez - Num.emin) - M1 * 2 ^ (ez - Num.emin))
    by nia.
  destruct (binary_round_ge p ez lo elo ltac:(lia) Blo) as [Pr Hge].
  { rewrite <- ord_finite. lia. }
  destruct (binary_round_le p ez hi ehi ltac:(lia) Bhi) as [_ [Fr Hle]]; [lia|].
  destruct (binary_round Num.prec Num.emax false p ez) as [|[|]| |[|] m e]; try discriminate.
  exists m, e. repeat split; solve [reflexivity | assumption].
Qed.

(** The quotient of two positive finite values, the divisor at most 1024
    times the dividend: it is a positive finite value, and it is not above
    a representable value that the exact quotient is below. *)
Lemma div_below (m1 : positive) (e1 : Z) (m2 : positive) (e2 : Z) (m0 : positive) (e0 : Z) :
  bounded Num.prec Num.emax m1 e1 = true ->
  bounded Num.prec Num.emax m2 e2 = true ->
  bounded Num.prec Num.emax m0 e0 = true ->
  Num.ord (S754_finite false m2 e2) <= 1024 * Num.ord (S754_finite false m1 e1) ->
  Num.ord (S754_finite false m1 e1) * Num.ord Math.one
    < Num.ord (S754_finite false m0 e0) * Num.ord (S754_finite false m2 e2) ->
  exists (m : positive) (e : Z),
    Num.div (S754_finite false m1 e1) (S754_finite false m2 e2) = S754_finite false m e
    /\ bounded Num.prec Num.emax m e = true
    /\ Num.ord (S754_finite false m e) <= Num.ord (S754_finite false m0 e0).
Proof.
  intros B1 B2 B0 Hrange Hlt.
  pose proof (SFdiv_finite_valid false false m1 m2 e1 e2) as Hv.
  pose proof (bounded_inv _ _ B1) as [[A1 A2] [A3 _]].
  pose proof (bounded_inv _ _ B2) as [[C1 C2] [C3 _]].
  pose proof (bounded_inv _ _ B0) as [[X1 X2] _].
  pose proof (ord_bounds m1 e1 A1) as [_ Ou1]. pose proof (ord_bounds m2 e2 C1) as [Ol2 _].
  change (Num.ord Math.one) with (2 ^ (0 - Num.emin)) in Hlt.
  rewrite !ord_finite in *.
  unfold Num.div, SFdiv in *. cbn [xorb] in *.
  unfold SFdiv_core_binary in *. simpl Zdigits2 in *.
  pose proof (digits_bounds m1) as [D1l D1u]. pose proof (digits_bounds m2) as [D2l D2u].
  set (d1 := Z.pos (digits2_pos m1)) in *. set (d2 := Z.pos (digits2_pos m2)) in *.
  assert (0 < d1) by (subst d1; lia). assert (0 < d2) by (subst d2; lia).
  set (delta := d1 + e1 - (d2 + e2)) in *.
  assert (Hdelta : -11 < delta).
  { assert (d2 - 1 + (e2 - Num.emin) < d1 + (e1 - Num.emin) + 10); [|lia].
    apply (Z.pow_lt_mono_r_iff 2); [lia | lia|].
    rewrite (Z.pow_add_r 2 _ 10) by lia. change (2 ^ 10) with 1024. lia. }
  assert (Hf : fexp delta = delta - Num.prec).
  { rewrite fexp_eq. unfold Num.emin, SpecFloat.emin, Num.prec, Num.emax in *. lia. }
  rewrite Hf in *.
  assert (He' : Z.min (delta - Num.prec) (e1 - e2) = delta - Num.prec) by lia.
  rewrite He' in *. set (e' := delta - Num.prec) in *.
  assert (Hs : e1 - e2 - e' = Num.prec - d1 + d2) by lia.
  set (s := e1 - e2 - e') in *.
  assert (Hs0 : 0 < s) by lia.
  set (m' := match s with Z.pos _ => Z.shiftl (Z.pos m1) s | 0 => Z.pos m1 | Z.neg _ => 0 end) in *.
  assert (Hm' : m' = Z.pos m1 * 2 ^ s).
  { subst m'. destruct s as [|p|p] eqn:Es; [lia | | lia].
    apply Z.shiftl_mul_pow2. lia. }
  pose proof (Z.div_eucl_eq m' (Z.pos m2) ltac:(lia)) as Hdiv.
  pose proof (Z.mod_pos_bound m' (Z.pos m2) ltac:(lia)) as Hmod.
  unfold Z.modulo in Hmod.
  assert (Hq : fst (Z.div_eucl m' (Z.pos m2)) = m' / Z.pos m2) by reflexivity.
  destruct (Z.div_eucl m' (Z.pos m2)) as [q r]. cbn [fst] in Hq.
  assert (H2s : 0 < 2 ^ s) by (apply pow2_pos; lia).
  assert (Hlow : 2 ^ (Num.prec - 1) <= q).
  { rewrite Hq. apply Z.div_le_lower_bound; [lia|]. rewrite Hm'.
    apply Z.le_trans with (2 ^ d2 * 2 ^ (Num.prec - 1)).
    - apply Z.mul_le_mono_nonneg_r; [apply Z.lt_le_incl, pow2_pos; unfold Num.prec|]; lia.
    - rewrite <- pow2_split by (unfold Num.prec; lia).
      replace (d2 + (Num.prec - 1)) with ((d1 - 1) + s) by lia.
      rewrite pow2_split by lia.
      apply Z.mul_le_mono_nonneg_r; lia. }
  assert (Hqpos : 0 < q).
  { pose proof (pow2_pos (Num.prec - 1) ltac:(unfold Num.prec; lia)). lia. }
  destruct q as [|q|q]; try lia.
  assert (Hdq : Num.prec <= Z.pos (digits2_pos q)) by (apply digits_ge; exact Hlow).
  assert (Hmin : Num.emin <= e')
    by (unfold Num.emin, SpecFloat.emin, Num.prec, Num.emax in *; lia).
  assert (Hal : e' <= fexp (Z.pos (digits2_pos q) + e')).
  { rewrite fexp_eq. unfold Num.prec in *. lia. }
  assert (Hbound : Z.pos q * 2 ^ (e' - Num.emin) < Z.pos m0 * 2 ^ (e0 - Num.emin)).
  { assert (Hp2 : 0 < Z.pos m2 * 2 ^ (e2 - Num.emin))
      by (apply Z.mul_pos_pos; [lia | apply pow2_pos; lia]).
    apply (Z.mul_lt_mono_pos_r (Z.pos m2 * 2 ^ (e2 - Num.emin))); [exact Hp2|].
    eapply Z.le_lt_trans; [|exact Hlt].
    assert (Hqm : Z.pos q * Z.pos m2 <= Z.pos m1 * 2 ^ s) by lia.
    replace (Z.pos m1 * 2 ^ (e1 - Num.emin) * 2 ^ (0 - Num.emin))
      with ((Z.pos m1 * 2 ^ s) * (2 ^ (e' - Num.emin) * 2 ^ (e2 - Num.emin))).
    - replace (Z.pos q * 2 ^ (e' - Num.emin) * (Z.pos m2 * 2 ^ (e2 - Num.emin)))
        with ((Z.pos q * Z.pos m2) * (2 ^ (e' - Num.emin) * 2 ^ (e2 - Num.emin))) by ring.
      apply Z.mul_le_mono_nonneg_r; [|exact Hqm].
      apply Z.mul_nonneg_nonneg; apply Z.lt_le_incl, pow2_pos; lia.
    - rewrite <- !Z.mul_assoc. f_equal.
      rewrite <- !pow2_split by lia.
      rewrite <- (pow2_split (e1 - Num.emin) (0 - Num.emin))
        by (unfold Num.emin, SpecFloat.emin, Num.prec, Num.emax in *; lia).
      f_equal. unfold s, e', delta. lia. }
  destruct (binary_round_aux_below q e' (new_location (Z.pos m2) r) m0 e0 Num.emin
              Hal B0 Hmin X1 Hbound) as [_ [Fr Hle]].
  destruct (binary_round_aux_sign false q e' (new_location (Z.pos m2) r) Hmin)
    as [[m [e Hr]] | Hi].
  - rewrite Hr in *. exists m, e. repeat split; assumption.
  - rewrite Hi in Fr. discriminate.
Qed.

(** ** The least and the greatest log of a subset *)

(** A loop that keeps either the value seen or the one it holds ends on one
    of the values of the list, or on the one it started from. *)
Lemma fold_pick_In {A : Type} (pick : A -> A -> bool) (l : list A) (a : A) :
  In (fold_left (fun held x => if pick held x then x else held) l a) (a :: l).
Proof.
  revert a. induction l as [|x l IH]; intros a; cbn [fold_left]; [now left|].
  destruct (IH (if pick a x then x else a)) as [H|H].
  - rewrite <- H. destruct (pick a x); [right; now left | now left].
  - right. now right.
Qed.

(** The loop of [Math.max] ends at or above every value it has seen. *)
Lemma max_fold_all (l : list Num.num) (highest : Num.num) :
  forallb smallLog l = true -> smallLog highest = true ->
  let r := fold_left
             (fun highest x =>
                if (Math.isPosZero x && Math.isNegZero highest) || Num.gtb x highest
                then x else highest) l highest in
  Forall (fun x => Num.ord x <= Num.ord r) l.
Proof.
  revert highest. induction l as [|x l IH]; intros highest Hl Hhigh; cbn [fold_left]; [constructor|].
  cbn [forallb] in Hl. apply andb_true_iff in Hl as [Hx Hl].
  pose proof (smallLog_inv x Hx) as [Nx [Vx _]].
  pose proof (smallLog_inv highest Hhigh) as [Nhigh [Vhigh _]].
  assert (Hz : Math.isNegZero highest = false) by now destruct highest as [[|]|[|]| |[|] m e].
  change (Num.gtb x highest) with (Num.ltb highest x).
  rewrite Hz, andb_false_r, (ltb_ord_nonneg highest x Nhigh Vhigh Nx Vx). cbn [orb].
  destruct (Z.ltb_spec (Num.ord highest) (Num.ord x)) as [Hlt|Hge].
  - constructor; [apply (max_fold l x Hl Hx) | now apply IH].
  - constructor; [|now apply IH].
    pose proof (max_fold l highest Hl Hhigh) as [_ H]. cbv zeta in H. lia.
Qed.

(** The least of a non-empty list of small logs is one of them, and none
    is below it; the greatest is one of them, and none is above it. *)
Lemma min_max_spec (x : Num.num) (l : list Num.num) :
  forallb smallLog (x :: l) = true ->
  (In (Math.min (x :: l)) (x :: l)
   /\ Forall (fun y => Num.ord (Math.min (x :: l)) <= Num.ord y) (x :: l))
  /\ (In (Math.max (x :: l)) (x :: l)
      /\ Forall (fun y => Num.ord y <= Num.ord (Math.max (x :: l))) (x :: l)).
Proof.
  intros H. split; [split; [|now apply min_le_all]|].
  - unfold Math.min. rewrite (smallLog_not_NaN _ H).
    cbn [forallb] in H. apply andb_true_iff in H as [Hx Hl].
    cbn [fold_left].
    assert (H1 : (if Math.isNegZero x && Math.isPosZero (S754_infinity false)
                     || Num.ltb x (S754_infinity false)
                  then x else S754_infinity false) = x).
    { apply smallLog_inv in Hx as [Nx [_ Lx]]. now destruct x as [[|]|[|]| |[|] m e]. }
    rewrite H1.
    apply (fold_pick_In
             (fun lowest y => Math.isNegZero y && Math.isPosZero lowest || Num.ltb y lowest)).
  - unfold Math.max. rewrite (smallLog_not_NaN _ H).
    cbn [forallb] in H. apply andb_true_iff in H as [Hx Hl].
    cbn [fold_left].
    assert (H2 : (if Math.isPosZero x && Math.isNegZero (S754_infinity true)
                     || Num.gtb x (S754_infinity true)
                  then x else S754_infinity true) = x).
    { apply smallLog_inv in Hx as [Nx [_ Lx]]. now destruct x as [[|]|[|]| |[|] m e]. }
    rewrite H2. split.
    + apply (fold_pick_In
               (fun highest y => Math.isPosZero y && Math.isNegZero highest || Num.gtb y highest)).
    + constructor; [apply (max_fold l x Hl Hx) | now apply max_fold_all].
Qed.

(** ** The weights of flows of totals 10, 100 and 1000 *)

Lemma leb_finite (x : Num.num) (m : positive) (e : Z) :
  Num.isPositive x = true -> Num.leb x (S754_finite false m e) = true ->
  Num.isFinite x = true.
Proof. destruct x as [|[|]| |[|] mx ex]; try discriminate; reflexivity. Qed.

(** A positive value between two positive finite ones, by positions. *)
Lemma between_ord (lo x hi : Num.num) :
  Num.isPositive lo = true -> Num.valid lo = true ->
  Num.isPositive hi = true -> Num.valid hi = true -> Num.isFinite hi = true ->
  Num.valid x = true ->
  Num.leb lo x = true -> Num.leb x hi = true ->
  Num.isPositive x = true /\ Num.isFinite x = true
  /\ Num.ord lo <= Num.ord x <= Num.ord hi.
Proof.
  intros Plo Vlo Phi Vhi Fhi Vx Hlo Hhi.
  pose proof (leb_positive _ _ Plo Hlo) as Px.
  split; [exact Px|]. split.
  - destruct hi as [|[|]| |[|] m e]; try discriminate. now apply (leb_finite x m e).
  - rewrite leb_ord in Hlo, Hhi by assumption. apply Z.leb_le in Hlo, Hhi. lia.
Qed.

Section ThreeFlows.

Variable log1pImpl : Num.num -> Num.num.
Variable powImpl : Num.num -> Num.num -> Num.num.
Hypothesis log_ok : logsBracketed log1pImpl.

(** The three logs by their positions, in eighths of the position of 1. *)
Lemma logs_ord :
  let E := Num.ord (lit 0.125) in
  (Num.isPositive (log1pImpl (lit 10)) = true /\ Num.valid (log1pImpl (lit 10)) = true
   /\ Num.isFinite (log1pImpl (lit 10)) = true
   /\ 16 * E <= Num.ord (log1pImpl (lit 10)) <= 20 * E)
  /\ (Num.isPositive (log1pImpl (lit 100)) = true /\ Num.valid (log1pImpl (lit 100)) = true
      /\ Num.isFinite (log1pImpl (lit 100)) = true
      /\ 36 * E <= Num.ord (log1pImpl (lit 100)) <= 40 * E)
  /\ (Num.isPositive (log1pImpl (lit 1000)) = true /\ Num.valid (log1pImpl (lit 1000)) = true
      /\ Num.isFinite (log1pImpl (lit 1000)) = true
      /\ 52 * E <= Num.ord (log1pImpl (lit 1000)) <= 56 * E).
Proof.
  intros E. destruct log_ok as [V1 [V2 [V3 [A1 [A2 [B1 [B2 [C1 C2]]]]]]]]. cbv zeta in *.
  destruct (between_ord (lit 2) _ (lit 2.5) eq_refl eq_refl eq_refl eq_refl eq_refl V1 A1 A2)
    as [P1 [F1 O1]].
  destruct (between_ord (lit 4.5) _ (lit 5) eq_refl eq_refl eq_refl eq_refl eq_refl V2 B1 B2)
    as [P2 [F2 O2]].
  destruct (between_ord (lit 6.5) _ (lit 7) eq_refl eq_refl eq_refl eq_refl eq_refl V3 C1 C2)
    as [P3 [F3 O3]].
  change (Num.ord (lit 2)) with (16 * E) in O1. change (Num.ord (lit 2.5)) with (20 * E) in O1.
  change (Num.ord (lit 4.5)) with (36 * E) in O2. change (Num.ord (lit 5)) with (40 * E) in O2.
  change (Num.ord (lit 6.5)) with (52 * E) in O3. change (Num.ord (lit 7)) with (56 * E) in O3.
  repeat split; solve [assumption | lia].
Qed.

(** [log1p(100) - log1p(10)] is a finite value in [2, 3] and
    [log1p(1000) - log1p(10)] one in [4, 5]. *)
Lemma rise_and_span :
  let E := Num.ord (lit 0.125) in
  (exists (m : positive) (e : Z),
      Num.sub (log1pImpl (lit 100)) (log1pImpl (lit 10)) = S754_finite false m e
      /\ bounded Num.prec Num.emax m e = true
      /\ 16 * E <= Num.ord (S754_finite false m e) <= 24 * E)
  /\ (exists (m : positive) (e : Z),
         Num.sub (log1pImpl (lit 1000)) (log1pImpl (lit 10)) = S754_finite false m e
         /\ bounded Num.prec Num.emax m e = true
         /\ 32 * E <= Num.ord (S754_finite false m e) <= 40 * E).
Proof.
  intros E.
  destruct logs_ord as [[P1 [V1 [F1 O1]]] [[P2 [V2 [F2 O2]]] [P3 [V3 [F3 O3]]]]].
  fold E in O1, O2, O3.
  assert (HE : 0 < E) by reflexivity.
  split.
  - destruct (sub_between (log1pImpl (lit 10)) (log1pImpl (lit 100))
                4503599627370496 (-51) 6755399441055744 (-51)
                P1 V1 F1 P2 V2 F2 eq_refl eq_refl) as [m [e [Hs [B [Hlo Hhi]]]]].
    + change (Num.ord (S754_finite false 4503599627370496 (-51))) with (16 * E). lia.
    + change (Num.ord (S754_finite false 6755399441055744 (-51))) with (24 * E). lia.
    + exists m, e. split; [exact Hs|]. split; [exact B|].
      change (Num.ord (S754_finite false 4503599627370496 (-51))) with (16 * E) in Hlo.
      change (Num.ord (S754_finite false 6755399441055744 (-51))) with (24 * E) in Hhi.
      lia.
  - destruct (sub_between (log1pImpl (lit 10)) (log1pImpl (lit 1000))
                4503599627370496 (-50) 5629499534213120 (-50)
                P1 V1 F1 P3 V3 F3 eq_refl eq_refl) as [m [e [Hs [B [Hlo Hhi]]]]].
    + change (Num.ord (S754_finite false 4503599627370496 (-50))) with (32 * E). lia.
    + change (Num.ord (S754_finite false 5629499534213120 (-50))) with (40 * E). lia.
    + exists m, e. split; [exact Hs|]. split; [exact B|].
      change (Num.ord (S754_finite false 4503599627370496 (-50))) with (32 * E) in Hlo.
      change (Num.ord (S754_finite false 5629499534213120 (-50))) with (40 * E) in Hhi.
      lia.
Qed.

(** The normalised log of 100 is a positive finite value below 1: the
    clamp leaves it as it is. *)
Lemma quotient_100 :
  let t := Num.div (Num.sub (log1pImpl (lit 100)) (log1pImpl (lit 10)))
                   (Num.sub (log1pImpl (lit 1000)) (log1pImpl (lit 10))) in
  Num.isPositive t = true /\ Num.isFinite t = true /\ Num.valid t = true
  /\ Num.ltb t Math.one = true.
Proof.
  intros t. subst t.
  destruct rise_and_span as [[mn [en [-> [Bn On]]]] [md [ed [-> [Bd Od]]]]].
  set (E := Num.ord (lit 0.125)) in *.
  assert (HE : 0 < E) by reflexivity.
  destruct (div_below mn en md ed 7881299347898368 (-53) Bn Bd eq_refl)
    as [m [e [-> [B Hle]]]].
  - lia.
  - change (Num.ord Math.one) with (8 * E).
    change (Num.ord (S754_finite false 7881299347898368 (-53))) with (7 * E).
    clearbody E. nia.
  - split; [reflexivity|]. split; [reflexivity|]. split; [exact B|].
    rewrite ltb_ord by (reflexivity || exact B). apply Z.ltb_lt.
    change (Num.ord (S754_finite false 7881299347898368 (-53))) with (7 * E) in Hle.
    change (Num.ord Math.one) with (8 * E). lia.
Qed.

(** A subset whose totals are 10, 100 or 1000, with a 10 and a 1000 among
    them: [minLog] and [maxLog] are the logs of 10 and of 1000. *)
Lemma logRange_of_totals (flows : list Obj) :
  (forall f : Obj, In f flows ->
     valueOrZero f = lit 10 \/ valueOrZero f = lit 100 \/ valueOrZero f = lit 1000) ->
  (exists f : Obj, In f flows /\ valueOrZero f = lit 10) ->
  (exists f : Obj, In f flows /\ valueOrZero f = lit 1000) ->
  logRange log1pImpl flows = (log1pImpl (lit 10), log1pImpl (lit 1000)).
Proof.
  intros Hall [f10 [Hin10 Hv10]] [f1000 [Hin1000 Hv1000]].
  destruct logs_ord as [[P1 [V1 [F1 O1]]] [[P2 [V2 [F2 O2]]] [P3 [V3 [F3 O3]]]]].
  set (E := Num.ord (lit 0.125)) in *.
  assert (HE : 0 < E) by reflexivity.
  assert (Hlog : forall f : Obj, In f flows ->
            logOf log1pImpl f = log1pImpl (lit 10) \/ logOf log1pImpl f = log1pImpl (lit 100)
            \/ logOf log1pImpl f = log1pImpl (lit 1000)).
  { intros f Hf. unfold logOf. destruct (Hall f Hf) as [-> | [-> | ->]]; auto. }
  assert (Hsmall : forall x : Num.num,
            Num.isPositive x = true -> Num.valid x = true -> Num.ord x <= 56 * E ->
            smallLog x = true).
  { intros x Px Vx Ox. unfold smallLog.
    assert (Nx : nonneg x = true) by now destruct x as [[|]|[|]| |[|] m e].
    rewrite Nx, Vx. cbn [andb].
    rewrite ltb_ord by (reflexivity || assumption). apply Z.ltb_lt.
    change (Num.ord (lit 1024)) with (8192 * E). lia. }
  assert (Hlogs : forallb smallLog (List.map (logOf log1pImpl) flows) = true).
  { apply forallb_forall. intros y Hy. apply in_map_iff in Hy as [f [<- Hf]].
    destruct (Hlog f Hf) as [-> | [-> | ->]]; apply Hsmall; solve [assumption | lia]. }
  assert (Hin1 : In (log1pImpl (lit 10)) (List.map (logOf log1pImpl) flows)).
  { apply in_map_iff. exists f10. split; [|exact Hin10]. unfold logOf. now rewrite Hv10. }
  assert (Hin3 : In (log1pImpl (lit 1000)) (List.map (logOf log1pImpl) flows)).
  { apply in_map_iff. exists f1000. split; [|exact Hin1000]. unfold logOf. now rewrite Hv1000. }
  assert (Hcases : forall y : Num.num, In y (List.map (logOf log1pImpl) flows) ->
            y = log1pImpl (lit 10) \/ y = log1pImpl (lit 100) \/ y = log1pImpl (lit 1000)).
  { intros y Hy. apply in_map_iff in Hy as [f [<- Hf]]. now apply Hlog. }
  unfold logRange. destruct flows as [|f0 flows']; [destruct Hin10|].
  change (List.map (fun f : Obj => Math.log1p log1pImpl (Math.max [Num.zero; valueOrZero f]))
            (f0 :: flows'))
    with (List.map (logOf log1pImpl) (f0 :: flows')).
  set (logs := List.map (logOf log1pImpl) (f0 :: flows')) in *.
  cbn [List.map] in logs.
  destruct (min_max_spec _ _ Hlogs) as [[Hmin Hminle] [Hmax Hmaxge]].
  fold logs in Hmin, Hminle, Hmax, Hmaxge.
  rewrite List.Forall_forall in Hminle, Hmaxge.
  pose proof (Hminle _ Hin1) as Hle1. pose proof (Hmaxge _ Hin3) as Hge3.
  assert (Emin : Math.min logs = log1pImpl (lit 10)).
  { destruct (Hcases _ Hmin) as [H|[H|H]]; [exact H | |]; rewrite H in Hle1; lia. }
  assert (Emax : Math.max logs = log1pImpl (lit 1000)).
  { destruct (Hcases _ Hmax) as [H|[H|H]]; [| |exact H]; rewrite H in Hge3; lia. }
  rewrite Emin, Emax. f_equal.
  destruct (add_le (log1pImpl (lit 10)) (lit 1e-6) 6755399441055744 (-51)
              P1 V1 eq_refl eq_refl eq_refl) as [Fa Ha].
  { change (Num.ord (S754_finite false 6755399441055744 (-51))) with (24 * E).
    assert (Num.ord (lit 1e-6) <= 4 * E) by (apply Z.leb_le; reflexivity). lia. }
  change (Num.ord (S754_finite false 6755399441055744 (-51))) with (24 * E) in Ha.
  destruct (add_ge_left (log1pImpl (lit 10)) (lit 1e-6) P1 V1 eq_refl eq_refl) as [Pa _].
  assert (N3 : nonneg (log1pImpl (lit 1000)) = true)
    by now destruct (log1pImpl (lit 1000)) as [[|]|[|]| |[|] m e].
  rewrite (max_pair_ord _ _ N3 V3 Pa (add_valid _ (lit 1e-6) V1 eq_refl)).
  destruct (Z.ltb_spec (Num.ord (log1pImpl (lit 1000)))
              (Num.ord (Num.add (log1pImpl (lit 10)) (lit 1e-6)))); [lia | reflexivity].
Qed.

Hypothesis pow_ok : powUnit powImpl.

(** On the normalised log of 100 the clamp does nothing and [Math.pow] is
    the engine's power. *)
Lemma clamped_pow_100 :
  let t := Num.div (Num.sub (log1pImpl (lit 100)) (log1pImpl (lit 10)))
                   (Num.sub (log1pImpl (lit 1000)) (log1pImpl (lit 10))) in
  Math.pow powImpl (Math.min [Math.one; Math.max [Num.zero; t]]) (lit 1.15)
  = powImpl t (lit 1.15).
Proof.
  intros t. destruct quotient_100 as [Pt [Ft [Vt Lt]]]. fold t in Pt, Ft, Vt, Lt.
  assert (Nt : nonneg t = true) by now destruct t as [[|]|[|]| |[|] m e].
  rewrite max_zero_nonneg, min_one_nonneg, Lt, pow_115 by exact Nt.
  now destruct t as [[|]|[|]| |[|] m e].
Qed.

Section Strokes.

Variable flows : list Obj.
Hypothesis range_ok :
  logRange log1pImpl flows = (log1pImpl (lit 10), log1pImpl (lit 1000)).

Lemma stroke_10 :
  strokeFor log1pImpl powImpl flows (Math.max [Num.zero; lit 10]) = lit 0.8.
Proof.
  destruct logs_ord as [[P1 [V1 [F1 O1]]] _].
  unfold strokeFor. rewrite range_ok.
  change (Math.log1p log1pImpl (Math.max [Num.zero; Math.max [Num.zero; lit 10]]))
    with (log1pImpl (lit 10)).
  rewrite sub_self by exact F1.
  destruct rise_and_span as [_ [md [ed [-> _]]]]. reflexivity.
Qed.

Lemma stroke_1000 :
  strokeFor log1pImpl powImpl flows (Math.max [Num.zero; lit 1000]) = lit 14.0.
Proof.
  unfold strokeFor. rewrite range_ok.
  change (Math.log1p log1pImpl (Math.max [Num.zero; Math.max [Num.zero; lit 1000]]))
    with (log1pImpl (lit 1000)).
  destruct rise_and_span as [_ [md [ed [-> _]]]]. rewrite div_self.
  change (Math.min [Math.one; Math.max [Num.zero; Math.one]]) with Math.one.
  change (Math.pow powImpl Math.one (lit 1.15)) with (powImpl Math.one (lit 1.15)).
  destruct pow_ok as [-> _]. reflexivity.
Qed.

Lemma stroke_100 :
  strokeFor log1pImpl powImpl flows (Math.max [Num.zero; lit 100])
  = Num.add (lit 0.8)
      (Num.mul
         (powImpl
            (Num.div (Num.sub (log1pImpl (lit 100)) (log1pImpl (lit 10)))
                     (Num.sub (log1pImpl (lit 1000)) (log1pImpl (lit 10))))
            (lit 1.15))
         (Num.sub (lit 14.0) (lit 0.8))).
Proof.
  unfold strokeFor. rewrite range_ok.
  change (Math.log1p log1pImpl (Math.max [Num.zero; Math.max [Num.zero; lit 100]]))
    with (log1pImpl (lit 100)).
  pose proof clamped_pow_100 as H. cbv zeta in H. rewrite H. reflexivity.
Qed.

End Strokes.

(** The weight of the flow of total 100 is between [minW] and [maxW]. *)
Lemma weight_100_in_range :
  let t := Num.div (Num.sub (log1pImpl (lit 100)) (log1pImpl (lit 10)))
                   (Num.sub (log1pImpl (lit 1000)) (log1pImpl (lit 10))) in
  let w100 := Num.add (lit 0.8) (Num.mul (powImpl t (lit 1.15)) (Num.sub (lit 14.0) (lit 0.8))) in
  Num.leb (lit 0.8) w100 = true /\ Num.leb w100 (lit 14.0) = true.
Proof.
  intros t w100. destruct quotient_100 as [Pt [Ft [Vt Lt]]]. fold t in Pt, Ft, Vt, Lt.
  assert (Nt : nonneg t = true) by now destruct t as [[|]|[|]| |[|] m e].
  destruct pow_ok as [_ Hb].
  pose proof (weight_in_range powImpl Hb t Nt Vt) as H. cbv zeta in H.
  pose proof clamped_pow_100 as Hc. cbv zeta in Hc. fold t in Hc. rewrite Hc in H.
  exact H.
Qed.

End ThreeFlows.

Lemma combine_map_map {A B C : Type} (f : A -> B) (g : A -> C) (l : list A) :
  combine (List.map f l) (List.map g l) = List.map (fun a => (f a, g a)) l.
Proof. induction l as [|a l IH]; [reflexivity|]. cbn [List.map combine]. now rewrite IH. Qed.

(** C6. Take any [Math.log1p] whose results at 10, 100 and 1000 are
    well-formed numbers in [2, 2.5], [4.5, 5] and [6.5, 7], and any
    [Math.pow] whose power 1.15 of 1 is 1 and of a base in (0, 1] is in
    [0, 1].  For a rendered subset of three drawn flows whose displayValues
    are 10, 100 and 1000, in whatever order, [minLog] and [maxLog] are the
    logs of 10 and of 1000.  With
    [t(v) = (log1p(v) - minLog) / (maxLog - minLog)], [t(10)] is 0, [t(100)]
    is strictly between 0 and 1 and [t(1000)] is 1, so that the clamp
    changes none of them.  Every weight is [0.8 + t2 * (14.0 - 0.8)], with
    [t2 = 0] for the flow of value 10, [t2 = pow(t(100), 1.15)] for the
    flow of value 100 and [t2 = 1] for the flow of value 1000: the flow of
    value 1000 gets exactly 14.0, the flow of value 10 gets 0.8, and the
    weight of the flow of value 100 is at least 0.8 and at most 14.0. *)
Theorem C6_weights_10_100_1000 :
  forall (log1pImpl : Num.num -> Num.num) (powImpl : Num.num -> Num.num -> Num.num)
         (flows : list Obj),
    logsBracketed log1pImpl ->
    powUnit powImpl ->
    Permutation (List.map (fun f : Obj => (valueOrZero f, drawn f)) flows)
                [(lit 10, true); (lit 100, true); (lit 1000, true)] ->
    let minLog := log1pImpl (lit 10) in
    let maxLog := log1pImpl (lit 1000) in
    let t := fun v : Num.num =>
               Num.div (Num.sub (log1pImpl v) minLog) (Num.sub maxLog minLog) in
    let weight := fun t2 : Num.num =>
                    Num.add (lit 0.8) (Num.mul t2 (Num.sub (lit 14.0) (lit 0.8))) in
    let w100 := weight (powImpl (t (lit 100)) (lit 1.15)) in
    logRange log1pImpl flows = (minLog, maxLog)
    /\ t (lit 10) = Num.zero
    /\ (Num.ltb Num.zero (t (lit 100)) = true /\ Num.ltb (t (lit 100)) Math.one = true)
    /\ t (lit 1000) = Math.one
    /\ Permutation
         (combine (List.map valueOrZero flows) (polylineWeights log1pImpl powImpl flows))
         [(lit 10, Some (weight Num.zero)); (lit 100, Some w100);
          (lit 1000, Some (weight Math.one))]
    /\ weight Num.zero = lit 0.8
    /\ weight Math.one = lit 14.0
    /\ Num.leb (lit 0.8) w100 = true /\ Num.leb w100 (lit 14.0) = true.
Proof.
  intros log1pImpl powImpl flows Hlog Hpow Hperm minLog maxLog t weight w100.
  set (g := fun f : Obj => (valueOrZero f, drawn f)) in Hperm.
  assert (Hin : forall f : Obj, In f flows ->
            In (g f) [(lit 10, true); (lit 100, true); (lit 1000, true)]).
  { intros f Hf. apply (Permutation_in _ Hperm). now apply in_map. }
  assert (Hex : forall p, In p [(lit 10, true); (lit 100, true); (lit 1000, true)] ->
            exists f : Obj, In f flows /\ g f = p).
  { intros p Hp. apply (Permutation_in _ (Permutation_sym Hperm)) in Hp.
    apply in_map_iff in Hp as [f [Hg Hf]]. now exists f. }
  assert (Hrange : logRange log1pImpl flows = (minLog, maxLog)).
  { apply (logRange_of_totals log1pImpl Hlog).
    - intros f Hf. specialize (Hin f Hf). cbn [In] in Hin.
      destruct Hin as [H|[H|[H|[]]]]; injection H as H _; auto.
    - destruct (Hex (lit 10, true) ltac:(now left)) as [f [Hf H]].
      exists f. split; [exact Hf|]. now injection H.
    - destruct (Hex (lit 1000, true) ltac:(right; right; now left)) as [f [Hf H]].
      exists f. split; [exact Hf|]. now injection H. }
  destruct (logs_ord log1pImpl Hlog) as [[_ [_ [F1 _]]] _].
  destruct (rise_and_span log1pImpl Hlog) as [_ [md [ed [Hspan _]]]].
  destruct (quotient_100 log1pImpl Hlog) as [Pt [Ft [Vt Lt]]].
  split; [exact Hrange|].
  split; [unfold t, minLog, maxLog; now rewrite sub_self, Hspan by exact F1|].
  split; [split; [rewrite <- Pt; apply SFltb_zero_pos | exact Lt]|].
  split; [unfold t, minLog, maxLog; rewrite Hspan; apply div_self|].
  split; [|split; [reflexivity|]; split; [reflexivity|];
           exact (weight_100_in_range log1pImpl powImpl Hlog Hpow)].
  set (h := fun p : Num.num * bool =>
              (fst p,
               if Num.same (fst p) (lit 10) then Some (weight Num.zero)
               else if Num.same (fst p) (lit 100) then Some w100
               else Some (weight Math.one))).
  unfold polylineWeights. rewrite combine_map_map.
  replace (List.map _ flows) with (List.map h (List.map g flows)).
  - exact (Permutation_map h Hperm).
  - rewrite List.map_map. apply List.map_ext_in. intros f Hf.
    specialize (Hin f Hf). cbn [In] in Hin. unfold g in Hin. unfold h, g. cbn [fst].
    destruct Hin as [H|[H|[H|[]]]]; injection H as Hv Hd; rewrite <- Hv;
      unfold drawn in Hd; symmetry in Hd; apply andb_true_iff in Hd as [-> ->];
      cbn [negb orb]; f_equal; f_equal; symmetry.
    + now apply stroke_10.
    + now apply stroke_100.
    + now apply stroke_1000.
Qed.

Lemma tableLog1p_bracketed : logsBracketed tableLog1p.
Proof. repeat split; by_vm. Qed.

Lemma tablePow_unit : powUnit tablePow.
Proof.
  split; [reflexivity|]. intros c Pc Vc Lc. unfold tablePow.
  destruct (Num.same c _ && Num.same _ _); [repeat split; reflexivity|].
  repeat split; try assumption. now destruct c as [[|]|[|]| |[|] m e].
Qed.

Lemma C6_weights_10_100_1000_witness :
  let flows := mapData (parseCSV tenHundredThousand) noFilter Top50 in
  let minLog := tableLog1p (lit 10) in
  let maxLog := tableLog1p (lit 1000) in
  let t := fun v : Num.num =>
             Num.div (Num.sub (tableLog1p v) minLog) (Num.sub maxLog minLog) in
  let weight := fun t2 : Num.num =>
                  Num.add (lit 0.8) (Num.mul t2 (Num.sub (lit 14.0) (lit 0.8))) in
  let w100 := weight (tablePow (t (lit 100)) (lit 1.15)) in
  logRange tableLog1p flows = (minLog, maxLog)
  /\ t (lit 10) = Num.zero
  /\ (Num.ltb Num.zero (t (lit 100)) = true /\ Num.ltb (t (lit 100)) Math.one = true)
  /\ t (lit 1000) = Math.one
  /\ Permutation
       (combine (List.map valueOrZero flows) (polylineWeights tableLog1p tablePow flows))
       [(lit 10, Some (weight Num.zero)); (lit 100, Some w100);
        (lit 1000, Some (weight Math.one))]
  /\ weight Num.zero = lit 0.8
  /\ weight Math.one = lit 14.0
  /\ Num.leb (lit 0.8) w100 = true /\ Num.leb w100 (lit 14.0) = true.
Proof.
  assert (H : List.map (fun f : Obj => (valueOrZero f, drawn f))
                (mapData (parseCSV tenHundredThousand) noFilter Top50)
              = [(lit 1000, true); (lit 100, true); (lit 10, true)]) by by_vm.
  apply (C6_weights_10_100_1000 tableLog1p tablePow
           (mapData (parseCSV tenHundredThousand) noFilter Top50)
           tableLog1p_bracketed tablePow_unit).
  rewrite H.
  eapply perm_trans; [apply perm_swap|].
  eapply perm_trans; [apply perm_skip, perm_swap|].
  apply perm_swap.
Defined.

(** The three flows as they are drawn, the greatest first, with the logs
    and the power of an engine that rounds correctly: the normalised log
    of 100 is 0.4915..., its power 1.15 is 0.4418... and the weights are
    14.0, 6.6325... and 0.8. *)
Example weights_of_three_flows :
  let flows := mapData (parseCSV tenHundredThousand) noFilter Top50 in
  List.map valueOrZero flows = [lit 1000; lit 100; lit 10]
  /\ logRange tableLog1p flows = (lit 2.3978952727983707, lit 6.90875477931522)
  /\ Num.div (Num.sub (tableLog1p (lit 100)) (tableLog1p (lit 10)))
             (Num.sub (tableLog1p (lit 1000)) (tableLog1p (lit 10)))
     = lit 0.49153054774586935
  /\ tablePow (lit 0.49153054774586935) (lit 1.15) = lit 0.4418583746309846
  /\ polylineWeights tableLog1p tablePow flows
     = [Some (lit 14.0); Some (lit 6.632530545128996); Some (lit 0.8)].
Proof. repeat split; by_vm. Qed.
